(** * Annotation viewer: time codec, marker pairing and interval CRUD

    A shallow embedding of [app.py].  Only the logic that is original to
    the program is embedded: the [HH:MM:SS] codec, the reading and
    pairing of annotation markers, the operations on the interval list,
    the text export, the colour lookup of the renderer and the way the
    buttons call these functions.  Signal decoding, plotting and the
    widgets are external and do not appear.

    Conventions of the model.
    - A Python [str] is a list of characters; a character is a code
      point below 256 (the Latin-1 range), written as an [ascii].  Files
      and the console are taken to accept every such character.
    - A Python [int] is a [Z]; floor division and modulo are [Z.div] and
      [Z.modulo], which round the same way.  A conversion between an int
      and its decimal text fails with [ValueError] beyond
      [max_str_digits] digits, as the interpreter does by default.
    - A Python [float] is a binary64 [float]; what a number field hands
      over is an int, a float or [None], a [number].
    - An exception is a value of [exn]; a computation that may raise
      returns a [result].
    - A [dict] that is mutated in place lives in a [heap] and is named by
      its location; Python lists of such dicts are lists of locations,
      so that two positions holding the same object are visible. *)

From Stdlib Require Import ZArith Ascii String Lia.
From Stdlib Require Import PrimFloat FloatOps SpecFloat.
From stdpp Require Import base list strings gmap.

Local Open Scope Z_scope.

(** ** Strings *)

Definition str := list ascii.

Notation "$ s" := (list_ascii_of_string s) (at level 1, format "$ s").

Definition ord (c : ascii) : N := N_of_ascii c.

(** [str.isspace] on one character, for code points below 256. *)
Definition isspace (c : ascii) : bool :=
  let n := ord c in
  ((9 <=? n) && (n <=? 13) || (28 <=? n) && (n <=? 32)
   || (n =? 133) || (n =? 160))%N.

(** The characters [int()] strips around a literal: the ASCII blanks and,
    in a non-ASCII string, the Unicode spaces.  The separators 28..31 are
    whitespace for [str.split] but not for [int]. *)
Definition int_space (c : ascii) : bool :=
  let n := ord c in
  ((9 <=? n) && (n <=? 13) || (n =? 32) || (n =? 133) || (n =? 160))%N.

Definition digit_val (c : ascii) : option Z :=
  let n := ord c in
  if ((48 <=? n) && (n <=? 57))%N then Some (Z.of_N (n - 48)) else None.

Definition digit_char (d : Z) : ascii := ascii_of_N (48 + Z.to_N d).

Definition ascii_eqb (a b : ascii) : bool := Ascii.eqb a b.

Fixpoint drop_while (p : ascii -> bool) (s : str) : str :=
  match s with
  | [] => []
  | c :: r => if p c then drop_while p r else s
  end.

Definition strip_with (p : ascii -> bool) (s : str) : str :=
  rev (drop_while p (rev (drop_while p s))).

(** [s.strip()] *)
Definition strip (s : str) : str := strip_with isspace s.

Definition flush (cur : str) : list str :=
  match cur with [] => [] | _ => [rev cur] end.

(** [s.split()]: the maximal runs of non-whitespace characters.  [cur] is
    the token being read, most recent character first. *)
Fixpoint split_ws_from (cur : str) (s : str) : list str :=
  match s with
  | [] => flush cur
  | c :: r =>
      if isspace c then flush cur ++ split_ws_from [] r
      else split_ws_from (c :: cur) r
  end.

Definition split_ws (s : str) : list str := split_ws_from [] s.

(** [s.split(sep)] for a one-character separator: always at least one
    piece, empty pieces kept. *)
Fixpoint split_on (sep : ascii) (s : str) : list str :=
  match s with
  | [] => [[]]
  | c :: r =>
      if ascii_eqb c sep then [] :: split_on sep r
      else match split_on sep r with
           | tok :: toks => (c :: tok) :: toks
           | [] => [[c]]
           end
  end.

(** [s[:-1]] *)
Definition but_last (s : str) : str := removelast s.

(** ** Exceptions *)

Inductive exn : Set := ValueError | IndexError | OverflowError | TypeError.

Inductive result (A : Type) : Type :=
| Ok (a : A)
| Raise (e : exn).
Arguments Ok {A} a.
Arguments Raise {A} e.

Definition bind {A B} (c : result A) (k : A -> result B) : result B :=
  match c with Ok a => k a | Raise e => Raise e end.

Notation "x <- c ;; k" := (bind c (fun x => k))
  (at level 100, c at next level, right associativity).

(** The values of a list of computations, in order, or the first
    exception: a list comprehension whose element may raise. *)
Fixpoint collect {A} (l : list (result A)) : result (list A) :=
  match l with
  | [] => Ok []
  | c :: rest => x <- c ;; xs <- collect rest ;; Ok (x :: xs)
  end.

(** [l[i]] for a Python list and an integer index: a negative index counts
    from the end; anything outside [-len, len) raises [IndexError]. *)
Definition norm_index (n : nat) (i : Z) : result nat :=
  if (0 <=? i) && (i <? Z.of_nat n) then Ok (Z.to_nat i)
  else if (- Z.of_nat n <=? i) && (i <? 0) then Ok (Z.to_nat (Z.of_nat n + i))
  else Raise IndexError.

Definition getitem {A} (l : list A) (i : Z) : result A :=
  k <- norm_index (length l) i ;;
  match l !! k with Some x => Ok x | None => Raise IndexError end.

(** [s[-1]] *)
Definition last_char (s : str) : result ascii := getitem s (-1).

(** ** Integers and text *)

(** The default of [sys.get_int_max_str_digits()]. *)
Definition max_str_digits : nat := 4300.

(** The body of an integer literal as [int()] reads it: decimal digits,
    with single underscores allowed between two digits.  [seen] tells
    whether the previous character was a digit. *)
Fixpoint digits_acc (acc : Z) (seen : bool) (s : str) : option Z :=
  match s with
  | [] => if seen then Some acc else None
  | c :: r =>
      match digit_val c with
      | Some d => digits_acc (10 * acc + d) true r
      | None =>
          if ascii_eqb c "_" && seen then digits_acc acc false r else None
      end
  end.

(** The number of digit characters of a literal; underscores do not
    count. *)
Definition count_digits (s : str) : nat :=
  length (filter (fun c => is_Some (digit_val c)) s).

(** [int(s)] in base ten.  A literal of more than [max_str_digits] digits
    is refused like a malformed one, with [ValueError]. *)
Definition int_of_str (s : str) : result Z :=
  let t := strip_with int_space s in
  let '(neg, body) :=
    match t with
    | c :: r =>
        if ascii_eqb c "-" then (true, r)
        else if ascii_eqb c "+" then (false, r)
        else (false, t)
    | [] => (false, t)
    end in
  if (max_str_digits <? count_digits body)%nat then Raise ValueError
  else
    match digits_acc 0 false body with
    | Some n => Ok (if neg then - n else n)
    | None => Raise ValueError
    end.

Fixpoint digits_fuel (fuel : nat) (n : Z) (acc : str) : str :=
  match fuel with
  | O => acc
  | S f =>
      let acc' := digit_char (n mod 10) :: acc in
      if n <? 10 then acc' else digits_fuel f (n / 10) acc'
  end.

(** The decimal digits of a non-negative integer, without leading zeros. *)
Definition digits (n : Z) : str :=
  digits_fuel (S (Z.to_nat (Z.log2 n))) n [].

(** The decimal text of an integer, and the same text with zeros after
    the sign up to a total width of two. *)
Definition decimal (z : Z) : str :=
  if z <? 0 then "-"%char :: digits (- z) else digits z.

Definition padded_02 (z : Z) : str :=
  let sign := if z <? 0 then ["-"%char] else [] in
  let ds := digits (Z.abs z) in
  sign ++ replicate (2 - length sign - length ds)%nat "0"%char ++ ds.

(** The conversion of an int to text, whatever the format, raises
    [ValueError] when the int has more than [max_str_digits] digits. *)
Definition check_digits (z : Z) : result unit :=
  if (max_str_digits <? length (digits (Z.abs z)))%nat then Raise ValueError
  else Ok tt.

(** [str(z)], [repr(z)] and what [f"{z}"] inserts. *)
Definition str_of_Z (z : Z) : result str :=
  _ <- check_digits z ;; Ok (decimal z).

(** [f"{z:02}"] *)
Definition format_02 (z : Z) : result str :=
  _ <- check_digits z ;; Ok (padded_02 z).

(** ** Numbers *)

(** What a [gr.Number] hands over and what a dict of an interval holds
    under ['start'] and ['end']: an int, a float, or [None] when the field
    was left empty. *)
Inductive number : Type := Int (z : Z) | Float (x : float) | NoNumber.

(** An integer as a float; exact up to [2 ^ 53], which covers its uses
    here. *)
Definition float_of_Z (z : Z) : float :=
  match z with
  | Z0 => zero
  | Zpos p => SF2Prim (S754_finite false p 0)
  | Zneg p => SF2Prim (S754_finite true p 0)
  end.

(** A zero with the sign of [y]: C's [copysign(0.0, y)]. *)
Definition copysign_zero (y : float) : float :=
  match Prim2SF y with
  | S754_zero true | S754_infinity true | S754_finite true _ _ => neg_zero
  | _ => zero
  end.

(** C's [fmod]: the exact remainder of [x / w] truncated towards zero,
    with the sign of [x]. *)
Definition fmod (x w : float) : float :=
  match Prim2SF w with
  | S754_nan => nan
  | S754_zero _ => nan
  | S754_infinity _ =>
      match Prim2SF x with
      | S754_nan | S754_infinity _ => nan
      | _ => x
      end
  | S754_finite _ mw ew =>
      match Prim2SF x with
      | S754_nan | S754_infinity _ => nan
      | S754_zero _ => x
      | S754_finite sx mx ex =>
          let e := Z.min ex ew in
          match (Zpos mx * 2 ^ (ex - e)) mod (Zpos mw * 2 ^ (ew - e)) with
          | Zpos p => SF2Prim (S754_finite sx p e)
          | _ => if sx then neg_zero else zero
          end
      end
  end.

(** C's [floor]. *)
Definition floor (d : float) : float :=
  match Prim2SF d with
  | S754_finite s m e =>
      if 0 <=? e then d
      else if s then float_of_Z (- ((Zpos m + 2 ^ (- e) - 1) / 2 ^ (- e)))
      else float_of_Z (Zpos m / 2 ^ (- e))
  | _ => d
  end.

(** The truth value of a float in C: different from zero. *)
Definition nonzero (x : float) : bool := negb (x =? 0)%float.

(** [vx // wx] on floats, as the interpreter computes it; [wx] is not
    zero here. *)
Definition float_floor_div (vx wx : float) : float :=
  let mod_ := fmod vx wx in
  let div := ((vx - mod_) / wx)%float in
  let div :=
    if nonzero mod_ && xorb (wx <? 0)%float (mod_ <? 0)%float
    then (div - 1)%float else div in
  if nonzero div then
    let floordiv := floor div in
    if (0.5 <? div - floordiv)%float then (floordiv + 1)%float else floordiv
  else copysign_zero (vx / wx)%float.

(** [vx % wx] on floats; [wx] is not zero here. *)
Definition float_rem (vx wx : float) : float :=
  let mod_ := fmod vx wx in
  if nonzero mod_ then
    if xorb (wx <? 0)%float (mod_ <? 0)%float then (mod_ + wx)%float else mod_
  else copysign_zero wx.

(** [int(x)] on a float: truncation towards zero. *)
Definition int_of_float (x : float) : result Z :=
  match Prim2SF x with
  | S754_nan => Raise ValueError
  | S754_infinity _ => Raise OverflowError
  | S754_zero _ => Ok 0
  | S754_finite s m e =>
      let a := if 0 <=? e then Zpos m * 2 ^ e else Zpos m / 2 ^ (- e) in
      Ok (if s then - a else a)
  end.

(** [a // c], [a % c] and [int(a)] for a number and an int constant;
    [None] has none of them. *)
Definition floordiv (a : number) (c : Z) : result number :=
  match a with
  | Int z => Ok (Int (z / c))
  | Float x => Ok (Float (float_floor_div x (float_of_Z c)))
  | NoNumber => Raise TypeError
  end.

Definition modulo (a : number) (c : Z) : result number :=
  match a with
  | Int z => Ok (Int (z mod c))
  | Float x => Ok (Float (float_rem x (float_of_Z c)))
  | NoNumber => Raise TypeError
  end.

Definition int_of_number (a : number) : result Z :=
  match a with
  | Int z => Ok z
  | Float x => int_of_float x
  | NoNumber => Raise TypeError
  end.

(** ** Time codec *)

(** [h, m, s = map(int, time_str.split(':'))].  Whether a conversion or
    the unpacking fails first, the exception is a [ValueError]. *)
Definition time_to_seconds (time_str : str) : result Z :=
  match split_on ":" time_str with
  | [th; tm; ts] =>
      h <- int_of_str th ;;
      m <- int_of_str tm ;;
      s <- int_of_str ts ;;
      Ok (h * 3600 + m * 60 + s)
  | _ => Raise ValueError
  end.

Definition seconds_to_time (seconds : number) : result str :=
  h <- floordiv seconds 3600 ;;
  r <- modulo seconds 3600 ;;
  m <- floordiv r 60 ;;
  s <- modulo seconds 60 ;;
  ih <- int_of_number h ;;
  th <- format_02 ih ;;
  im <- int_of_number m ;;
  tm <- format_02 im ;;
  iss <- int_of_number s ;;
  ts <- format_02 iss ;;
  Ok (th ++ ":"%char :: tm ++ ":"%char :: ts).

(** ** Annotation loader *)

(** A raw annotation: [{'time': ..., 'description': ...}].  These dicts
    are never mutated, so they are plain values; the time comes from
    [time_to_seconds] and is an int. *)
Record marker : Type := Marker { time : Z; label : str }.

(** The contents of an interval dict,
    [{'start': ..., 'end': ..., 'description': ...}]. *)
Record interval : Type :=
  Interval { start : number; end_ : number; description : str }.

(** Iterating over a file opened in text mode: a line ends at ["\n"],
    ["\r"] or ["\r\n"], each handed over as ["\n"]; a last line without
    terminator is handed over as it is. *)
Definition LF : ascii := ascii_of_N 10.
Definition CR : ascii := ascii_of_N 13.

Fixpoint file_lines_from (cur : str) (s : str) : list str :=
  match s with
  | [] => flush cur
  | c :: r =>
      if ascii_eqb c CR then
        match r with
        | c' :: r' =>
            if ascii_eqb c' LF then rev (LF :: cur) :: file_lines_from [] r'
            else rev (LF :: cur) :: file_lines_from [] r
        | [] => [rev (LF :: cur)]
        end
      else if ascii_eqb c LF then rev (LF :: cur) :: file_lines_from [] r
      else file_lines_from (c :: cur) r
  end.

Definition file_lines (content : str) : list str := file_lines_from [] content.

(** The body of the reading loop (lines 48-57) on the list built so far.
    Only [ValueError] is caught; any other exception leaves the loop. *)
Definition read_line (annotations : list marker) (line : str)
  : result (list marker) :=
  let parts := split_ws (strip line) in
  if negb (length parts =? 3)%nat then Ok annotations
  else
    match (t <- getitem parts 1 ;;
           onset <- time_to_seconds t ;;
           description <- getitem parts 2 ;;
           Ok (annotations ++ [Marker onset description])) with
    | Raise ValueError => Ok annotations
    | r => r
    end.

Fixpoint read_lines (annotations : list marker) (lines : list str)
  : result (list marker) :=
  match lines with
  | [] => Ok annotations
  | line :: rest =>
      annotations' <- read_line annotations line ;;
      read_lines annotations' rest
  end.

Definition read_annotations (lines : list str) : result (list marker) :=
  read_lines [] lines.

(** [range(start, stop, step)] for a positive step. *)
Definition py_range (start stop step : Z) : list Z :=
  map (fun k => start + Z.of_nat k * step)
      (seq 0 (Z.to_nat ((stop - start + step - 1) / step))).

Definition str_eqb (a b : str) : bool := bool_decide (a = b).

(** The body of the pairing loop (lines 62-71).  The three tests are
    joined by [and], so the last characters are looked at only when the
    tests before them hold. *)
Definition pair_step (annotations : list marker) (intervals : list interval)
    (i : Z) : result (list interval) :=
  if i + 1 <? Z.of_nat (length annotations) then
    start_annotation <- getitem annotations i ;;
    end_annotation <- getitem annotations (i + 1) ;;
    if str_eqb (but_last (label start_annotation))
               (but_last (label end_annotation)) then
      c1 <- last_char (label start_annotation) ;;
      if ascii_eqb c1 "1" then
        c2 <- last_char (label end_annotation) ;;
        if ascii_eqb c2 "2" then
          Ok (intervals ++
                [Interval (Int (time start_annotation))
                          (Int (time end_annotation))
                          (but_last (label start_annotation))])
        else Ok intervals
      else Ok intervals
    else Ok intervals
  else Ok intervals.

Fixpoint pair_loop (annotations : list marker) (intervals : list interval)
    (indices : list Z) : result (list interval) :=
  match indices with
  | [] => Ok intervals
  | i :: rest =>
      intervals' <- pair_step annotations intervals i ;;
      pair_loop annotations intervals' rest
  end.

(** Lines 60-71: [for i in range(0, len(annotations) - 1, 2)]. *)
Definition make_intervals (annotations : list marker) : result (list interval) :=
  pair_loop annotations []
    (py_range 0 (Z.of_nat (length annotations) - 1) 2).

(** Lines 44-71 on the text of the annotation file. *)
Definition load_annotations (content : str) : result (list interval) :=
  annotations <- read_annotations (file_lines content) ;;
  make_intervals annotations.

(** Writing a number in the [repr] of a dict, for [print] and for
    [json.dump]: the text is not kept, only whether the conversion
    raises.  The text of a float and of [None] is always produced. *)
Definition repr_number (n : number) : result unit :=
  match n with
  | Int z => check_digits z
  | Float _ | NoNumber => Ok tt
  end.

Definition repr_interval (iv : interval) : result unit :=
  _ <- repr_number (start iv) ;; repr_number (end_ iv).

(** [f"{intervals}"] and [json.dump(intervals, ...)]: every dict in
    order. *)
Definition repr_intervals (ivs : list interval) : result unit :=
  _ <- collect (map repr_interval ivs) ;; Ok tt.

(** One entry of the display list,
    [f"{i + 1}: {seconds_to_time(start)} - {seconds_to_time(end)} ({description})"]. *)
Definition choice_entry (i : nat) (iv : interval) : result str :=
  pos <- str_of_Z (Z.of_nat i + 1) ;;
  t1 <- seconds_to_time (start iv) ;;
  t2 <- seconds_to_time (end_ iv) ;;
  Ok (pos ++ $": " ++ t1 ++ $" - " ++ t2 ++ $" (" ++ description iv ++ $")").

(** The display list comprehension over [enumerate(intervals)]. *)
Definition entries (ivs : list interval) : result (list str) :=
  collect (imap choice_entry ivs).

(** What [load_edf_with_annotations] returns for the annotation file:
    the intervals, the display list and the error.  After the pairing the
    function prints the intervals (line 73) and builds the display list;
    the handler of line 79 turns any exception into empty outputs. *)
Record loaded : Type :=
  Loaded { intervals : list interval; interval_choices : list str;
           error : option exn }.

Definition load_edf_with_annotations (content : str) : loaded :=
  match (ivs <- load_annotations content ;;
         _ <- repr_intervals ivs ;;
         interval_choices <- entries ivs ;;
         Ok (ivs, interval_choices)) with
  | Ok (ivs, interval_choices) => Loaded ivs interval_choices None
  | Raise e => Loaded [] [] (Some e)
  end.

(** ** Interval store *)

(** Interval dicts are shared and mutated in place: a list of intervals is
    a list of locations into a heap of dict contents.  [next] is the
    first location not yet handed out. *)
Definition loc := nat.

Record heap : Type := Heap { cells : loc -> interval; next : loc }.

Definition store (h : heap) (r : loc) (v : interval) : heap :=
  Heap (fun r' => if decide (r' = r) then v else cells h r') (next h).

(** A dict display [{...}] creates a new object. *)
Definition alloc (v : interval) (h : heap) : loc * heap :=
  (next h, Heap (fun r' => if decide (r' = next h) then v else cells h r')
                (S (next h))).

(** [interval['start'] = v] and so on. *)
Definition set_start (h : heap) (r : loc) (v : number) : heap :=
  store h r (Interval v (end_ (cells h r)) (description (cells h r))).
Definition set_end (h : heap) (r : loc) (v : number) : heap :=
  store h r (Interval (start (cells h r)) v (description (cells h r))).
Definition set_description (h : heap) (r : loc) (v : str) : heap :=
  store h r (Interval (start (cells h r)) (end_ (cells h r)) v).

(** The contents of the dicts of a list, in order. *)
Definition values (h : heap) (l : list loc) : list interval := map (cells h) l.

(** The display list comprehension over [enumerate(all_intervals)]. *)
Definition choices (h : heap) (all_intervals : list loc) : result (list str) :=
  entries (values h all_intervals).

(** [markup_intervals.append({...}); return markup_intervals] *)
Definition add_markup (start_time end_time : number) (label : str)
    (markup_intervals : list loc) (h : heap) : list loc * heap :=
  let '(r, h') := alloc (Interval start_time end_time label) h in
  (markup_intervals ++ [r], h').

(** [int(selected_interval.split(":")[0]) - 1] *)
Definition selected_index (selected_interval : str) : result Z :=
  tok <- getitem (split_on ":" selected_interval) 0 ;;
  n <- int_of_str tok ;;
  Ok (n - 1).

(** The concatenation is a new list holding the same dicts; the three
    assignments change the dict that sits at [index], wherever else it is
    referenced.  They are done when the display list is built, so an
    exception raised there leaves them in place. *)
Definition edit_markup (selected_interval : str) (start_time end_time : number)
    (label : str) (existing_intervals markup_intervals : list loc) (h : heap)
  : result (list loc * list str) * heap :=
  let all_intervals := existing_intervals ++ markup_intervals in
  match (index <- selected_index selected_interval ;;
         getitem all_intervals index) with
  | Raise e => (Raise e, h)
  | Ok interval =>
      let h1 := set_start h interval start_time in
      let h2 := set_end h1 interval end_time in
      let h3 := set_description h2 interval label in
      (interval_choices <- choices h3 all_intervals ;;
       Ok (all_intervals, interval_choices), h3)
  end.

(** [del all_intervals[index]] takes one position out of the new list; no
    dict is changed. *)
Definition delete_markup (selected_interval : str)
    (existing_intervals markup_intervals : list loc) (h : heap)
  : result (list loc * list str) :=
  let all_intervals := existing_intervals ++ markup_intervals in
  index <- selected_index selected_interval ;;
  k <- norm_index (length all_intervals) index ;;
  let all_intervals' := delete k all_intervals in
  interval_choices <- choices h all_intervals' ;;
  Ok (all_intervals', interval_choices).

(** ** Persistence *)

(** The two lines written for the interval at position [i]. *)
Definition txt_lines (i : nat) (iv : interval) : result str :=
  start_time <- seconds_to_time (start iv) ;;
  end_time <- seconds_to_time (end_ iv) ;;
  pos1 <- str_of_Z (Z.of_nat i + 1) ;;
  pos2 <- str_of_Z (Z.of_nat i + 1) ;;
  Ok ((pos1 ++ $"  " ++ start_time ++ $"  " ++ description iv ++ $"1" ++ [LF])
      ++ (pos2 ++ $"  " ++ end_time ++ $"    " ++ description iv ++ $"2"
            ++ [LF])).

(** The text written to [filename_txt] when the function returns.  The
    JSON file is written first, from the same list; it is not read back
    by the program and only its conversions, which may raise, are kept. *)
Definition save_markup_to_file (markup_intervals existing_intervals : list loc)
    (h : heap) : result str :=
  let all_intervals := existing_intervals ++ markup_intervals in
  _ <- repr_intervals (values h all_intervals) ;;
  written <- collect (imap txt_lines (values h all_intervals)) ;;
  Ok (concat written).

(** ** Renderer *)

(** [c.lower()] on one character: among the code points below 256 the
    capital letters are those of ASCII and of Latin-1 (the multiplication
    sign between them is not one). *)
Definition lower_char (c : ascii) : ascii :=
  let n := ord c in
  if ((65 <=? n) && (n <=? 90)
      || (192 <=? n) && (n <=? 222) && negb (n =? 215))%N
  then ascii_of_N (n + 32) else c.

(** [s.lower()] *)
Definition lower (s : str) : str := map lower_char s.

(** The dict of line 100. *)
Definition phase_colors : gmap str str :=
  <[ $"swd" := $"rgba(255, 0, 0, 0.7)" ]>
    (<[ $"is" := $"rgba(0, 255, 0, 0.7)" ]>
       (<[ $"ds" := $"rgba(0, 0, 255, 0.7)" ]> ∅)).

(** The default of the lookup of line 109. *)
Definition default_color : str := $"rgba(0, 0, 0, 0)".

(** The fill colour [plot_signal] gives to the rectangle of an interval
    (lines 108-109): [phase_colors.get(description.lower(), default)]. *)
Definition interval_color (iv : interval) : str :=
  let description_lower := lower (description iv) in
  default default_color (phase_colors !! description_lower).

(** ** Handlers *)

(** The function chained after [add_markup] (lines 230-233): the
    concatenation and its display list. *)
Definition refresh (existing_intervals markup_intervals : list loc) (h : heap)
  : result (list loc * list str) :=
  interval_choices <- choices h (existing_intervals ++ markup_intervals) ;;
  Ok (existing_intervals ++ markup_intervals, interval_choices).

(** What the buttons run.  Every [inputs=] list of lines 225-265 names the
    one stored list, [annotations_output], for both list parameters, and
    the list returned is stored back in it.  [annotations] is that stored
    list.  A step that raises stores nothing.

    The Add button runs [add_markup], which stores its list, and then the
    chained function, which stores the concatenation and the display list.
    The result is the list stored when the click is over, the display
    list or the exception of the chained function, and the heap. *)
Definition add_click (start_time end_time : number) (label : str)
    (annotations : list loc) (h : heap)
  : list loc * result (list str) * heap :=
  let '(annotations', h') := add_markup start_time end_time label annotations h in
  match refresh annotations' annotations' h' with
  | Ok (stored, interval_choices) => (stored, Ok interval_choices, h')
  | Raise e => (annotations', Raise e, h')
  end.

(** A run of clicks on the Add button, each with its start, end and label,
    every click working on the list stored by the one before. *)
Fixpoint add_clicks (inputs : list (number * number * str))
    (annotations : list loc) (h : heap) : list loc * heap :=
  match inputs with
  | [] => (annotations, h)
  | (start_time, end_time, label) :: rest =>
      let '(stored, _, h') := add_click start_time end_time label annotations h in
      add_clicks rest stored h'
  end.

(** The Edit, Delete and Save buttons run one function each: the result
    is what is stored, or the exception after which the stored list is
    the one before. *)
Definition edit_click (selected_interval : str) (start_time end_time : number)
    (label : str) (annotations : list loc) (h : heap)
  : result (list loc * list str) * heap :=
  edit_markup selected_interval start_time end_time label
              annotations annotations h.

Definition delete_click (selected_interval : str) (annotations : list loc)
    (h : heap) : result (list loc * list str) :=
  delete_markup selected_interval annotations annotations h.

Definition save_click (annotations : list loc) (h : heap) : result str :=
  save_markup_to_file annotations annotations h.

(** * Vocabulary of the statements *)

(** A decimal digit. *)
Definition is_digit (c : ascii) : bool :=
  match digit_val c with Some _ => true | None => false end.

(** The characters the program itself writes around a description: digits,
    the minus sign and the colon. *)
Definition is_time_char (c : ascii) : bool :=
  is_digit c || ascii_eqb c "-" || ascii_eqb c ":".

(** The first integer with more than [max_str_digits] digits, and the
    integers below it in absolute value: those that can be written. *)
Definition limit : Z := 10 ^ Z.of_nat max_str_digits.

Definition short (z : Z) : Prop := Z.abs z < limit.

(** The text of a number of seconds, when it can be written. *)
Definition time_text (z : Z) : str :=
  padded_02 (z / 3600) ++ ":"%char :: padded_02 ((z mod 3600) / 60)
    ++ ":"%char :: padded_02 (z mod 60).

(** [sep.join(toks)] *)
Fixpoint join (sep : ascii) (toks : list str) : str :=
  match toks with
  | [] => []
  | [t] => t
  | t :: ts => t ++ sep :: join sep ts
  end.

(** Integer literals, in the words of the language reference: blanks, an
    optional sign, then decimal digits in which single underscores may
    separate two digits, then blanks.  [literal_body body ds] reads the
    digits [ds] off the text [body]. *)
Definition decimal_digit (c : ascii) (d : Z) : Prop :=
  (c, d) ∈ [("0"%char, 0); ("1"%char, 1); ("2"%char, 2); ("3"%char, 3);
            ("4"%char, 4); ("5"%char, 5); ("6"%char, 6); ("7"%char, 7);
            ("8"%char, 8); ("9"%char, 9)].

(** Tab, line feed, vertical tab, form feed, carriage return, space, next
    line and no-break space. *)
Definition blank (c : ascii) : Prop :=
  ord c ∈ [9; 10; 11; 12; 13; 32; 133; 160]%N.

Inductive literal_body : str -> list Z -> Prop :=
| body_digit c d : decimal_digit c d -> literal_body [c] [d]
| body_more c d s ds :
    decimal_digit c d -> literal_body s ds -> literal_body (c :: s) (d :: ds)
| body_underscore c d s ds :
    decimal_digit c d -> literal_body s ds ->
    literal_body (c :: "_"%char :: s) (d :: ds).

(** The number written by a list of digits. *)
Definition digits_value (ds : list Z) : Z :=
  fold_left (fun acc d => 10 * acc + d) ds 0.

(** [t] is an integer literal of [k] digits that denotes [v]. *)
Definition int_literal (t : str) (v : Z) (k : nat) : Prop :=
  exists lead sign body trail ds,
    t = lead ++ sign ++ body ++ trail
    /\ Forall blank lead /\ Forall blank trail
    /\ literal_body body ds /\ length ds = k
    /\ ((sign = [] \/ sign = ["+"%char]) /\ v = digits_value ds
        \/ sign = ["-"%char] /\ v = - digits_value ds).

(** The string is three colon-free tokens joined by colons, each an
    integer literal; in [three_short_int_tokens] each has at most
    [max_str_digits] digits. *)
Definition three_int_tokens (text : str) (h m s : Z) : Prop :=
  exists th tm ts kh km ks,
    text = th ++ ":"%char :: tm ++ ":"%char :: ts
    /\ (":"%char ∉ th) /\ (":"%char ∉ tm) /\ (":"%char ∉ ts)
    /\ int_literal th h kh /\ int_literal tm m km /\ int_literal ts s ks.

Definition three_short_int_tokens (text : str) (h m s : Z) : Prop :=
  exists th tm ts kh km ks,
    text = th ++ ":"%char :: tm ++ ":"%char :: ts
    /\ (":"%char ∉ th) /\ (":"%char ∉ tm) /\ (":"%char ∉ ts)
    /\ int_literal th h kh /\ int_literal tm m km /\ int_literal ts s ks
    /\ (kh <= max_str_digits)%nat /\ (km <= max_str_digits)%nat
    /\ (ks <= max_str_digits)%nat.

(** [line.strip().split()] *)
Definition tokens (line : str) : list str := split_ws (strip line).

(** The part of a display entry that follows its position and the colon
    after it. *)
Definition entry_rest (iv : interval) : result str :=
  t1 <- seconds_to_time (start iv) ;;
  t2 <- seconds_to_time (end_ iv) ;;
  Ok ($" " ++ t1 ++ $" - " ++ t2 ++ $" (" ++ description iv ++ $")").

(** The marker list read from a sequence of lines, in the words of the
    policy: a line with three tokens whose time token the codec accepts
    gives one marker; a line with another number of tokens, or with a time
    token the codec rejects, gives none. *)
Inductive parsed : list str -> list marker -> Prop :=
| parsed_nil : parsed [] []
| parsed_valid line idx tm lab t rest ms :
    tokens line = [idx; tm; lab] -> time_to_seconds tm = Ok t ->
    parsed rest ms -> parsed (line :: rest) (Marker t lab :: ms)
| parsed_skip_count line rest ms :
    length (tokens line) <> 3%nat ->
    parsed rest ms -> parsed (line :: rest) ms
| parsed_skip_time line idx tm lab e rest ms :
    tokens line = [idx; tm; lab] -> time_to_seconds tm = Raise e ->
    parsed rest ms -> parsed (line :: rest) ms.

(** What one line adds, as a function. *)
Definition line_markers (line : str) : list marker :=
  match tokens line with
  | [_; tm; lab] =>
      match time_to_seconds tm with
      | Ok t => [Marker t lab]
      | Raise _ => []
      end
  | _ => []
  end.

(** The first label is [base] followed by ['1'] and the second is [base]
    followed by ['2']. *)
Definition open_close (a b : marker) (base : str) : Prop :=
  label a = base ++ ["1"%char] /\ label b = base ++ ["2"%char].

(** The interval list obtained by walking the markers two at a time, in
    the words of the pairing rule. *)
Inductive paired : list marker -> list interval -> Prop :=
| paired_nil : paired [] []
| paired_single m : paired [m] []
| paired_emit a b base rest ivs :
    open_close a b base -> paired rest ivs ->
    paired (a :: b :: rest) (Interval (Int (time a)) (Int (time b)) base :: ivs)
| paired_drop a b rest ivs :
    (forall base, ~ open_close a b base) -> paired rest ivs ->
    paired (a :: b :: rest) ivs.

(** The same walk as a function. *)
Definition pair_of (a b : marker) : list interval :=
  match last (label a), last (label b) with
  | Some c1, Some c2 =>
      if str_eqb (but_last (label a)) (but_last (label b))
         && ascii_eqb c1 "1" && ascii_eqb c2 "2"
      then [Interval (Int (time a)) (Int (time b)) (but_last (label a))]
      else []
  | _, _ => []
  end.

Fixpoint pair_up (ms : list marker) : list interval :=
  match ms with
  | a :: b :: rest => pair_of a b ++ pair_up rest
  | _ => []
  end.

(** The [n] even numbers from [2 * j] on; the pairing loop visits
    [evens 0 (len / 2)]. *)
Definition evens (j n : nat) : list Z :=
  map (fun k => 2 * Z.of_nat k) (seq j n).

(** A character that does not end a line of a text file. *)
Definition line_char (c : ascii) : Prop := c <> CR /\ c <> LF.

(** No character of [s] is whitespace. *)
Definition no_space (s : str) : Prop := Forall (fun c => isspace c = false) s.

Definition spaces (k : nat) : str := replicate k " "%char.

(** An interval whose start and end are ints. *)
Record plain : Type := Plain { t_start : Z; t_end : Z; t_label : str }.

Definition interval_of (p : plain) : interval :=
  Interval (Int (t_start p)) (Int (t_end p)) (t_label p).

(** An interval that [save_markup_to_file] can write and the loader can
    read back as it is: start and end are ints of at most
    [max_str_digits] digits and the description holds no whitespace. *)
Definition savable (iv : interval) : Prop :=
  exists a b, start iv = Int a /\ end_ iv = Int b /\ short a /\ short b
              /\ no_space (description iv).

(** The same on the plain form. *)
Definition writable (p : plain) : Prop :=
  short (t_start p) /\ short (t_end p) /\ no_space (t_label p).

(** The two lines written for an interval, without their terminators, and
    the two markers they are read back as. *)
Definition txt_bodies (i : nat) (p : plain) : list str :=
  [decimal (Z.of_nat i + 1) ++ spaces 2 ++ time_text (t_start p)
     ++ spaces 2 ++ t_label p ++ ["1"%char];
   decimal (Z.of_nat i + 1) ++ spaces 2 ++ time_text (t_end p)
     ++ spaces 4 ++ t_label p ++ ["2"%char]].

Definition txt_text (i : nat) (p : plain) : str :=
  (decimal (Z.of_nat i + 1) ++ $"  " ++ time_text (t_start p) ++ $"  "
     ++ t_label p ++ $"1" ++ [LF])
  ++ (decimal (Z.of_nat i + 1) ++ $"  " ++ time_text (t_end p) ++ $"    "
        ++ t_label p ++ $"2" ++ [LF]).

Definition txt_markers (p : plain) : list marker :=
  [Marker (t_start p) (t_label p ++ ["1"%char]);
   Marker (t_end p) (t_label p ++ ["2"%char])].

(** Each line followed by its line feed. *)
Definition terminated (bodies : list str) : list str :=
  map (fun b => b ++ [LF]) bodies.

(** The text in which every line is followed by the terminator [term]. *)
Definition ended (term : str) (bodies : list str) : str :=
  concat (map (fun b => b ++ term) bodies).

(** A heap for the sample runs: location 0 holds an [swd] interval and
    every other location a [ds] interval. *)
Definition heap_swd_ds : heap :=
  Heap (fun r => if decide (r = 0%nat) then Interval (Int 5) (Int 9) $"swd"
                 else Interval (Int 12) (Int 20) $"ds") 2%nat.


(** A heap whose intervals have a blank in their description, one whose
    intervals start at a float that is no integer, and one whose
    intervals start at the first int too long to be written. *)
Definition heap_a_b : heap :=
  Heap (fun _ => Interval (Int 5) (Int 9) $"a b") 1%nat.

Definition heap_float : heap :=
  Heap (fun _ => Interval (Float 5.5) (Int 9) $"swd") 1%nat.

Definition heap_long : heap :=
  Heap (fun _ => Interval (Int limit) (Int 9) $"swd") 1%nat.

(** The value of a number on the extended line, as [m * 2 ^ e] when it is
    finite. *)
Inductive extended : Type :=
| Finite (m e : Z)
| PlusInfinity
| MinusInfinity
| NotANumber.

Definition extended_of (n : number) : extended :=
  match n with
  | Int z => Finite z 0
  | Float x =>
      match Prim2SF x with
      | S754_zero _ => Finite 0 0
      | S754_finite s m e => Finite (if s then Zneg m else Zpos m) e
      | S754_infinity s => if s then MinusInfinity else PlusInfinity
      | S754_nan => NotANumber
      end
  | NoNumber => NotANumber
  end.

(** [a <= b] between two numbers: the comparison of their values, which
    does not hold when one of them is a NaN or [None]. *)
Definition num_le (a b : number) : Prop :=
  match extended_of a, extended_of b with
  | NotANumber, _ | _, NotANumber => False
  | Finite m1 e1, Finite m2 e2 =>
      m1 * 2 ^ (e1 - Z.min e1 e2) <= m2 * 2 ^ (e2 - Z.min e1 e2)
  | MinusInfinity, _ => True
  | _, PlusInfinity => True
  | _, _ => False
  end.

(** The order asked of an interval. *)
Definition ordered (iv : interval) : Prop := num_le (start iv) (end_ iv).


(** Every click of a run on the Add button got its display list. *)
Fixpoint all_displayed (inputs : list (number * number * str))
    (annotations : list loc) (h : heap) : Prop :=
  match inputs with
  | [] => True
  | (start_time, end_time, label) :: rest =>
      let '(stored, shown, h') :=
        add_click start_time end_time label annotations h in
      (exists interval_choices, shown = Ok interval_choices)
      /\ all_displayed rest stored h'
  end.
(** * Properties *)

(** ** Characters and decimal text *)

Lemma ascii_eqb_eq a b : ascii_eqb a b = true <-> a = b.
Proof. apply Ascii.eqb_eq. Qed.

Lemma ascii_eqb_neq a b : ascii_eqb a b = false <-> a <> b.
Proof. apply Ascii.eqb_neq. Qed.

Ltac each_char c :=
  destruct c as [[] [] [] [] [] [] [] []]; vm_compute; try discriminate;
  try reflexivity.

Lemma is_digit_not_space c : is_digit c = true -> isspace c = false.
Proof. each_char c. Qed.

Lemma is_digit_not_int_space c : is_digit c = true -> int_space c = false.
Proof. each_char c. Qed.

Lemma is_digit_not_colon c : is_digit c = true -> ascii_eqb c ":" = false.
Proof. each_char c. Qed.

Lemma is_digit_not_sign c :
  is_digit c = true -> ascii_eqb c "-" = false /\ ascii_eqb c "+" = false.
Proof. each_char c; intros; split; reflexivity. Qed.

Lemma is_time_char_not_space c : is_time_char c = true -> isspace c = false.
Proof. each_char c. Qed.

Lemma isspace_newline c :
  ascii_eqb c CR = true \/ ascii_eqb c LF = true -> isspace c = true.
Proof. each_char c; intros [?|?]; discriminate. Qed.

Lemma digit_val_char d : 0 <= d < 10 -> digit_val (digit_char d) = Some d.
Proof.
  intros Hd.
  assert (d = 0 \/ d = 1 \/ d = 2 \/ d = 3 \/ d = 4 \/ d = 5 \/ d = 6
          \/ d = 7 \/ d = 8 \/ d = 9) as Hcases by lia.
  repeat (destruct Hcases as [-> | Hcases]; [reflexivity|]).
  subst d. reflexivity.
Qed.

Lemma is_digit_char d : 0 <= d < 10 -> is_digit (digit_char d) = true.
Proof. intros Hd. unfold is_digit. now rewrite digit_val_char. Qed.

Lemma digits_fuel_digit f : forall n acc,
  0 <= n -> Forall (fun c => is_digit c = true) acc ->
  Forall (fun c => is_digit c = true) (digits_fuel f n acc).
Proof.
  induction f as [|f IH]; intros n acc Hn Hacc; simpl; [done|].
  assert (is_digit (digit_char (n mod 10)) = true) as Hd
    by (apply is_digit_char, Z.mod_pos_bound; lia).
  destruct (n <? 10); [by constructor|].
  apply IH; [apply Z.div_pos; lia | by constructor].
Qed.

Lemma digits_fuel_length f : forall n acc,
  (length acc <= length (digits_fuel f n acc))%nat.
Proof.
  induction f as [|f IH]; intros n acc; simpl; [lia|].
  destruct (n <? 10); simpl; [lia|].
  etrans; [|apply IH]. simpl; lia.
Qed.

Lemma digits_digit n : 0 <= n -> Forall (fun c => is_digit c = true) (digits n).
Proof. intros Hn. now apply digits_fuel_digit. Qed.

Lemma digits_nonempty n : (1 <= length (digits n))%nat.
Proof.
  unfold digits. simpl. destruct (n <? 10); simpl; [lia|].
  etrans; [|apply digits_fuel_length]. simpl; lia.
Qed.

Lemma digits_fuel_S f n acc :
  digits_fuel (S f) n acc
  = if n <? 10 then digit_char (n mod 10) :: acc
    else digits_fuel f (n / 10) (digit_char (n mod 10) :: acc).
Proof. reflexivity. Qed.

(** Reading back the digits written by [digits_fuel], given enough fuel. *)
Lemma digits_acc_fuel f : forall n rest b,
  0 <= n < 2 ^ (Z.of_nat f + 1) ->
  digits_acc 0 b (digits_fuel (S f) n rest) = digits_acc n true rest.
Proof.
  induction f as [|f IH]; intros n rest b Hn.
  - change (2 ^ (Z.of_nat 0 + 1)) with 2 in Hn.
    rewrite digits_fuel_S. destruct (n <? 10) eqn:Hlt; [|lia].
    cbn [digits_acc]. rewrite digit_val_char by (apply Z.mod_pos_bound; lia).
    rewrite Z.mod_small by lia. f_equal.
  - rewrite digits_fuel_S. destruct (n <? 10) eqn:Hlt.
    + cbn [digits_acc]. rewrite digit_val_char by (apply Z.mod_pos_bound; lia).
      rewrite Z.mod_small by lia. f_equal.
    + rewrite IH.
      * cbn [digits_acc]. rewrite digit_val_char by (apply Z.mod_pos_bound; lia).
        f_equal. pose proof (Z.div_mod n 10). lia.
      * replace (Z.of_nat (S f) + 1) with (Z.succ (Z.of_nat f + 1)) in Hn by lia.
        rewrite Z.pow_succ_r in Hn by lia.
        split; [apply Z.div_pos; lia|].
        apply Z.div_lt_upper_bound; lia.
Qed.

Lemma digits_acc_digits n rest b :
  0 <= n -> digits_acc 0 b (digits n ++ rest) = digits_acc n true rest.
Proof.
  intros Hn. unfold digits.
  assert (forall f m acc, digits_fuel f m acc = digits_fuel f m [] ++ acc) as Happ.
  { induction f as [|f IH]; intros m acc; simpl; [done|].
    destruct (m <? 10); [done|].
    rewrite IH, (IH _ [_]). now rewrite <- app_assoc. }
  rewrite <- Happ. apply digits_acc_fuel. split; [done|].
  destruct (Z.eq_dec n 0) as [->|Hne]; [reflexivity|].
  rewrite Z2Nat.id by apply Z.log2_nonneg.
  replace (Z.log2 n + 1) with (Z.succ (Z.log2 n)) by lia.
  apply Z.log2_spec. lia.
Qed.

Lemma digits_acc_zeros k : forall b rest,
  digits_acc 0 b (replicate k "0"%char ++ rest)
  = digits_acc 0 (b || negb (k =? 0)%nat) rest.
Proof.
  induction k as [|k IH]; intros b rest; simpl.
  - now rewrite orb_false_r.
  - change (digit_val "0") with (Some 0). simpl. rewrite IH.
    simpl. now rewrite orb_true_r.
Qed.

Lemma drop_while_id p c s : p c = false -> drop_while p (c :: s) = c :: s.
Proof. intros H. simpl. now rewrite H. Qed.

Lemma strip_with_id p s :
  Forall (fun c => p c = false) s -> strip_with p s = s.
Proof.
  intros H. unfold strip_with.
  assert (forall t, Forall (fun c => p c = false) t -> drop_while p t = t) as Hid.
  { intros [|c t] Ht; [done|]. inversion Ht; subst. now apply drop_while_id. }
  rewrite (Hid s H), Hid, rev_involutive; [done|].
  apply Forall_forall. intros c Hc. rewrite Forall_forall in H.
  apply H. now apply list_elem_of_In, in_rev, list_elem_of_In.
Qed.

Lemma padded_02_chars z :
  Forall (fun c => is_digit c = true \/ c = "-"%char) (padded_02 z).
Proof.
  unfold padded_02. repeat apply Forall_app_2.
  - destruct (z <? 0); [|constructor]. constructor; [now right|constructor].
  - apply Forall_forall. intros c Hc. apply elem_of_replicate in Hc as [-> _].
    now left.
  - eapply Forall_impl; [apply digits_digit; lia|]. intros c Hc. now left.
Qed.

Lemma decimal_chars z :
  Forall (fun c => is_digit c = true \/ c = "-"%char) (decimal z).
Proof.
  unfold decimal. destruct (z <? 0) eqn:Hz.
  - constructor; [now right|].
    eapply Forall_impl; [apply digits_digit; lia|]. intros c Hc. now left.
  - eapply Forall_impl; [apply digits_digit; lia|]. intros c Hc. now left.
Qed.

Lemma sign_digit_not_int_space c :
  is_digit c = true \/ c = "-"%char -> int_space c = false.
Proof. intros [H| ->]; [now apply is_digit_not_int_space | reflexivity]. Qed.

Lemma sign_digit_not_colon c :
  is_digit c = true \/ c = "-"%char -> c <> ":"%char.
Proof.
  intros [H| ->]; [|discriminate].
  apply ascii_eqb_neq. now apply is_digit_not_colon.
Qed.

Lemma sign_digit_time_char c :
  is_digit c = true \/ c = "-"%char -> is_time_char c = true.
Proof. intros [H| ->]; unfold is_time_char; [now rewrite H | reflexivity]. Qed.

(** ** The limit on conversions *)

Lemma limit_pos : 0 < limit.
Proof. unfold limit. apply Z.pow_pos_nonneg; lia. Qed.

Lemma limit_large : 10000 <= limit.
Proof.
  unfold limit. change 10000 with (10 ^ 4).
  apply Z.pow_le_mono_r; unfold max_str_digits; lia.
Qed.

Lemma short_small z : Z.abs z < 10000 -> short z.
Proof. intros Hz. unfold short. pose proof limit_large. lia. Qed.

Lemma short_le a b : Z.abs a <= Z.abs b -> short b -> short a.
Proof. unfold short. lia. Qed.

Lemma digits_fuel_length_le f : forall n acc k,
  0 <= n < 10 ^ Z.of_nat (S k) ->
  (length (digits_fuel f n acc) <= length acc + S k)%nat.
Proof.
  induction f as [|f IH]; intros n acc k Hn; [simpl; lia|].
  rewrite digits_fuel_S. destruct (n <? 10) eqn:Hlt; [simpl; lia|].
  destruct k as [|k]; [change (10 ^ Z.of_nat 1) with 10 in Hn; lia|].
  etrans; [apply IH with (k := k)|simpl; lia].
  rewrite Nat2Z.inj_succ, Z.pow_succ_r in Hn by lia.
  split; [apply Z.div_pos; lia | apply Z.div_lt_upper_bound; lia].
Qed.

Lemma digits_length_le n k :
  0 <= n < 10 ^ Z.of_nat (S k) -> (length (digits n) <= S k)%nat.
Proof. intros Hn. now apply (digits_fuel_length_le _ n [] k). Qed.

Lemma digits_fuel_length_gt f : forall n acc k,
  10 ^ Z.of_nat k <= n < 2 ^ (Z.of_nat f + 1) ->
  (length acc + k < length (digits_fuel (S f) n acc))%nat.
Proof.
  induction f as [|f IH]; intros n acc k [Hk Hn].
  - change (2 ^ (Z.of_nat 0 + 1)) with 2 in Hn.
    rewrite digits_fuel_S. destruct (n <? 10) eqn:Hlt; [|lia].
    destruct k as [|k]; [simpl; lia|].
    rewrite Nat2Z.inj_succ, Z.pow_succ_r in Hk by lia.
    assert (0 < 10 ^ Z.of_nat k) by (apply Z.pow_pos_nonneg; lia). lia.
  - rewrite digits_fuel_S. destruct (n <? 10) eqn:Hlt.
    + destruct k as [|k]; [simpl; lia|].
      rewrite Nat2Z.inj_succ, Z.pow_succ_r in Hk by lia.
      assert (0 < 10 ^ Z.of_nat k) by (apply Z.pow_pos_nonneg; lia). lia.
    + destruct k as [|k].
      * pose proof (digits_fuel_length (S f) (n / 10)
                      (digit_char (n mod 10) :: acc)) as Hlen.
        cbn [length] in Hlen. lia.
      * pose proof (IH (n / 10) (digit_char (n mod 10) :: acc) k) as Hlen.
        cbn [length] in Hlen. enough (10 ^ Z.of_nat k <= n / 10 < 2 ^ (Z.of_nat f + 1)) by lia.
        rewrite Nat2Z.inj_succ, Z.pow_succ_r in Hk by lia.
        replace (Z.of_nat (S f) + 1) with (Z.succ (Z.of_nat f + 1)) in Hn by lia.
        rewrite Z.pow_succ_r in Hn by lia.
        split; [apply Z.div_le_lower_bound; lia | apply Z.div_lt_upper_bound; lia].
Qed.

Lemma digits_length_gt n k :
  10 ^ Z.of_nat k <= n -> (k < length (digits n))%nat.
Proof.
  intros Hk. unfold digits.
  assert (0 < n) by (assert (0 < 10 ^ Z.of_nat k) by (apply Z.pow_pos_nonneg; lia); lia).
  apply (digits_fuel_length_gt _ n [] k). split; [done|].
  rewrite Z2Nat.id by apply Z.log2_nonneg.
  replace (Z.log2 n + 1) with (Z.succ (Z.log2 n)) by lia.
  now apply Z.log2_spec.
Qed.

Lemma short_digits z : short z -> (length (digits (Z.abs z)) <= max_str_digits)%nat.
Proof.
  intros Hz. change max_str_digits with (S 4299).
  apply digits_length_le. split; [lia|exact Hz].
Qed.

(** Which conversions of an int to text raise. *)
Lemma check_digits_short z : short z -> check_digits z = Ok tt.
Proof.
  intros Hz. unfold check_digits.
  pose proof (short_digits z Hz) as Hlen.
  destruct (max_str_digits <? length (digits (Z.abs z)))%nat eqn:Hc; [|done].
  apply Nat.ltb_lt in Hc. lia.
Qed.

Lemma check_digits_long z : limit <= Z.abs z -> check_digits z = Raise ValueError.
Proof.
  intros Hz. unfold check_digits.
  pose proof (digits_length_gt (Z.abs z) max_str_digits Hz) as Hlen.
  apply Nat.ltb_lt in Hlen. now rewrite Hlen.
Qed.

Lemma check_digits_cases z :
  short z /\ check_digits z = Ok tt
  \/ limit <= Z.abs z /\ check_digits z = Raise ValueError.
Proof.
  destruct (Z.lt_ge_cases (Z.abs z) limit) as [H|H].
  - left. split; [done | now apply check_digits_short].
  - right. split; [done | now apply check_digits_long].
Qed.

Lemma check_digits_raise z e : check_digits z = Raise e -> e = ValueError.
Proof.
  unfold check_digits. destruct (_ <? _)%nat; [now intros [= <-] | discriminate].
Qed.

Lemma str_of_Z_short z : short z -> str_of_Z z = Ok (decimal z).
Proof. intros Hz. unfold str_of_Z. now rewrite check_digits_short. Qed.

Lemma format_02_short z : short z -> format_02 z = Ok (padded_02 z).
Proof. intros Hz. unfold format_02. now rewrite check_digits_short. Qed.

Lemma str_of_Z_ok z t : str_of_Z z = Ok t -> short z /\ t = decimal z.
Proof.
  unfold str_of_Z. destruct (check_digits_cases z) as [[Hs ->] | [_ ->]]; [|discriminate].
  cbn [bind]. now intros [= <-].
Qed.

Lemma format_02_ok z t : format_02 z = Ok t -> short z /\ t = padded_02 z.
Proof.
  unfold format_02. destruct (check_digits_cases z) as [[Hs ->] | [_ ->]]; [|discriminate].
  cbn [bind]. now intros [= <-].
Qed.

Lemma count_digits_all s :
  Forall (fun c => is_digit c = true) s -> count_digits s = length s.
Proof.
  unfold count_digits. induction 1 as [|c s Hc _ IH]; [done|].
  assert (is_Some (digit_val c)) as Hsome
    by (unfold is_digit in Hc; now destruct (digit_val c)).
  rewrite (filter_cons_True _ c s Hsome). cbn [length]. f_equal. exact IH.
Qed.

(** [int] reads back a sign, zeros and the digits of a number, as long as
    there are no more than [max_str_digits] digits in all. *)
Lemma int_of_str_written (neg : bool) (zeros : nat) n :
  0 <= n -> (zeros + length (digits n) <= max_str_digits)%nat ->
  int_of_str ((if neg then ["-"%char] else [])
                ++ replicate zeros "0"%char ++ digits n)
  = Ok (if neg then - n else n).
Proof.
  intros Hn Hlen.
  assert (Forall (fun c => is_digit c = true) (replicate zeros "0"%char ++ digits n))
    as Hbody.
  { apply Forall_app_2; [|now apply digits_digit].
    apply Forall_forall. intros c Hc. now apply elem_of_replicate in Hc as [-> _]. }
  assert (exists c t, replicate zeros "0"%char ++ digits n = c :: t
                      /\ is_digit c = true) as (c & t & Heq & Hc).
  { pose proof (digits_nonempty n) as Hne.
    destruct (replicate zeros "0"%char ++ digits n) as [|c t] eqn:Heq.
    - apply (f_equal length) in Heq. rewrite length_app in Heq. simpl in Heq. lia.
    - apply Forall_cons in Hbody as [? _]. eauto. }
  assert (digits_acc 0 false (replicate zeros "0"%char ++ digits n) = Some n) as Hacc.
  { rewrite digits_acc_zeros.
    pose proof (digits_acc_digits n [] (false || negb (zeros =? 0)%nat)) as Hd.
    rewrite app_nil_r in Hd. now rewrite Hd. }
  assert ((max_str_digits <? count_digits (replicate zeros "0"%char ++ digits n))%nat
          = false) as Hcount.
  { apply Nat.ltb_ge. rewrite count_digits_all by done.
    rewrite length_app, length_replicate. lia. }
  unfold int_of_str. rewrite strip_with_id.
  2: { apply Forall_app_2.
       - destruct neg; repeat constructor.
       - eapply Forall_impl; [exact Hbody|]. apply is_digit_not_int_space. }
  destruct neg; cbn [app].
  - change (ascii_eqb "-" "-") with true. cbv iota. now rewrite Hcount, Hacc.
  - rewrite Heq. destruct (is_digit_not_sign c Hc) as [-> ->].
    rewrite <- Heq. now rewrite Hcount, Hacc.
Qed.

Lemma padded_02_written z :
  padded_02 z
  = (if z <? 0 then ["-"%char] else [])
      ++ replicate (2 - (if (z <? 0)%Z then 1 else 0) - length (digits (Z.abs z)))%nat
           "0"%char
      ++ digits (Z.abs z).
Proof. unfold padded_02. now destruct (z <? 0). Qed.

Lemma decimal_written z :
  decimal z
  = (if z <? 0 then ["-"%char] else []) ++ replicate 0 "0"%char
      ++ digits (Z.abs z).
Proof.
  unfold decimal. destruct (z <? 0) eqn:Hz; cbn [replicate app].
  - now rewrite Z.abs_neq by lia.
  - now rewrite Z.abs_eq by lia.
Qed.

(** [int] reads back what [f"{z:02}"] and [str(z)] write. *)
Lemma int_of_str_padded_02 z : short z -> int_of_str (padded_02 z) = Ok z.
Proof.
  intros Hz. rewrite padded_02_written.
  rewrite int_of_str_written.
  - f_equal. destruct (z <? 0) eqn:Hneg; lia.
  - lia.
  - pose proof (short_digits z Hz). unfold max_str_digits in *.
    destruct (z <? 0); lia.
Qed.

Lemma int_of_str_decimal z : short z -> int_of_str (decimal z) = Ok z.
Proof.
  intros Hz. rewrite decimal_written.
  rewrite int_of_str_written.
  - f_equal. destruct (z <? 0) eqn:Hneg; lia.
  - lia.
  - pose proof (short_digits z Hz). lia.
Qed.

(** ** Comprehensions that may raise *)

Lemma collect_ok {A} (l : list (result A)) xs :
  collect l = Ok xs <-> l = map Ok xs.
Proof.
  revert xs. induction l as [|c l IH]; intros xs.
  - simpl. split.
    + now intros [= <-].
    + destruct xs; [done | discriminate].
  - simpl. destruct c as [x|e]; cbn [bind].
    + destruct (collect l) as [ys|e] eqn:Hl; cbn [bind].
      * split.
        -- intros [= <-]. simpl. f_equal. now apply IH.
        -- destruct xs as [|x' xs]; [discriminate|]. simpl. intros [= -> Hmap].
           apply IH in Hmap. now injection Hmap as ->.
      * split; [discriminate|].
        destruct xs as [|x' xs]; [discriminate|]. simpl. intros [= -> Hmap].
        apply IH in Hmap. discriminate Hmap.
    + split; [discriminate|]. destruct xs; discriminate.
Qed.

Lemma collect_map_Ok {A} (xs : list A) : collect (map Ok xs) = Ok xs.
Proof. now apply collect_ok. Qed.

Lemma collect_length {A} (l : list (result A)) xs :
  collect l = Ok xs -> length xs = length l.
Proof. intros H. apply collect_ok in H as ->. now rewrite length_map. Qed.

Lemma collect_lookup {A} (l : list (result A)) xs k c :
  collect l = Ok xs -> l !! k = Some c ->
  exists x, c = Ok x /\ xs !! k = Some x.
Proof.
  intros H Hk. apply collect_ok in H as ->.
  rewrite list_lookup_fmap in Hk.
  destruct (xs !! k) as [x|]; [|discriminate]. injection Hk as <-. eauto.
Qed.

Lemma collect_all_ok {A} (l : list (result A)) :
  Forall (fun c => exists x, c = Ok x) l -> exists xs, collect l = Ok xs.
Proof.
  induction 1 as [|c l [x ->] _ [xs IH]]; [now exists []|].
  exists (x :: xs). simpl. now rewrite IH.
Qed.

Lemma collect_raise {A} (l : list (result A)) e :
  collect l = Raise e -> Raise e ∈ l.
Proof.
  induction l as [|c l IH]; [discriminate|].
  simpl. destruct c as [x|e']; cbn [bind].
  - destruct (collect l) as [ys|e''] eqn:Hl; cbn [bind]; [discriminate|].
    intros [= ->]. right. now apply IH.
  - intros [= ->]. left.
Qed.

Lemma collect_cases {A} (l : list (result A)) :
  (exists xs, collect l = Ok xs) \/ (exists e, collect l = Raise e /\ Raise e ∈ l).
Proof.
  destruct (collect l) as [xs|e] eqn:H; [left; eauto|].
  right. exists e. split; [done|]. now apply collect_raise.
Qed.

Lemma collect_app {A} (l1 l2 : list (result A)) :
  collect (l1 ++ l2)
  = (xs <- collect l1 ;; ys <- collect l2 ;; Ok (xs ++ ys)).
Proof.
  induction l1 as [|c l1 IH]; simpl.
  - now destruct (collect l2).
  - destruct c as [x|e]; cbn [bind]; [|done]. rewrite IH.
    destruct (collect l1); cbn [bind]; [|done].
    now destruct (collect l2).
Qed.

(** ** Splitting at a separator *)

Lemma split_on_nonempty sep s : split_on sep s <> [].
Proof.
  destruct s as [|c r]; simpl; [done|].
  destruct (ascii_eqb c sep); [done|]. now destruct (split_on sep r).
Qed.

Lemma split_on_piece sep a : forall rest,
  sep ∉ a -> split_on sep (a ++ sep :: rest) = a :: split_on sep rest.
Proof.
  induction a as [|c a IH]; intros rest Ha; simpl.
  - assert (ascii_eqb sep sep = true) as -> by now apply ascii_eqb_eq. done.
  - apply not_elem_of_cons in Ha as [Hc Ha].
    assert (ascii_eqb c sep = false) as -> by (apply ascii_eqb_neq; congruence).
    now rewrite IH.
Qed.

Lemma split_on_whole sep a : sep ∉ a -> split_on sep a = [a].
Proof.
  induction a as [|c a IH]; intros Ha; simpl; [done|].
  apply not_elem_of_cons in Ha as [Hc Ha].
  assert (ascii_eqb c sep = false) as -> by (apply ascii_eqb_neq; congruence).
  now rewrite IH.
Qed.

Lemma split_on_join sep toks :
  toks <> [] -> Forall (fun t => sep ∉ t) toks ->
  split_on sep (join sep toks) = toks.
Proof.
  induction toks as [|t ts IH]; intros Hne Hall; [done|].
  inversion Hall as [|? ? Ht Hts]; subst.
  destruct ts as [|t' ts]; [now apply split_on_whole|].
  change (join sep (t :: t' :: ts)) with (t ++ sep :: join sep (t' :: ts)).
  rewrite split_on_piece by done. now rewrite IH.
Qed.

Lemma join_split_on sep s :
  join sep (split_on sep s) = s /\ Forall (fun t => sep ∉ t) (split_on sep s).
Proof.
  induction s as [|c r [IHj IHa]]; simpl.
  - split; [done|]. constructor; [apply not_elem_of_nil|constructor].
  - pose proof (split_on_nonempty sep r) as Hne.
    destruct (ascii_eqb c sep) eqn:Hc.
    + apply ascii_eqb_eq in Hc as ->.
      destruct (split_on sep r) as [|t ts] eqn:Hr; [done|].
      split; [simpl in *; now rewrite IHj|].
      constructor; [apply not_elem_of_nil|done].
    + apply ascii_eqb_neq in Hc.
      destruct (split_on sep r) as [|t ts] eqn:Hr; [done|].
      apply Forall_cons in IHa as [Ht Hts]. split.
      * destruct ts; simpl in *; now rewrite <- IHj.
      * constructor; [|done]. apply not_elem_of_cons. split; [congruence|done].
Qed.

(** [split_on] returns exactly the separator-free pieces of the string. *)
Lemma split_on_spec sep s toks :
  split_on sep s = toks <->
  toks <> [] /\ s = join sep toks /\ Forall (fun t => sep ∉ t) toks.
Proof.
  split.
  - intros <-. destruct (join_split_on sep s) as [Hj Ha].
    split; [apply split_on_nonempty|]. now split.
  - intros (Hne & -> & Hall). now apply split_on_join.
Qed.

(** ** Integer literals *)

Lemma blank_int_space c : blank c <-> int_space c = true.
Proof.
  unfold blank.
  assert (bool_decide (ord c ∈ [9; 10; 11; 12; 13; 32; 133; 160]%N)
          = int_space c) as <- by (each_char c). split; [apply bool_decide_eq_true_2 | apply bool_decide_eq_true_1].
Qed.

Lemma decimal_digit_val c d : decimal_digit c d <-> digit_val c = Some d.
Proof.
  split.
  - unfold decimal_digit. intros H.
    repeat (apply elem_of_cons in H as [[= -> ->] | H]; [reflexivity|]).
    now apply elem_of_nil in H.
  - unfold decimal_digit.
    assert (match digit_val c with
            | Some d' =>
                bool_decide
                  ((c, d') ∈ [("0"%char, 0); ("1"%char, 1); ("2"%char, 2);
                              ("3"%char, 3); ("4"%char, 4); ("5"%char, 5);
                              ("6"%char, 6); ("7"%char, 7); ("8"%char, 8);
                              ("9"%char, 9)])
            | None => true
            end = true) as Hall by (each_char c).
    intros Hd. rewrite Hd in Hall. now apply bool_decide_eq_true_1 in Hall.
Qed.

Lemma decimal_digit_is_digit c d : decimal_digit c d -> is_digit c = true.
Proof. intros H. apply decimal_digit_val in H. unfold is_digit. now rewrite H. Qed.

Lemma underscore_no_digit : digit_val "_" = None.
Proof. reflexivity. Qed.

Lemma literal_body_digits_acc body ds :
  literal_body body ds ->
  forall acc b,
    digits_acc acc b body = Some (fold_left (fun a d => 10 * a + d) ds acc).
Proof.
  induction 1 as [c d Hc | c d s ds Hc _ IH | c d s ds Hc _ IH]; intros acc b;
    apply decimal_digit_val in Hc; cbn [digits_acc fold_left]; rewrite Hc.
  - done.
  - apply IH.
  - cbn [digits_acc]. rewrite underscore_no_digit.
    change (ascii_eqb "_" "_" && true) with true. cbv iota. apply IH.
Qed.

Lemma count_digits_cons_digit c s :
  is_digit c = true -> count_digits (c :: s) = S (count_digits s).
Proof.
  intros Hc. unfold count_digits.
  assert (is_Some (digit_val c)) as Hsome
    by (unfold is_digit in Hc; now destruct (digit_val c)).
  now rewrite (filter_cons_True _ c s Hsome).
Qed.

Lemma count_digits_cons_other c s :
  is_digit c = false -> count_digits (c :: s) = count_digits s.
Proof.
  intros Hc. unfold count_digits.
  assert (~ is_Some (digit_val c)) as Hnone.
  { unfold is_digit in Hc. destruct (digit_val c); [discriminate|].
    intros [? ?]. discriminate. }
  now rewrite (filter_cons_False _ c s Hnone).
Qed.

Lemma literal_body_count body ds :
  literal_body body ds -> count_digits body = length ds.
Proof.
  induction 1 as [c d Hc | c d s ds Hc _ IH | c d s ds Hc _ IH];
    apply decimal_digit_is_digit in Hc.
  - now rewrite count_digits_cons_digit.
  - rewrite count_digits_cons_digit by done. simpl. now rewrite IH.
  - rewrite count_digits_cons_digit by done.
    rewrite count_digits_cons_other by reflexivity. simpl. now rewrite IH.
Qed.

Lemma literal_body_head body ds :
  literal_body body ds -> exists c r, body = c :: r /\ is_digit c = true.
Proof.
  destruct 1 as [c d Hc | c d s ds Hc _ | c d s ds Hc _];
    apply decimal_digit_is_digit in Hc; eauto.
Qed.

Lemma literal_body_last body ds :
  literal_body body ds -> exists r c, body = r ++ [c] /\ is_digit c = true.
Proof.
  induction 1 as [c d Hc | c d s ds Hc _ (r & c' & -> & Hc')
                  | c d s ds Hc _ (r & c' & -> & Hc')].
  - exists [], c. split; [done|]. now apply decimal_digit_is_digit in Hc.
  - now exists (c :: r), c'.
  - now exists (c :: "_"%char :: r), c'.
Qed.

(** What the reading of a body accepts is a literal body. *)
Lemma digits_acc_literal n : forall s acc v,
  (length s <= n)%nat -> digits_acc acc false s = Some v ->
  exists ds, literal_body s ds
             /\ v = fold_left (fun a d => 10 * a + d) ds acc.
Proof.
  induction n as [|n IH]; intros s acc v Hlen Hacc.
  - destruct s; [discriminate Hacc | simpl in Hlen; lia].
  - destruct s as [|c r]; [discriminate Hacc|].
    cbn [digits_acc] in Hacc.
    destruct (digit_val c) as [d|] eqn:Hc;
      [|rewrite andb_false_r in Hacc; discriminate Hacc].
    apply decimal_digit_val in Hc.
    destruct r as [|c' r'].
    + injection Hacc as <-. exists [d]. split; [now constructor | done].
    + destruct (digit_val c') as [d'|] eqn:Hc'.
      * assert (digits_acc (10 * acc + d) false (c' :: r') = Some v) as Hacc'.
        { cbn [digits_acc] in *. now rewrite Hc' in *. }
        apply IH in Hacc' as (ds & Hbody & ->); [|simpl in *; lia].
        exists (d :: ds). split; [now constructor | done].
      * cbn [digits_acc] in Hacc. rewrite Hc' in Hacc.
        destruct (ascii_eqb c' "_") eqn:Hu; [|discriminate Hacc].
        apply ascii_eqb_eq in Hu as ->. cbn [andb] in Hacc.
        apply IH in Hacc as (ds & Hbody & ->); [|simpl in *; lia].
        exists (d :: ds). split; [now constructor | done].
Qed.

Lemma drop_while_blanks p lead core :
  Forall (fun c => p c = true) lead ->
  drop_while p (lead ++ core) = drop_while p core.
Proof.
  induction 1 as [|c lead Hc _ IH]; [done|]. simpl. now rewrite Hc.
Qed.

Lemma drop_while_split p s :
  exists lead, s = lead ++ drop_while p s /\ Forall (fun c => p c = true) lead.
Proof.
  induction s as [|c s (lead & Heq & Hlead)]; [now exists []|].
  simpl. destruct (p c) eqn:Hc.
  - exists (c :: lead). split; [cbn [app]; now f_equal | now constructor].
  - now exists [].
Qed.

Lemma strip_with_core p lead core trail c r r' c' :
  Forall (fun x => p x = true) lead -> Forall (fun x => p x = true) trail ->
  core = c :: r -> p c = false -> core = r' ++ [c'] -> p c' = false ->
  strip_with p (lead ++ core ++ trail) = core.
Proof.
  intros Hlead Htrail Hhead Hc Hlast Hc'. unfold strip_with.
  rewrite drop_while_blanks by done.
  assert (drop_while p (core ++ trail) = core ++ trail) as ->
    by (rewrite Hhead; cbn [app]; now apply drop_while_id).
  rewrite rev_app_distr, drop_while_blanks.
  2: { apply Forall_forall. intros x Hx. rewrite Forall_forall in Htrail.
       apply Htrail. now apply list_elem_of_In, in_rev, list_elem_of_In. }
  rewrite Hlast at 1. rewrite rev_app_distr. cbn [rev app].
  rewrite drop_while_id by done.
  change (c' :: rev r') with (rev [c'] ++ rev r').
  now rewrite <- rev_app_distr, rev_involutive.
Qed.

Lemma strip_with_split p s :
  exists lead trail,
    s = lead ++ strip_with p s ++ trail
    /\ Forall (fun c => p c = true) lead /\ Forall (fun c => p c = true) trail.
Proof.
  unfold strip_with.
  destruct (drop_while_split p s) as (lead & Heq & Hlead).
  destruct (drop_while_split p (rev (drop_while p s))) as (trail & Heq' & Htrail).
  exists lead, (rev trail). split; [|split; [done|]].
  - rewrite <- rev_app_distr, <- Heq', rev_involutive. exact Heq.
  - apply Forall_forall. intros x Hx. rewrite Forall_forall in Htrail.
    apply Htrail. now apply list_elem_of_In, in_rev, list_elem_of_In in Hx.
Qed.

Lemma Forall_blank_int_space l :
  Forall blank l <-> Forall (fun c => int_space c = true) l.
Proof. apply Forall_iff. intros c. apply blank_int_space. Qed.

(** [int] accepts exactly the integer literals of at most
    [max_str_digits] digits, and returns the number they denote. *)
Lemma int_of_str_literal t v :
  int_of_str t = Ok v <->
  exists k, int_literal t v k /\ (k <= max_str_digits)%nat.
Proof.
  split.
  - unfold int_of_str.
    destruct (strip_with_split int_space t) as (lead & trail & Ht & Hlead & Htrail).
    apply Forall_blank_int_space in Hlead, Htrail.
    assert (forall sign body neg,
              strip_with int_space t = sign ++ body ->
              (sign = [] \/ sign = ["+"%char]) /\ neg = false
              \/ sign = ["-"%char] /\ neg = true ->
              (if (max_str_digits <? count_digits body)%nat then Raise ValueError
               else match digits_acc 0 false body with
                    | Some n => Ok (if neg then - n else n)
                    | None => Raise ValueError
                    end) = Ok v ->
              exists k, int_literal t v k /\ (k <= max_str_digits)%nat) as Hcase.
    { intros sign body neg Hcore Hsign Hres.
      destruct (max_str_digits <? count_digits body)%nat eqn:Hcount;
        [discriminate Hres|].
      apply Nat.ltb_ge in Hcount.
      destruct (digits_acc 0 false body) as [n|] eqn:Hacc; [|discriminate Hres].
      injection Hres as <-.
      apply (digits_acc_literal (length body)) in Hacc as (ds & Hbody & ->); [|lia].
      exists (length ds). split.
      - exists lead, sign, body, trail, ds.
        split; [now rewrite (app_assoc sign body trail), <- Hcore|].
        split; [done|]. split; [done|]. split; [done|]. split; [done|].
        destruct Hsign as [[Hs ->] | [Hs ->]]; [left | right]; done.
      - now rewrite <- (literal_body_count body ds). }
    destruct (strip_with int_space t) as [|c r] eqn:Hcore.
    + apply (Hcase [] [] false); [done | left; split; [now left|done]].
    + destruct (ascii_eqb c "-") eqn:Hminus.
      * apply ascii_eqb_eq in Hminus as ->.
        apply (Hcase ["-"%char] r true); [done | right; done].
      * destruct (ascii_eqb c "+") eqn:Hplus.
        -- apply ascii_eqb_eq in Hplus as ->.
           apply (Hcase ["+"%char] r false); [done | left; split; [now right|done]].
        -- apply (Hcase [] (c :: r) false); [done | left; split; [now left|done]].
  - intros (k & (lead & sign & body & trail & ds & -> & Hlead & Htrail & Hbody
                 & <- & Hsign) & Hk).
    apply Forall_blank_int_space in Hlead, Htrail.
    destruct (literal_body_head _ _ Hbody) as (c & r & Hhead & Hc).
    destruct (literal_body_last _ _ Hbody) as (r' & c' & Hlast & Hc').
    assert ((max_str_digits <? count_digits body)%nat = false) as Hcount
      by (apply Nat.ltb_ge; now rewrite (literal_body_count body ds)).
    pose proof (literal_body_digits_acc _ _ Hbody 0 false) as Hacc.
    fold (digits_value ds) in Hacc.
    unfold int_of_str.
    destruct Hsign as [[[-> | ->] ->] | [-> ->]].
    + cbn [app].
      rewrite (strip_with_core int_space lead body trail c r r' c');
        try done; try now apply is_digit_not_int_space.
      rewrite Hhead. destruct (is_digit_not_sign c Hc) as [-> ->].
      rewrite <- Hhead. now rewrite Hcount, Hacc.
    + rewrite (app_assoc ["+"%char] body trail).
      rewrite (strip_with_core int_space lead (["+"%char] ++ body) trail
                 "+"%char body ("+"%char :: r') c');
        try done; try (now apply is_digit_not_int_space);
        [|now rewrite Hlast].
      cbn [app]. change (ascii_eqb "+" "-") with false.
      change (ascii_eqb "+" "+") with true. cbv iota. now rewrite Hcount, Hacc.
    + rewrite (app_assoc ["-"%char] body trail).
      rewrite (strip_with_core int_space lead (["-"%char] ++ body) trail
                 "-"%char body ("-"%char :: r') c');
        try done; try (now apply is_digit_not_int_space);
        [|now rewrite Hlast].
      cbn [app]. change (ascii_eqb "-" "-") with true. cbv iota.
      now rewrite Hcount, Hacc.
Qed.

Lemma int_of_str_raise s e : int_of_str s = Raise e -> e = ValueError.
Proof.
  unfold int_of_str.
  destruct (match strip_with int_space s with [] => _ | _ :: _ => _ end) as [neg body].
  destruct (_ <? _)%nat; [now intros [= <-]|].
  destruct (digits_acc 0 false body); [discriminate|]. now intros [= <-].
Qed.

(** ** Time codec *)

Lemma padded_02_no_colon z : ":"%char ∉ padded_02 z.
Proof.
  intros Hin. pose proof (padded_02_chars z) as Hall.
  rewrite Forall_forall in Hall. now apply (sign_digit_not_colon _ (Hall _ Hin)).
Qed.

Lemma split_time_text z :
  split_on ":" (time_text z)
  = [padded_02 (z / 3600); padded_02 ((z mod 3600) / 60); padded_02 (z mod 60)].
Proof.
  unfold time_text.
  rewrite split_on_piece by apply padded_02_no_colon.
  rewrite split_on_piece by apply padded_02_no_colon.
  now rewrite split_on_whole by apply padded_02_no_colon.
Qed.

Lemma short_minutes z : short ((z mod 3600) / 60).
Proof.
  apply short_small.
  pose proof (Z.mod_pos_bound z 3600 ltac:(lia)).
  assert (0 <= (z mod 3600) / 60 < 60)
    by (split; [apply Z.div_pos; lia | apply Z.div_lt_upper_bound; lia]).
  lia.
Qed.

Lemma short_seconds z : short (z mod 60).
Proof.
  apply short_small. pose proof (Z.mod_pos_bound z 60 ltac:(lia)). lia.
Qed.

Lemma short_hours z : short z -> short (z / 3600).
Proof.
  intros Hz. apply (short_le _ z); [|exact Hz].
  destruct (Z.le_gt_cases 0 z) as [Hpos|Hneg].
  - pose proof (Z.div_pos z 3600 Hpos ltac:(lia)).
    pose proof (Z.div_le_upper_bound z 3600 z ltac:(lia) ltac:(lia)). lia.
  - assert (z / 3600 < 0) by (apply Z.div_lt_upper_bound; lia).
    assert (z <= z / 3600) by (apply Z.div_le_lower_bound; lia). lia.
Qed.

(** On an int, the text is produced exactly when the hours can be
    written. *)
Lemma seconds_to_time_Int z :
  short (z / 3600) -> seconds_to_time (Int z) = Ok (time_text z).
Proof.
  intros Hz. unfold seconds_to_time. cbn [floordiv modulo int_of_number bind].
  rewrite (format_02_short _ Hz). cbn [bind].
  rewrite (format_02_short _ (short_minutes z)). cbn [bind].
  now rewrite (format_02_short _ (short_seconds z)).
Qed.

Lemma seconds_to_time_Int_long z :
  limit <= Z.abs (z / 3600) -> seconds_to_time (Int z) = Raise ValueError.
Proof.
  intros Hz. unfold seconds_to_time, format_02.
  cbn [floordiv modulo int_of_number bind].
  now rewrite (check_digits_long _ Hz).
Qed.

Lemma seconds_to_time_Int_cases z :
  short (z / 3600) /\ seconds_to_time (Int z) = Ok (time_text z)
  \/ limit <= Z.abs (z / 3600) /\ seconds_to_time (Int z) = Raise ValueError.
Proof.
  destruct (Z.lt_ge_cases (Z.abs (z / 3600)) limit) as [Hs|Hl].
  - left. split; [exact Hs | now apply seconds_to_time_Int].
  - right. split; [exact Hl | now apply seconds_to_time_Int_long].
Qed.

Lemma seconds_to_time_Int_ok z t :
  seconds_to_time (Int z) = Ok t -> short (z / 3600) /\ t = time_text z.
Proof.
  destruct (seconds_to_time_Int_cases z) as [[Hs ->] | [_ ->]]; [|discriminate].
  now intros [= <-].
Qed.

Lemma time_text_round_trip z :
  short (z / 3600) -> time_to_seconds (time_text z) = Ok z.
Proof.
  intros Hz. unfold time_to_seconds. rewrite split_time_text.
  rewrite (int_of_str_padded_02 _ Hz).
  rewrite (int_of_str_padded_02 _ (short_minutes z)).
  rewrite (int_of_str_padded_02 _ (short_seconds z)).
  cbn [bind]. f_equal.
  pose proof (Z.div_mod z 3600 ltac:(lia)).
  pose proof (Z.div_mod (z mod 3600) 60 ltac:(lia)).
  assert (z mod 60 = (z mod 3600) mod 60) as Hmm.
  { symmetry. apply Z.mod_mod_divide. now exists 60. }
  lia.
Qed.

(** The round trip holds for every int whose text is produced, negative
    ones included. *)
Lemma round_trip_written z text :
  seconds_to_time (Int z) = Ok text -> time_to_seconds text = Ok z.
Proof.
  intros H. apply seconds_to_time_Int_ok in H as [Hs ->].
  now apply time_text_round_trip.
Qed.

(** C2.  For every non-negative integer [s] below [3600 * limit], that is
    with an hour count of at most [max_str_digits] digits, writing [s] as
    [HH:MM:SS] text with [seconds_to_time] succeeds and reading the text
    with [time_to_seconds] returns [s]; from [3600 * limit] on
    [seconds_to_time] raises [ValueError]. *)
Theorem time_round_trip (s : Z) :
  0 <= s ->
  (s < 3600 * limit ->
   exists text, seconds_to_time (Int s) = Ok text
                /\ time_to_seconds text = Ok s)
  /\ (3600 * limit <= s -> seconds_to_time (Int s) = Raise ValueError).
Proof.
  intros Hs. split; intros Hb.
  - assert (short (s / 3600)) as Hshort.
    { unfold short. pose proof (Z.div_pos s 3600 Hs ltac:(lia)).
      assert (s / 3600 < limit) by (apply Z.div_lt_upper_bound; lia). lia. }
    exists (time_text s).
    split; [now apply seconds_to_time_Int | now apply time_text_round_trip].
  - apply seconds_to_time_Int_long.
    assert (limit <= s / 3600) by (apply Z.div_le_lower_bound; lia). lia.
Qed.

Lemma time_round_trip_witness :
  0 <= 86399
  /\ seconds_to_time (Int 86399) = Ok $"23:59:59"
  /\ time_to_seconds $"23:59:59" = Ok 86399.
Proof.
  split; [lia|].
  destruct (time_round_trip 86399 ltac:(lia)) as [Hok _].
  destruct Hok as (text & Hwrite & Hread); [pose proof limit_large; lia|].
  assert (text = $"23:59:59") as ->
    by (vm_compute in Hwrite; now injection Hwrite as <-).
  split; [exact Hwrite | exact Hread].
Defined.

(** C2 as stated fails: the hour count of [3600 * limit] seconds has
    [max_str_digits + 1] digits and the conversion to text is refused. *)
Lemma hours_beyond_limit :
  0 <= 3600 * limit
  /\ seconds_to_time (Int (3600 * limit)) = Raise ValueError
  /\ ~ (forall s, 0 <= s ->
          exists text, seconds_to_time (Int s) = Ok text
                       /\ time_to_seconds text = Ok s).
Proof.
  pose proof limit_pos as Hpos.
  assert (seconds_to_time (Int (3600 * limit)) = Raise ValueError) as Hraise.
  { apply seconds_to_time_Int_long.
    rewrite (Z.mul_comm 3600), Z.div_mul by lia. lia. }
  split; [lia|]. split; [exact Hraise|].
  intros H. destruct (H (3600 * limit) ltac:(lia)) as (text & Hok & _).
  rewrite Hraise in Hok. discriminate Hok.
Qed.

Lemma time_to_seconds_raise s e : time_to_seconds s = Raise e -> e = ValueError.
Proof.
  unfold time_to_seconds.
  destruct (split_on ":" s) as [|th [|tm [|ts [|? ?]]]]; try now intros [= <-].
  destruct (int_of_str th) eqn:Hh; simpl; [|intros [= <-]; eauto using int_of_str_raise].
  destruct (int_of_str tm) eqn:Hm; simpl; [|intros [= <-]; eauto using int_of_str_raise].
  destruct (int_of_str ts) eqn:Hs; simpl; [|intros [= <-]; eauto using int_of_str_raise].
  discriminate.
Qed.

Lemma time_to_seconds_ok text v :
  time_to_seconds text = Ok v <->
  exists h m s, three_short_int_tokens text h m s /\ v = h * 3600 + m * 60 + s.
Proof.
  unfold time_to_seconds. split.
  - destruct (split_on ":" text) as [|th [|tm [|ts [|? ?]]]] eqn:Hsp; try discriminate.
    apply split_on_spec in Hsp as (_ & -> & Hall).
    inversion Hall as [|? ? H1 Hall1]; subst.
    inversion Hall1 as [|? ? H2 Hall2]; subst.
    inversion Hall2 as [|? ? H3 _]; subst.
    destruct (int_of_str th) as [h|] eqn:Hh; [|discriminate].
    destruct (int_of_str tm) as [m|] eqn:Hm; [|discriminate].
    destruct (int_of_str ts) as [s|] eqn:Hs; [|discriminate].
    apply int_of_str_literal in Hh as (kh & Hh & Hkh).
    apply int_of_str_literal in Hm as (km & Hm & Hkm).
    apply int_of_str_literal in Hs as (ks & Hs & Hks).
    simpl. intros [= <-]. exists h, m, s. split; [|done].
    exists th, tm, ts, kh, km, ks. by repeat split.
  - intros (h & m & s & (th & tm & ts & kh & km & ks & -> & H1 & H2 & H3
                         & Hh & Hm & Hs & Hkh & Hkm & Hks) & ->).
    assert (split_on ":" (th ++ ":"%char :: tm ++ ":"%char :: ts) = [th; tm; ts]) as ->.
    { rewrite !split_on_piece by done. now rewrite split_on_whole. }
    assert (int_of_str th = Ok h) as -> by (apply int_of_str_literal; eauto).
    assert (int_of_str tm = Ok m) as -> by (apply int_of_str_literal; eauto).
    assert (int_of_str ts = Ok s) as -> by (apply int_of_str_literal; eauto).
    done.
Qed.

(** C6.  [time_to_seconds] succeeds exactly on the strings made of three
    colon-separated integer literals of at most [max_str_digits] digits
    each, and then returns [h * 3600 + m * 60 + s]; on every other string
    it raises [ValueError]. *)
Theorem time_to_seconds_spec (text : str) :
  (forall v, time_to_seconds text = Ok v <->
             exists h m s, three_short_int_tokens text h m s
                           /\ v = h * 3600 + m * 60 + s)
  /\ (time_to_seconds text = Raise ValueError <->
      ~ exists h m s, three_short_int_tokens text h m s)
  /\ ((exists v, time_to_seconds text = Ok v)
      \/ time_to_seconds text = Raise ValueError).
Proof.
  split; [intros v; apply time_to_seconds_ok|].
  destruct (time_to_seconds text) as [v|e] eqn:Ht.
  - split; [|left; eauto]. split; [discriminate|].
    intros Hno. exfalso. apply Hno.
    apply time_to_seconds_ok in Ht as (h & m & s & Htok & _). eauto.
  - apply time_to_seconds_raise in Ht as Hv. subst e.
    split; [|now right]. split; [|done].
    intros _ (h & m & s & Htok).
    assert (time_to_seconds text = Ok (h * 3600 + m * 60 + s)) as Hok
      by (apply time_to_seconds_ok; eauto).
    congruence.
Qed.

Lemma literal_body_zeros n :
  literal_body (replicate (S n) "0"%char) (replicate (S n) 0).
Proof.
  assert (decimal_digit "0" 0) as H0 by (now apply decimal_digit_val).
  induction n as [|n IH]; [now constructor|].
  change (replicate (S (S n)) ?x) with (x :: replicate (S n) x).
  now constructor.
Qed.

Lemma digits_value_zeros n : digits_value (replicate n 0) = 0.
Proof. unfold digits_value. induction n as [|n IH]; [done|]. exact IH. Qed.

Lemma int_literal_plain body ds :
  literal_body body ds -> int_literal body (digits_value ds) (length ds).
Proof.
  intros Hbody. exists [], [], body, [], ds.
  rewrite app_nil_r. repeat split; try done. left. split; [now left | done].
Qed.

(** C6 as stated fails: three colon-separated integer literals are
    refused when one of them has more than [max_str_digits] digits. *)
Lemma long_hours_token_rejected :
  three_int_tokens (replicate 4301 "0"%char ++ $":00:00") 0 0 0
  /\ time_to_seconds (replicate 4301 "0"%char ++ $":00:00") = Raise ValueError
  /\ ~ (forall text v,
          time_to_seconds text = Ok v <->
          exists h m s, three_int_tokens text h m s
                        /\ v = h * 3600 + m * 60 + s).
Proof.
  assert (three_int_tokens (replicate 4301 "0"%char ++ $":00:00") 0 0 0) as Htok.
  { exists (replicate 4301 "0"%char), $"00", $"00", 4301%nat, 2%nat, 2%nat.
    split; [reflexivity|].
    split; [intros Hin; apply elem_of_replicate in Hin as [Hin _]; discriminate Hin|].
    assert (":"%char ∉ $"00") as Hcolon.
    { intros Hin. apply (elem_of_replicate 2 "0"%char) in Hin as [Hin _].
      discriminate Hin. }
    split; [exact Hcolon|]. split; [exact Hcolon|].
    split.
    - pose proof (int_literal_plain _ _ (literal_body_zeros 4300)) as H.
      now rewrite digits_value_zeros, length_replicate in H.
    - split; apply (int_literal_plain _ _ (literal_body_zeros 1)). }
  assert (time_to_seconds (replicate 4301 "0"%char ++ $":00:00")
          = Raise ValueError) as Hraise by (vm_compute; reflexivity).
  split; [exact Htok|]. split; [exact Hraise|].
  intros H.
  assert (time_to_seconds (replicate 4301 "0"%char ++ $":00:00") = Ok 0) as Hok
    by (apply H; exists 0, 0, 0; split; [exact Htok | reflexivity]).
  rewrite Hraise in Hok. discriminate Hok.
Qed.

(** ** Splitting at whitespace *)

Lemma flush_nonempty cur : Forall (fun t => t <> []) (flush cur).
Proof.
  destruct cur as [|c cur]; simpl; [constructor|].
  constructor; [|constructor]. intros H. now apply app_eq_nil in H as [_ ?].
Qed.

(** A token of [split] is never empty. *)
Lemma split_ws_from_nonempty s : forall cur,
  Forall (fun t => t <> []) (split_ws_from cur s).
Proof.
  induction s as [|c r IH]; intros cur; simpl; [apply flush_nonempty|].
  destruct (isspace c); [|apply IH].
  apply Forall_app_2; [apply flush_nonempty | apply IH].
Qed.

Lemma split_ws_from_space_end s : forall cur c,
  isspace c = true -> split_ws_from cur (s ++ [c]) = split_ws_from cur s.
Proof.
  induction s as [|d r IH]; intros cur c Hc; simpl.
  - rewrite Hc. apply app_nil_r.
  - destruct (isspace d); [f_equal|]; now apply IH.
Qed.

Lemma split_ws_drop_while s : split_ws (drop_while isspace s) = split_ws s.
Proof.
  unfold split_ws. induction s as [|c r IH]; simpl; [done|].
  destruct (isspace c) eqn:Hc; [done|]. simpl. now rewrite Hc.
Qed.

Lemma split_ws_rev_drop_while s :
  split_ws (rev (drop_while isspace (rev s))) = split_ws s.
Proof.
  induction s as [|c r IH] using rev_ind; [done|].
  rewrite rev_app_distr. simpl. destruct (isspace c) eqn:Hc.
  - rewrite IH. unfold split_ws. now rewrite split_ws_from_space_end.
  - simpl. now rewrite rev_involutive.
Qed.

(** Stripping first changes nothing for [split]. *)
Lemma split_ws_strip s : split_ws (strip s) = split_ws s.
Proof.
  unfold strip, strip_with.
  now rewrite split_ws_rev_drop_while, split_ws_drop_while.
Qed.

Lemma split_ws_from_token tok : forall cur rest,
  Forall (fun c => isspace c = false) tok ->
  split_ws_from cur (tok ++ rest) = split_ws_from (rev tok ++ cur) rest.
Proof.
  induction tok as [|c tok IH]; intros cur rest Htok; [done|].
  apply Forall_cons in Htok as [Hc Htok]. simpl. rewrite Hc, IH by done.
  now rewrite <- app_assoc.
Qed.

(** A non-empty run without whitespace that is followed by whitespace is
    the next token. *)
Lemma split_ws_token tok c rest :
  tok <> [] -> Forall (fun c => isspace c = false) tok -> isspace c = true ->
  split_ws (tok ++ c :: rest) = tok :: split_ws rest.
Proof.
  intros Hne Htok Hc. unfold split_ws.
  rewrite split_ws_from_token by done. simpl. rewrite Hc, app_nil_r.
  unfold flush. destruct (rev tok) eqn:Hrev.
  - apply (f_equal (@rev ascii)) in Hrev. rewrite rev_involutive in Hrev. done.
  - now rewrite <- Hrev, rev_involutive.
Qed.

Lemma split_ws_space c rest :
  isspace c = true -> split_ws (c :: rest) = split_ws rest.
Proof. intros Hc. unfold split_ws. simpl. now rewrite Hc. Qed.

(** ** Reading the annotation lines *)

Lemma read_line_spec annotations line :
  read_line annotations line = Ok (annotations ++ line_markers line).
Proof.
  unfold read_line, line_markers, tokens.
  destruct (split_ws (strip line)) as [|idx [|tm [|lab [|? ?]]]];
    simpl; rewrite ?app_nil_r; try done.
  change (getitem [idx; tm; lab] 1) with (Ok (A:=str) tm). simpl.
  destruct (time_to_seconds tm) as [t|e] eqn:Ht; simpl.
  - reflexivity.
  - apply time_to_seconds_raise in Ht as ->. now rewrite app_nil_r.
Qed.

Lemma read_lines_spec lines : forall annotations,
  read_lines annotations lines
  = Ok (annotations ++ concat (map line_markers lines)).
Proof.
  induction lines as [|line rest IH]; intros annotations; simpl.
  - now rewrite app_nil_r.
  - rewrite read_line_spec. simpl. rewrite IH. now rewrite <- app_assoc.
Qed.

Lemma read_annotations_spec lines :
  read_annotations lines = Ok (concat (map line_markers lines)).
Proof. apply read_lines_spec. Qed.

Lemma parsed_line_markers lines : parsed lines (concat (map line_markers lines)).
Proof.
  induction lines as [|line rest IH]; simpl; [constructor|].
  unfold line_markers at 1.
  destruct (tokens line) as [|idx [|tm [|lab [|? ?]]]] eqn:Htok;
    try (apply parsed_skip_count; [rewrite Htok; simpl; lia | exact IH]).
  destruct (time_to_seconds tm) as [t|e] eqn:Ht.
  - now apply parsed_valid with idx tm.
  - now apply parsed_skip_time with idx tm lab e.
Qed.

(** The relation determines the marker list. *)
Lemma parsed_functional lines ms :
  parsed lines ms -> ms = concat (map line_markers lines).
Proof.
  induction 1 as [|line idx tm lab t rest ms Htok Ht _ IH
                  |line rest ms Hlen _ IH
                  |line idx tm lab e rest ms Htok Ht _ IH]; simpl.
  - done.
  - unfold line_markers. rewrite Htok, Ht. simpl. now f_equal.
  - unfold line_markers.
    destruct (tokens line) as [|? [|? [|? [|? ?]]]]; simpl in *; (done || lia).
  - unfold line_markers. now rewrite Htok, Ht.
Qed.

(** C5.  Reading never aborts: for every sequence of lines it returns a
    marker list, and that list is the in-order list of the markers of the
    valid lines; a line without exactly three tokens, or whose time token
    the codec rejects, is passed over and the lines after it are still
    read. *)
Theorem read_annotations_skips_bad_lines (lines : list str) :
  exists ms,
    read_annotations lines = Ok ms
    /\ parsed lines ms
    /\ (forall ms', parsed lines ms' -> ms' = ms)
    /\ (forall before bad after,
          lines = before ++ bad :: after ->
          (length (tokens bad) <> 3%nat
           \/ exists idx tm lab e,
                tokens bad = [idx; tm; lab] /\ time_to_seconds tm = Raise e) ->
          exists ms1 ms2,
            read_annotations before = Ok ms1
            /\ read_annotations after = Ok ms2
            /\ ms = ms1 ++ ms2).
Proof.
  exists (concat (map line_markers lines)).
  split; [apply read_annotations_spec|].
  split; [apply parsed_line_markers|].
  split; [intros ms'; apply parsed_functional|].
  intros before bad after -> Hbad.
  exists (concat (map line_markers before)), (concat (map line_markers after)).
  split; [apply read_annotations_spec|].
  split; [apply read_annotations_spec|].
  rewrite map_app, concat_app. simpl. f_equal.
  assert (line_markers bad = []) as ->; [|done].
  unfold line_markers. destruct Hbad as [Hlen | (idx & tm & lab & e & -> & ->)]; [|done].
  destruct (tokens bad) as [|? [|? [|? [|? ?]]]]; simpl in *; (done || lia).
Qed.

(** A label read from a file is never empty. *)
Lemma line_markers_label line :
  Forall (fun m => label m <> []) (line_markers line).
Proof.
  unfold line_markers. pose proof (split_ws_from_nonempty (strip line) []) as Hne.
  fold (split_ws (strip line)) in Hne. fold (tokens line) in Hne.
  destruct (tokens line) as [|idx [|tm [|lab [|? ?]]]]; try constructor.
  destruct (time_to_seconds tm); constructor; [|constructor].
  simpl. apply Forall_cons in Hne as [_ Hne]. apply Forall_cons in Hne as [_ Hne].
  now apply Forall_cons in Hne as [? _].
Qed.

Lemma read_annotations_label lines ms :
  read_annotations lines = Ok ms -> Forall (fun m => label m <> []) ms.
Proof.
  rewrite read_annotations_spec. intros [= <-].
  induction lines as [|line rest IH]; simpl; [constructor|].
  apply Forall_app_2; [apply line_markers_label | exact IH].
Qed.

(** ** Pairing *)

Lemma list_pair_ind {A} (P : list A -> Prop) :
  P [] -> (forall a, P [a]) -> (forall a b l, P l -> P (a :: b :: l)) ->
  forall l, P l.
Proof.
  intros H0 H1 H2. fix IH 1. intros [|a [|b l]]; [exact H0 | apply H1 |].
  apply H2, IH.
Qed.

Lemma getitem_nat {A} (l : list A) (i : nat) x :
  l !! i = Some x -> getitem l (Z.of_nat i) = Ok x.
Proof.
  intros Hl. pose proof (lookup_lt_Some _ _ _ Hl) as Hlt.
  unfold getitem, norm_index.
  assert ((0 <=? Z.of_nat i) && (Z.of_nat i <? Z.of_nat (length l)) = true) as ->
    by (apply andb_true_iff; split; lia).
  simpl. now rewrite Nat2Z.id, Hl.
Qed.

Lemma but_last_snoc (s : str) c : but_last (s ++ [c]) = s.
Proof. apply removelast_last. Qed.

Lemma last_char_snoc (s : str) c : last_char (s ++ [c]) = Ok c.
Proof.
  unfold last_char, getitem, norm_index. rewrite length_app. simpl.
  assert ((- Z.of_nat (length s + 1) <=? -1) && (-1 <? 0) = true) as ->
    by (apply andb_true_iff; split; [apply Z.leb_le; lia | done]).
  simpl. replace (Z.to_nat (Z.of_nat (length s + 1) + -1)) with (length s) by lia.
  now rewrite list_lookup_middle.
Qed.

Lemma snoc_of_nonempty {A} (l : list A) :
  l <> [] -> exists t c, l = t ++ [c].
Proof.
  destruct l as [|x l] using rev_ind; [done|]. intros _. eauto.
Qed.

Lemma pair_of_snoc ta tb sa sb ca cb :
  pair_of (Marker ta (sa ++ [ca])) (Marker tb (sb ++ [cb]))
  = if str_eqb sa sb && ascii_eqb ca "1" && ascii_eqb cb "2"
    then [Interval (Int ta) (Int tb) sa] else [].
Proof.
  unfold pair_of. simpl. now rewrite !last_snoc, !but_last_snoc.
Qed.

Lemma pair_of_open_close a b base :
  open_close a b base -> pair_of a b = [Interval (Int (time a)) (Int (time b)) base].
Proof.
  destruct a as [ta la], b as [tb lb]. intros [Ha Hb]. simpl in *. subst.
  rewrite pair_of_snoc. unfold str_eqb. now rewrite bool_decide_eq_true_2.
Qed.

Lemma pair_of_not_open_close a b :
  (forall base, ~ open_close a b base) -> pair_of a b = [].
Proof.
  destruct a as [ta la], b as [tb lb]. intros Hno. unfold pair_of. simpl.
  destruct (last la) as [ca|] eqn:Hla; [|done].
  destruct (last lb) as [cb|] eqn:Hlb; [|done].
  apply last_Some in Hla as [sa ->]. apply last_Some in Hlb as [sb ->].
  rewrite !but_last_snoc.
  destruct (str_eqb sa sb) eqn:Hs; [|done].
  destruct (ascii_eqb ca "1") eqn:H1; [|done].
  destruct (ascii_eqb cb "2") eqn:H2; [|done].
  apply bool_decide_eq_true_1 in Hs. apply ascii_eqb_eq in H1, H2. subst.
  exfalso. apply (Hno sb). now split.
Qed.

Lemma pair_of_cases a b :
  (exists base, open_close a b base) \/ (forall base, ~ open_close a b base).
Proof.
  destruct a as [ta la], b as [tb lb]. unfold open_close. simpl.
  destruct (last la) as [ca|] eqn:Hla.
  2: { right. intros base [-> _]. now rewrite last_snoc in Hla. }
  destruct (last lb) as [cb|] eqn:Hlb.
  2: { right. intros base [_ ->]. now rewrite last_snoc in Hlb. }
  apply last_Some in Hla as [sa ->]. apply last_Some in Hlb as [sb ->].
  destruct (decide (sa = sb /\ ca = "1"%char /\ cb = "2"%char)) as [(-> & -> & ->)|Hn].
  - left. now exists sb.
  - right. intros base [H1 H2].
    apply app_inj_tail in H1 as [-> ->]. apply app_inj_tail in H2 as [-> ->].
    now apply Hn.
Qed.

Lemma paired_pair_up ms : paired ms (pair_up ms).
Proof.
  induction ms as [| m | a b rest IH] using list_pair_ind; simpl;
    [constructor | constructor |].
  destruct (pair_of_cases a b) as [[base Hoc] | Hno].
  - rewrite (pair_of_open_close _ _ _ Hoc). simpl. now constructor.
  - rewrite (pair_of_not_open_close _ _ Hno). simpl. now constructor.
Qed.

Lemma paired_functional ms ivs : paired ms ivs -> ivs = pair_up ms.
Proof.
  induction 1 as [| m | a b base rest ivs Hoc _ IH | a b rest ivs Hno _ IH]; simpl.
  - done.
  - done.
  - rewrite (pair_of_open_close _ _ _ Hoc). simpl. now f_equal.
  - now rewrite (pair_of_not_open_close _ _ Hno).
Qed.

(** One turn of the loop on two markers with non-empty labels. *)
Lemma pair_step_spec annotations acc (i : nat) a b :
  annotations !! i = Some a -> annotations !! S i = Some b ->
  label a <> [] -> label b <> [] ->
  pair_step annotations acc (Z.of_nat i) = Ok (acc ++ pair_of a b).
Proof.
  intros Ha Hb Hla Hlb. unfold pair_step.
  pose proof (lookup_lt_Some _ _ _ Hb) as Hlt.
  assert ((Z.of_nat i + 1 <? Z.of_nat (length annotations)) = true) as -> by lia.
  rewrite (getitem_nat _ _ _ Ha). simpl.
  replace (Z.of_nat i + 1) with (Z.of_nat (S i)) by lia.
  rewrite (getitem_nat _ _ _ Hb). simpl.
  destruct a as [ta la], b as [tb lb]. simpl in *.
  apply snoc_of_nonempty in Hla as (sa & ca & ->).
  apply snoc_of_nonempty in Hlb as (sb & cb & ->).
  rewrite pair_of_snoc, !but_last_snoc, !last_char_snoc. simpl.
  destruct (str_eqb sa sb); simpl; [|now rewrite app_nil_r].
  destruct (ascii_eqb ca "1"); simpl; [|now rewrite app_nil_r].
  destruct (ascii_eqb cb "2"); simpl; [done | now rewrite app_nil_r].
Qed.

Lemma half_SS n : (S (S n) / 2 = S (n / 2))%nat.
Proof.
  replace (S (S n)) with (1 * 2 + n)%nat by lia. now rewrite Nat.div_add_l.
Qed.

Lemma py_range_evens (n : nat) :
  py_range 0 (Z.of_nat n - 1) 2 = evens 0 (n / 2).
Proof.
  unfold py_range, evens.
  replace (Z.of_nat n - 1 - 0 + 2 - 1) with (Z.of_nat n) by lia.
  replace (Z.to_nat (Z.of_nat n / 2)) with (n / 2)%nat
    by (rewrite <- (Nat2Z.id (n / 2)); f_equal; apply (Nat2Z.inj_div n 2)).
  apply map_ext. intros k. lia.
Qed.

Lemma pair_loop_spec ms : forall pre j acc,
  Forall (fun m => label m <> []) ms -> length pre = (2 * j)%nat ->
  pair_loop (pre ++ ms) acc (evens j (length ms / 2)) = Ok (acc ++ pair_up ms).
Proof.
  induction ms as [| m | a b rest IH] using list_pair_ind;
    intros pre j acc Hall Hpre.
  - simpl. now rewrite app_nil_r.
  - simpl. now rewrite app_nil_r.
  - apply Forall_cons in Hall as [Ha Hall]. apply Forall_cons in Hall as [Hb Hall].
    cbn [length]. rewrite half_SS. unfold evens. cbn [seq map pair_loop].
    replace (2 * Z.of_nat j) with (Z.of_nat (2 * j)) by lia.
    rewrite (pair_step_spec _ acc (2 * j) a b); try done.
    + cbn [bind]. replace (pre ++ a :: b :: rest) with ((pre ++ [a; b]) ++ rest)
        by now rewrite <- app_assoc.
      fold (evens (S j) (length rest / 2)).
      rewrite IH; [now rewrite <- app_assoc | done |].
      rewrite length_app. simpl. lia.
    + rewrite <- Hpre. apply list_lookup_middle. done.
    + rewrite <- Hpre. replace (pre ++ a :: b :: rest) with ((pre ++ [a]) ++ b :: rest)
        by now rewrite <- app_assoc.
      apply list_lookup_middle. rewrite length_app. simpl. lia.
Qed.

Lemma make_intervals_spec ms :
  Forall (fun m => label m <> []) ms -> make_intervals ms = Ok (pair_up ms).
Proof.
  intros Hall. unfold make_intervals. rewrite py_range_evens.
  now apply (pair_loop_spec ms [] 0%nat []).
Qed.

(** C1.  On a list of filtered markers (their labels are tokens of a line,
    hence not empty) the loader returns the intervals of the walk two at a
    time: the pair at an even position gives the interval from the first
    time to the second under the shared base label exactly when the labels
    are the base followed by ['1'] and the base followed by ['2'], and
    gives nothing otherwise. *)
Theorem pairing_correct (ms : list marker) :
  Forall (fun m => label m <> []) ms ->
  exists ivs,
    make_intervals ms = Ok ivs
    /\ paired ms ivs
    /\ (forall ivs', paired ms ivs' -> ivs' = ivs).
Proof.
  intros Hall. exists (pair_up ms).
  split; [now apply make_intervals_spec|].
  split; [apply paired_pair_up | apply paired_functional].
Qed.

Lemma pairing_correct_witness :
  (exists ivs,
     make_intervals [Marker 5 $"swd1"; Marker 9 $"swd2"] = Ok ivs
     /\ paired [Marker 5 $"swd1"; Marker 9 $"swd2"] ivs
     /\ ivs = [Interval (Int 5) (Int 9) $"swd"])
  /\ (exists ivs,
        make_intervals [Marker 5 $"swd1"; Marker 9 $"ds2"] = Ok ivs
        /\ paired [Marker 5 $"swd1"; Marker 9 $"ds2"] ivs
        /\ ivs = []).
Proof.
  split.
  - destruct (pairing_correct [Marker 5 $"swd1"; Marker 9 $"swd2"])
      as (ivs & Hmk & Hp & _).
    + repeat constructor; discriminate.
    + exists ivs. split; [exact Hmk|]. split; [exact Hp|].
      vm_compute in Hmk. now injection Hmk as <-.
  - destruct (pairing_correct [Marker 5 $"swd1"; Marker 9 $"ds2"])
      as (ivs & Hmk & Hp & _).
    + repeat constructor; discriminate.
    + exists ivs. split; [exact Hmk|]. split; [exact Hp|].
      vm_compute in Hmk. now injection Hmk as <-.
Defined.

(** The text of a file always loads: the markers kept by the reading loop
    have non-empty labels, so the pairing loop raises nothing. *)
Lemma load_annotations_total content :
  exists ms ivs,
    read_annotations (file_lines content) = Ok ms
    /\ load_annotations content = Ok ivs /\ paired ms ivs.
Proof.
  unfold load_annotations.
  pose proof (read_annotations_spec (file_lines content)) as Hms.
  set (ms := concat (map line_markers (file_lines content))) in Hms.
  exists ms, (pair_up ms). rewrite Hms. simpl.
  split; [done|]. split; [|apply paired_pair_up].
  apply make_intervals_spec. now apply read_annotations_label with (file_lines content).
Qed.

(** ** The marker left over *)

Lemma elem_of_evens i n :
  i ∈ evens 0 n <-> exists k, (k < n)%nat /\ i = 2 * Z.of_nat k.
Proof.
  unfold evens. rewrite list_elem_of_fmap. split.
  - intros (k & -> & Hk). apply elem_of_seq in Hk. exists k. split; [lia|done].
  - intros (k & Hk & ->). exists k. split; [done|]. apply elem_of_seq. lia.
Qed.

(** The indices visited by the pairing loop on a list of length [len]. *)
Lemma py_range_indices (len : nat) i :
  i ∈ py_range 0 (Z.of_nat len - 1) 2 <->
  (exists k, i = 2 * k) /\ 0 <= i /\ i + 1 < Z.of_nat len.
Proof.
  rewrite py_range_evens, elem_of_evens. split.
  - intros (k & Hk & ->). split; [now exists (Z.of_nat k)|].
    pose proof (Nat.Div0.mul_div_le len 2). lia.
  - intros ((k & ->) & H0 & Hlt). exists (Z.to_nat k). split; [|lia].
    assert (Z.to_nat k + 1 <= len / 2)%nat; [|lia].
    apply Nat.div_le_lower_bound; lia.
Qed.

Lemma getitem_app_l {A} (l extra : list A) i :
  0 <= i < Z.of_nat (length l) -> getitem (l ++ extra) i = getitem l i.
Proof.
  intros Hi. unfold getitem, norm_index. rewrite length_app.
  assert ((0 <=? i) && (i <? Z.of_nat (length l + length extra)) = true) as ->
    by (apply andb_true_iff; split; [apply Z.leb_le | apply Z.ltb_lt]; lia).
  assert ((0 <=? i) && (i <? Z.of_nat (length l)) = true) as ->
    by (apply andb_true_iff; split; [apply Z.leb_le | apply Z.ltb_lt]; lia).
  cbn [bind]. rewrite lookup_app_l by lia. done.
Qed.

Lemma pair_step_app ms extra acc i :
  0 <= i -> i + 1 < Z.of_nat (length ms) ->
  pair_step (ms ++ extra) acc i = pair_step ms acc i.
Proof.
  intros H0 Hlt. unfold pair_step. rewrite length_app.
  assert ((i + 1 <? Z.of_nat (length ms + length extra)) = true) as ->
    by (apply Z.ltb_lt; lia).
  assert ((i + 1 <? Z.of_nat (length ms)) = true) as -> by (apply Z.ltb_lt; lia).
  now rewrite !getitem_app_l by lia.
Qed.

Lemma pair_loop_app ms extra indices : forall acc,
  Forall (fun i => 0 <= i /\ i + 1 < Z.of_nat (length ms)) indices ->
  pair_loop (ms ++ extra) acc indices = pair_loop ms acc indices.
Proof.
  induction indices as [|i rest IH]; intros acc Hall; [done|].
  apply Forall_cons in Hall as [[H0 Hlt] Hall]. cbn [pair_loop].
  rewrite pair_step_app by done.
  destruct (pair_step ms acc i) as [acc'|e]; cbn [bind]; [now apply IH | done].
Qed.

(** C10.  On a marker list of odd length (an even-length list followed by
    one more marker) the loop visits only the even indices [i] with
    [i + 1] below the length, and the result, error or not, is the result
    on the list without its last marker: the last marker is never looked
    at and nothing is reported for it. *)
Theorem trailing_marker_ignored (ms : list marker) (m : marker) :
  Nat.Even (length ms) ->
  (forall i, i ∈ py_range 0 (Z.of_nat (length (ms ++ [m])) - 1) 2 <->
             (exists k, i = 2 * k) /\ 0 <= i
             /\ i + 1 < Z.of_nat (length (ms ++ [m])))
  /\ (forall i, i ∈ py_range 0 (Z.of_nat (length (ms ++ [m])) - 1) 2 ->
                i + 1 < Z.of_nat (length ms))
  /\ make_intervals (ms ++ [m]) = make_intervals ms.
Proof.
  intros [k Hk].
  assert (py_range 0 (Z.of_nat (length (ms ++ [m])) - 1) 2
          = py_range 0 (Z.of_nat (length ms) - 1) 2) as Hrange.
  { rewrite !py_range_evens, length_app, Hk. cbn [length]. f_equal.
    replace (2 * k + 1)%nat with (k * 2 + 1)%nat by lia.
    rewrite Nat.div_add_l by lia.
    replace (2 * k)%nat with (k * 2 + 0)%nat by lia.
    now rewrite Nat.div_add_l by lia. }
  split; [intros i; apply py_range_indices|].
  split.
  - intros i Hi. rewrite Hrange in Hi. apply py_range_indices in Hi. lia.
  - unfold make_intervals. rewrite Hrange. apply pair_loop_app.
    apply Forall_forall. intros i Hi. apply py_range_indices in Hi. lia.
Qed.

Lemma trailing_marker_ignored_witness :
  Nat.Even (length [Marker 5 $"swd1"; Marker 9 $"swd2"])
  /\ make_intervals [Marker 5 $"swd1"; Marker 9 $"swd2"; Marker 12 $"ds1"]
     = Ok [Interval (Int 5) (Int 9) $"swd"].
Proof.
  assert (Nat.Even (length [Marker 5 $"swd1"; Marker 9 $"swd2"])) as Heven
    by (exists 1%nat; reflexivity).
  split; [exact Heven|].
  destruct (trailing_marker_ignored [Marker 5 $"swd1"; Marker 9 $"swd2"]
              (Marker 12 $"ds1") Heven) as (_ & _ & Heq).
  etrans; [exact Heq | reflexivity].
Defined.

(** ** Saving and loading again *)

Lemma file_lines_from_LF cur r :
  file_lines_from cur (LF :: r) = rev (LF :: cur) :: file_lines_from [] r.
Proof. reflexivity. Qed.

Lemma file_lines_from_other c cur r :
  line_char c -> file_lines_from cur (c :: r) = file_lines_from (c :: cur) r.
Proof.
  intros [Hcr Hlf]. apply ascii_eqb_neq in Hcr, Hlf.
  cbn [file_lines_from]. now rewrite Hcr, Hlf.
Qed.

Lemma file_lines_from_line body : forall cur rest,
  Forall line_char body ->
  file_lines_from cur (body ++ LF :: rest)
  = (rev cur ++ body ++ [LF]) :: file_lines_from [] rest.
Proof.
  induction body as [|c body IH]; intros cur rest Hbody.
  - cbn [app]. now rewrite file_lines_from_LF.
  - apply Forall_cons in Hbody as [Hc Hbody]. cbn [app].
    rewrite file_lines_from_other by done. rewrite IH by done.
    simpl. now rewrite <- app_assoc.
Qed.

Lemma file_lines_terminated bodies :
  Forall (Forall line_char) bodies ->
  file_lines (concat (terminated bodies)) = terminated bodies.
Proof.
  unfold file_lines. induction bodies as [|b bodies IH]; intros Hall; [done|].
  apply Forall_cons in Hall as [Hb Hall]. simpl. rewrite <- app_assoc. simpl.
  rewrite file_lines_from_line by done. simpl. now rewrite IH.
Qed.

(** A map that respects concatenation can be pushed through the
    enumeration of a list. *)
Lemma hom_concat_imap {A B C} (F : list B -> list C)
    (f : nat -> A -> list B) (g : nat -> A -> list C) (l : list A) :
  F [] = [] -> (forall x y, F (x ++ y) = F x ++ F y) ->
  (forall i a, l !! i = Some a -> F (f i a) = g i a) ->
  F (concat (imap f l)) = concat (imap g l).
Proof.
  intros Hnil Happ. revert f g.
  induction l as [|a l IH]; intros f g Hfg; [done|].
  simpl. rewrite Happ, (Hfg 0%nat a) by done. f_equal.
  apply IH. intros i b Hi. now apply (Hfg (S i)).
Qed.

Lemma Forall_concat_imap {A B} (P : B -> Prop) (f : nat -> A -> list B) l :
  (forall i a, l !! i = Some a -> Forall P (f i a)) ->
  Forall P (concat (imap f l)).
Proof.
  revert f. induction l as [|a l IH]; intros f Hf; simpl; [constructor|].
  apply Forall_app_2; [now apply (Hf 0%nat) |].
  apply IH. intros i b Hi. now apply (Hf (S i)).
Qed.

Lemma not_space_line_char c : isspace c = false -> line_char c.
Proof.
  intros Hc. split; intros ->; discriminate Hc.
Qed.

Lemma spaces_line_char k : Forall line_char (spaces k).
Proof.
  apply Forall_forall. intros c Hc. apply elem_of_replicate in Hc as [-> _].
  split; discriminate.
Qed.

Lemma spaces_isspace k : Forall (fun c => isspace c = true) (spaces k).
Proof.
  apply Forall_forall. intros c Hc. now apply elem_of_replicate in Hc as [-> _].
Qed.

Lemma no_space_line_char s : no_space s -> Forall line_char s.
Proof. intros Hs. eapply Forall_impl; [exact Hs | apply not_space_line_char]. Qed.

Lemma decimal_no_space z : no_space (decimal z).
Proof.
  eapply Forall_impl; [apply decimal_chars|]. intros c Hc.
  now apply is_time_char_not_space, sign_digit_time_char.
Qed.

Lemma decimal_nonempty z : decimal z <> [].
Proof.
  unfold decimal. destruct (z <? 0); [done|].
  pose proof (digits_nonempty z). now destruct (digits z).
Qed.

Lemma time_text_no_space z : no_space (time_text z).
Proof.
  assert (forall x, no_space (padded_02 x)) as Hf.
  { intros x. eapply Forall_impl; [apply padded_02_chars|]. intros c Hc.
    now apply is_time_char_not_space, sign_digit_time_char. }
  unfold time_text.
  apply Forall_app_2; [apply Hf|]. constructor; [done|].
  apply Forall_app_2; [apply Hf|]. constructor; [done|]. apply Hf.
Qed.

Lemma time_text_nonempty z : time_text z <> [].
Proof.
  unfold time_text. intros H. now apply app_eq_nil in H as [_ ?].
Qed.

Lemma split_ws_spaces sp rest :
  Forall (fun c => isspace c = true) sp -> split_ws (sp ++ rest) = split_ws rest.
Proof.
  induction sp as [|c sp IH]; intros Hsp; [done|].
  apply Forall_cons in Hsp as [Hc Hsp]. simpl. rewrite split_ws_space by done.
  now apply IH.
Qed.

(** The tokens of a line made of three fields separated by blanks. *)
Lemma tokens_three t1 k1 t2 k2 t3 :
  t1 <> [] -> t2 <> [] -> t3 <> [] ->
  no_space t1 -> no_space t2 -> no_space t3 ->
  tokens (t1 ++ spaces (S k1) ++ t2 ++ spaces (S k2) ++ t3 ++ [LF])
  = [t1; t2; t3].
Proof.
  intros Hn1 Hn2 Hn3 Hs1 Hs2 Hs3. unfold tokens. rewrite split_ws_strip.
  unfold spaces. cbn [replicate app].
  rewrite split_ws_token by done. rewrite split_ws_spaces by apply spaces_isspace.
  rewrite split_ws_token by done. rewrite split_ws_spaces by apply spaces_isspace.
  rewrite split_ws_token by done. done.
Qed.

Lemma snoc_no_space s c : no_space s -> isspace c = false -> no_space (s ++ [c]).
Proof. intros Hs Hc. apply Forall_app_2; [done|]. now constructor. Qed.

Lemma line_markers_txt i p :
  writable p ->
  concat (map line_markers (terminated (txt_bodies i p))) = txt_markers p.
Proof.
  intros (Ha & Hb & Hd). unfold terminated, txt_bodies, txt_markers. cbn [map concat].
  unfold line_markers. rewrite <- !app_assoc.
  rewrite (app_assoc (t_label p) ["1"%char] [LF]).
  rewrite (app_assoc (t_label p) ["2"%char] [LF]).
  rewrite !tokens_three;
    try (apply decimal_nonempty || apply time_text_nonempty
         || apply decimal_no_space || apply time_text_no_space
         || (now apply snoc_no_space)
         || (intros H; now apply app_eq_nil in H as [_ ?])).
  now rewrite !time_text_round_trip by now apply short_hours.
Qed.

Lemma txt_bodies_line_char i p :
  no_space (t_label p) -> Forall (Forall line_char) (txt_bodies i p).
Proof.
  intros Hd.
  assert (forall t1 k1 t2 k2 c, no_space t1 -> no_space t2 -> line_char c ->
            Forall line_char
              (t1 ++ spaces k1 ++ t2 ++ spaces k2 ++ t_label p ++ [c]))
    as Hbody.
  { intros t1 k1 t2 k2 c H1 H2 Hc.
    apply Forall_app_2; [now apply no_space_line_char|].
    apply Forall_app_2; [apply spaces_line_char|].
    apply Forall_app_2; [now apply no_space_line_char|].
    apply Forall_app_2; [apply spaces_line_char|].
    apply Forall_app_2; [now apply no_space_line_char|].
    now constructor. }
  unfold txt_bodies.
  constructor; [|constructor; [|constructor]];
    (apply Hbody;
     [apply decimal_no_space | apply time_text_no_space
     | split; discriminate]).
Qed.

Lemma txt_text_bodies i p :
  concat (terminated (txt_bodies i p)) = txt_text i p.
Proof.
  unfold txt_text, txt_bodies, terminated. cbn [map concat].
  rewrite app_nil_r. now rewrite <- !app_assoc.
Qed.

Lemma pair_up_txt_markers ps :
  pair_up (concat (map txt_markers ps)) = map interval_of ps.
Proof.
  induction ps as [|p ps IH]; [done|].
  cbn [map concat]. unfold txt_markers at 1. cbn [app pair_up].
  rewrite pair_of_snoc. unfold str_eqb. rewrite bool_decide_eq_true_2 by done.
  simpl. now rewrite IH.
Qed.

(** The text of writable intervals loads back as these intervals. *)
Lemma load_txt_text ps :
  Forall writable ps ->
  load_annotations (concat (imap txt_text ps)) = Ok (map interval_of ps).
Proof.
  intros Hall. unfold load_annotations.
  set (bodies := concat (imap txt_bodies ps)).
  assert (concat (imap txt_text ps) = concat (terminated bodies)) as ->.
  { symmetry. unfold bodies.
    apply (hom_concat_imap (fun x => concat (terminated x))); [done | |].
    - intros x y. unfold terminated. now rewrite map_app, concat_app.
    - intros i r _. apply txt_text_bodies. }
  rewrite file_lines_terminated.
  2: { apply Forall_concat_imap. intros i p Hp. apply txt_bodies_line_char.
       rewrite Forall_forall in Hall.
       apply (Hall p). eapply list_elem_of_lookup_2, Hp. }
  rewrite read_annotations_spec. cbn [bind].
  assert (concat (map line_markers (terminated bodies))
          = concat (map txt_markers ps)) as ->.
  { rewrite <- (imap_const txt_markers).
    unfold bodies.
    apply (hom_concat_imap (fun x => concat (map line_markers (terminated x)))); [done | |].
    - intros x y. unfold terminated. now rewrite !map_app, concat_app.
    - intros i p Hp. apply line_markers_txt.
      rewrite Forall_forall in Hall. apply Hall.
      eapply list_elem_of_lookup_2, Hp. }
  rewrite make_intervals_spec; [now rewrite pair_up_txt_markers|].
  apply Forall_concat. apply Forall_forall. intros ms Hms.
  apply list_elem_of_fmap in Hms as (iv & -> & _).
  repeat constructor; simpl; intros H; now apply app_eq_nil in H as [_ ?].
Qed.

Lemma collect_imap_ok {A B} (f : nat -> A -> result B) (g : nat -> A -> B) l :
  (forall i a, l !! i = Some a -> f i a = Ok (g i a)) ->
  collect (imap f l) = Ok (imap g l).
Proof.
  revert f g. induction l as [|a l IH]; intros f g Hfg; [done|].
  simpl. rewrite (Hfg 0%nat a) by done. cbn [bind].
  rewrite (IH (f ∘ S) (g ∘ S)); [done|].
  intros i b Hi. now apply (Hfg (S i)).
Qed.

Lemma savable_plain iv :
  savable iv <-> exists p, iv = interval_of p /\ writable p.
Proof.
  split.
  - intros (a & b & Ha & Hb & Hsa & Hsb & Hd).
    exists (Plain a b (description iv)). split; [|done].
    destruct iv as [s e d]. simpl in *. now subst.
  - intros (p & -> & Ha & Hb & Hd). now exists (t_start p), (t_end p).
Qed.

Lemma values_plain h all :
  Forall (fun r => savable (cells h r)) all ->
  exists ps, values h all = map interval_of ps /\ Forall writable ps.
Proof.
  induction 1 as [|r all Hr _ (ps & Hps & Hall)]; [now exists []|].
  apply savable_plain in Hr as (p & Hp & Hw).
  exists (p :: ps). split; [simpl; now rewrite Hp, <- Hps | now constructor].
Qed.

Lemma repr_intervals_writable ps :
  Forall writable ps -> repr_intervals (map interval_of ps) = Ok tt.
Proof.
  intros Hall. unfold repr_intervals.
  assert (map repr_interval (map interval_of ps) = map Ok (map (fun _ => tt) ps))
    as ->.
  { rewrite !map_map. apply map_ext_Forall.
    eapply Forall_impl; [exact Hall|]. intros p (Ha & Hb & _).
    unfold repr_interval. cbn [interval_of start end_ repr_number].
    now rewrite !check_digits_short. }
  now rewrite collect_map_Ok.
Qed.

Lemma short_position i n :
  (i < n)%nat -> Z.of_nat n < limit -> short (Z.of_nat i + 1).
Proof. unfold short. lia. Qed.

Lemma txt_lines_writable i p :
  short (Z.of_nat i + 1) -> writable p ->
  txt_lines i (interval_of p) = Ok (txt_text i p).
Proof.
  intros Hi (Ha & Hb & _). unfold txt_lines. cbn [interval_of start end_ description].
  rewrite (seconds_to_time_Int _ (short_hours _ Ha)). cbn [bind].
  rewrite (seconds_to_time_Int _ (short_hours _ Hb)). cbn [bind].
  now rewrite (str_of_Z_short _ Hi).
Qed.

(** The text written for writable intervals. *)
Lemma save_writable h all ps :
  values h all = map interval_of ps -> Forall writable ps ->
  Z.of_nat (length all) < limit ->
  forall existing_intervals markup_intervals,
    all = existing_intervals ++ markup_intervals ->
    save_markup_to_file markup_intervals existing_intervals h
    = Ok (concat (imap txt_text ps)).
Proof.
  intros Hps Hall Hlen existing_intervals markup_intervals ->.
  unfold save_markup_to_file. rewrite Hps.
  rewrite (repr_intervals_writable _ Hall). cbn [bind].
  rewrite imap_fmap.
  rewrite (collect_imap_ok _ txt_text); [done|].
  intros i p Hp. cbn. apply txt_lines_writable.
  - apply (short_position i (length ps)); [now apply lookup_lt_Some in Hp|].
    assert (length ps = length (existing_intervals ++ markup_intervals)) as ->; [|done].
    apply (f_equal length) in Hps. unfold values in Hps.
    now rewrite !length_map in Hps.
  - rewrite Forall_forall in Hall. apply Hall. eapply list_elem_of_lookup_2, Hp.
Qed.

(** The text written for savable intervals loads back as them. *)
Lemma saved_reloads h existing_intervals markup_intervals :
  Forall (fun r => savable (cells h r)) (existing_intervals ++ markup_intervals) ->
  Z.of_nat (length (existing_intervals ++ markup_intervals)) < limit ->
  exists text,
    save_markup_to_file markup_intervals existing_intervals h = Ok text
    /\ load_annotations text
       = Ok (values h (existing_intervals ++ markup_intervals)).
Proof.
  intros Hall Hlen.
  destruct (values_plain h _ Hall) as (ps & Hps & Hw).
  exists (concat (imap txt_text ps)). split.
  - now apply (save_writable h (existing_intervals ++ markup_intervals)).
  - rewrite Hps. now apply load_txt_text.
Qed.

(** C3, amended.  When every interval holds an int start and an int end
    of at most [max_str_digits] digits and a description without
    whitespace, and the list has fewer than [limit] entries,
    [save_markup_to_file] writes a text, and this text loads back, through
    the line reading and the pairing of the loader, as the saved
    intervals: same start, end and description, in the same order. *)
Theorem save_load_round_trip (h : heap) (existing_intervals markup_intervals : list loc) :
  Forall (fun r => savable (cells h r)) (existing_intervals ++ markup_intervals) ->
  Z.of_nat (length (existing_intervals ++ markup_intervals)) < limit ->
  exists text,
    save_markup_to_file markup_intervals existing_intervals h = Ok text
    /\ load_annotations text
       = Ok (values h (existing_intervals ++ markup_intervals)).
Proof. apply saved_reloads. Qed.

Lemma savable_swd_ds r : savable (cells heap_swd_ds r).
Proof.
  unfold heap_swd_ds. cbn [cells].
  destruct (decide (r = 0%nat)).
  - exists 5, 9. repeat split; try (apply short_small; simpl; lia).
    repeat constructor.
  - exists 12, 20. repeat split; try (apply short_small; simpl; lia).
    repeat constructor.
Qed.

Lemma save_load_round_trip_witness :
  exists text,
    save_markup_to_file [1%nat] [0%nat] heap_swd_ds = Ok text
    /\ load_annotations text
       = Ok [Interval (Int 5) (Int 9) $"swd"; Interval (Int 12) (Int 20) $"ds"].
Proof.
  apply (save_load_round_trip heap_swd_ds [0%nat] [1%nat]).
  - repeat constructor; apply savable_swd_ds.
  - pose proof limit_large. simpl. lia.
Defined.

(** C3 as stated fails in three ways: a description with a blank is
    written as two tokens, the lines then have four tokens and are passed
    over; a start that is a float with a fraction is written without the
    fraction and loads back as another number; and with a start of more
    than [max_str_digits] digits nothing is written at all. *)
Lemma saved_intervals_not_reloaded :
  (save_markup_to_file [] [0%nat] heap_a_b
   = Ok ($"1  00:00:05  a b1" ++ [LF] ++ $"1  00:00:09    a b2" ++ [LF])
   /\ load_annotations
        ($"1  00:00:05  a b1" ++ [LF] ++ $"1  00:00:09    a b2" ++ [LF])
      = Ok []
   /\ values heap_a_b ([0%nat] ++ []) = [Interval (Int 5) (Int 9) $"a b"])
  /\ (save_markup_to_file [] [0%nat] heap_float
      = Ok ($"1  00:00:05  swd1" ++ [LF] ++ $"1  00:00:09    swd2" ++ [LF])
      /\ load_annotations
           ($"1  00:00:05  swd1" ++ [LF] ++ $"1  00:00:09    swd2" ++ [LF])
         = Ok [Interval (Int 5) (Int 9) $"swd"]
      /\ values heap_float ([0%nat] ++ [])
         = [Interval (Float 5.5) (Int 9) $"swd"])
  /\ save_markup_to_file [] [0%nat] heap_long = Raise ValueError
  /\ ~ (forall h existing_intervals markup_intervals,
          exists text,
            save_markup_to_file markup_intervals existing_intervals h = Ok text
            /\ load_annotations text
               = Ok (values h (existing_intervals ++ markup_intervals))).
Proof.
  assert (save_markup_to_file [] [0%nat] heap_a_b
          = Ok ($"1  00:00:05  a b1" ++ [LF] ++ $"1  00:00:09    a b2" ++ [LF]))
    as Hsave by (vm_compute; reflexivity).
  assert (load_annotations
            ($"1  00:00:05  a b1" ++ [LF] ++ $"1  00:00:09    a b2" ++ [LF])
          = Ok []) as Hload by (vm_compute; reflexivity).
  split; [split; [exact Hsave | split; [exact Hload | reflexivity]]|].
  split.
  { split; [vm_compute; reflexivity|]. split; [vm_compute; reflexivity|].
    reflexivity. }
  split.
  { unfold save_markup_to_file, repr_intervals, values, repr_interval.
    cbn [app map cells heap_long collect start end_ repr_number bind].
    rewrite check_digits_long; [done|]. pose proof limit_pos. lia. }
  intros H. destruct (H heap_a_b [0%nat] []) as (text & Hs & Hl).
  assert (Ok text = Ok ($"1  00:00:05  a b1" ++ [LF]
                         ++ $"1  00:00:09    a b2" ++ [LF])) as Heq
    by (now rewrite <- Hs, <- Hsave).
  assert (load_annotations text = Ok []) as Hnone
    by (injection Heq as ->; exact Hload).
  rewrite Hnone in Hl. discriminate Hl.
Qed.

(** ** Order of start and end *)

Lemma num_le_Int a b : num_le (Int a) (Int b) <-> a <= b.
Proof. unfold num_le. cbn [extended_of]. change (2 ^ (0 - Z.min 0 0)) with 1. lia. Qed.

Lemma ordered_Int a b d : ordered (Interval (Int a) (Int b) d) <-> a <= b.
Proof. apply num_le_Int. Qed.

Lemma pair_up_ordered ms :
  Forall ordered (pair_up ms) <->
  (forall k a b base,
      ms !! (2 * k)%nat = Some a -> ms !! S (2 * k) = Some b ->
      open_close a b base -> time a <= time b).
Proof.
  induction ms as [| m | a0 b0 rest IH] using list_pair_ind.
  - split; [|constructor]. intros _ k a b base Ha. done.
  - split; [|constructor]. intros _ k a b base _ Hb. done.
  - cbn [pair_up]. rewrite Forall_app, IH. split.
    + intros [H0 Hrest] k a b base Ha Hb Hoc. destruct k as [|k].
      * simpl in Ha, Hb. injection Ha as <-. injection Hb as <-.
        rewrite (pair_of_open_close _ _ _ Hoc) in H0.
        apply Forall_cons in H0 as [H0 _]. now apply ordered_Int in H0.
      * replace (2 * S k)%nat with (S (S (2 * k))) in Ha, Hb by lia.
        simpl in Ha, Hb. now apply (Hrest k a b base).
    + intros H. split.
      * destruct (pair_of_cases a0 b0) as [[base Hoc] | Hno].
        -- rewrite (pair_of_open_close _ _ _ Hoc). constructor; [|constructor].
           apply ordered_Int. now apply (H 0%nat a0 b0 base).
        -- rewrite (pair_of_not_open_close _ _ Hno). constructor.
      * intros k a b base Ha Hb Hoc. apply (H (S k) a b base); [| |done].
        -- now replace (2 * S k)%nat with (S (S (2 * k))) by lia.
        -- now replace (2 * S k)%nat with (S (S (2 * k))) by lia.
Qed.

(** C4, amended.  Nothing in the program compares a start with an end.
    The intervals emitted by the pairing all have start <= end exactly
    when, in every pair that is emitted, the time of the opening marker is
    at most the time of the closing one; [add_markup] appends a new
    interval object holding the given start, end and label, which has
    start <= end exactly when [start_time <= end_time]. *)
Theorem start_end_order (ms : list marker) (start_time end_time : number)
    (lab : str) (markup_intervals : list loc) (h : heap) :
  Forall (fun m => label m <> []) ms ->
  (exists ivs,
     make_intervals ms = Ok ivs
     /\ (Forall ordered ivs <->
         forall k a b base,
           ms !! (2 * k)%nat = Some a -> ms !! S (2 * k) = Some b ->
           open_close a b base -> time a <= time b))
  /\ (exists r h',
        add_markup start_time end_time lab markup_intervals h
        = (markup_intervals ++ [r], h')
        /\ cells h' r = Interval start_time end_time lab
        /\ (ordered (cells h' r) <-> num_le start_time end_time)).
Proof.
  intros Hall. split.
  - exists (pair_up ms). split; [now apply make_intervals_spec|].
    apply pair_up_ordered.
  - unfold add_markup, alloc. eexists _, _. split; [reflexivity|].
    cbn [cells]. rewrite decide_True by done. split; [done|]. done.
Qed.

Lemma start_end_order_witness :
  (exists ivs,
     make_intervals [Marker 5 $"swd1"; Marker 9 $"swd2"] = Ok ivs
     /\ Forall ordered ivs)
  /\ (exists r, (add_markup (Int 5) (Int 9) $"swd" [] heap_a_b).1 = [r]
                /\ ordered (cells (add_markup (Int 5) (Int 9) $"swd" []
                                     heap_a_b).2 r)).
Proof.
  destruct (start_end_order [Marker 5 $"swd1"; Marker 9 $"swd2"]
              (Int 5) (Int 9) $"swd"
              [] heap_a_b) as [(ivs & Hmk & Hord) (r & h' & Hadd & _ & Hr)].
  - repeat constructor; discriminate.
  - split.
    + exists ivs. split; [exact Hmk|]. apply Hord.
      intros [|[|k]] a b base Ha Hb _; [|discriminate Hb|discriminate Hb].
      injection Ha as <-. injection Hb as <-. simpl. lia.
    + exists r. rewrite Hadd. split; [done|]. apply Hr, num_le_Int. lia.
Defined.

(** C4 as stated fails: markers in decreasing time order pair into an
    interval whose start is after its end, and [add_markup] stores a start
    after the end as given. *)
Lemma decreasing_times_break_order :
  make_intervals [Marker 9 $"swd1"; Marker 5 $"swd2"]
  = Ok [Interval (Int 9) (Int 5) $"swd"]
  /\ ~ ordered (Interval (Int 9) (Int 5) $"swd")
  /\ (add_markup (Int 9) (Int 5) $"swd" [] heap_a_b).1 = [1%nat]
  /\ cells (add_markup (Int 9) (Int 5) $"swd" [] heap_a_b).2 1%nat
     = Interval (Int 9) (Int 5) $"swd"
  /\ ~ (forall ms ivs, make_intervals ms = Ok ivs -> Forall ordered ivs).
Proof.
  assert (~ ordered (Interval (Int 9) (Int 5) $"swd")) as Hno
    by (rewrite ordered_Int; lia).
  split; [reflexivity|]. split; [exact Hno|]. split; [reflexivity|].
  split; [reflexivity|].
  intros H.
  specialize (H [Marker 9 $"swd1"; Marker 5 $"swd2"]
                [Interval (Int 9) (Int 5) $"swd"] eq_refl).
  apply Forall_cons in H as [H _]. now apply Hno.
Qed.

(** ** Positions in the display list *)

Lemma norm_index_in_range n i :
  0 <= i < Z.of_nat n -> norm_index n i = Ok (Z.to_nat i).
Proof.
  intros Hi. unfold norm_index.
  assert ((0 <=? i) && (i <? Z.of_nat n) = true) as ->
    by (apply andb_true_iff; split; [apply Z.leb_le | apply Z.ltb_lt]; lia).
  done.
Qed.

Lemma norm_index_negative n i :
  - Z.of_nat n <= i < 0 -> norm_index n i = Ok (Z.to_nat (Z.of_nat n + i)).
Proof.
  intros Hi. unfold norm_index.
  assert ((0 <=? i) && (i <? Z.of_nat n) = false) as ->
    by (apply andb_false_iff; left; apply Z.leb_gt; lia).
  assert ((- Z.of_nat n <=? i) && (i <? 0) = true) as ->
    by (apply andb_true_iff; split; [apply Z.leb_le | apply Z.ltb_lt]; lia).
  done.
Qed.

Lemma norm_index_raise n i :
  norm_index n i = Raise IndexError <-> i < - Z.of_nat n \/ Z.of_nat n <= i.
Proof.
  unfold norm_index.
  destruct ((0 <=? i) && (i <? Z.of_nat n)) eqn:H1.
  - apply andb_true_iff in H1 as [H1 H2]. apply Z.leb_le in H1. apply Z.ltb_lt in H2.
    split; [discriminate | lia].
  - destruct ((- Z.of_nat n <=? i) && (i <? 0)) eqn:H2.
    + apply andb_true_iff in H2 as [H2 H3]. apply Z.leb_le in H2. apply Z.ltb_lt in H3.
      split; [discriminate | lia].
    + split; [|done]. intros _.
      apply andb_false_iff in H1 as [H1|H1], H2 as [H2|H2];
        rewrite ?Z.leb_gt, ?Z.ltb_ge in *; lia.
Qed.

Lemma norm_index_raise_only n i e : norm_index n i = Raise e -> e = IndexError.
Proof.
  unfold norm_index. destruct ((0 <=? i) && (i <? Z.of_nat n)); [discriminate|].
  destruct ((- Z.of_nat n <=? i) && (i <? 0)); [discriminate|]. now intros [= <-].
Qed.

Lemma norm_index_bound n i k : norm_index n i = Ok k -> (k < n)%nat.
Proof.
  unfold norm_index.
  destruct ((0 <=? i) && (i <? Z.of_nat n)) eqn:H1.
  - apply andb_true_iff in H1 as [H1 H2]. apply Z.leb_le in H1. apply Z.ltb_lt in H2.
    intros [= <-]. lia.
  - destruct ((- Z.of_nat n <=? i) && (i <? 0)) eqn:H2; [|discriminate].
    apply andb_true_iff in H2 as [H2 H3]. apply Z.leb_le in H2. apply Z.ltb_lt in H3.
    intros [= <-]. lia.
Qed.

Lemma getitem_norm {A} (l : list A) i :
  match norm_index (length l) i with
  | Ok k => exists x, l !! k = Some x /\ getitem l i = Ok x
  | Raise e => getitem l i = Raise e
  end.
Proof.
  unfold getitem. destruct (norm_index (length l) i) as [k|e] eqn:Hn; [|done].
  apply norm_index_bound in Hn. apply lookup_lt_is_Some_2 in Hn as [x Hx].
  exists x. cbn [bind]. now rewrite Hx.
Qed.

Lemma decimal_no_colon z : ":"%char ∉ decimal z.
Proof.
  intros Hin. pose proof (decimal_chars z) as Hall.
  rewrite Forall_forall in Hall. now apply (sign_digit_not_colon _ (Hall _ Hin)).
Qed.

Lemma bind_ok {A B} (c : result A) (k : A -> result B) b :
  (x <- c ;; k x) = Ok b <-> exists a, c = Ok a /\ k a = Ok b.
Proof.
  destruct c as [a|e]; cbn [bind].
  - split; [eauto | now intros (a' & [= <-] & H)].
  - split; [discriminate | now intros (a' & [=] & _)].
Qed.

Lemma bind_raise {A B} (c : result A) (k : A -> result B) e :
  (x <- c ;; k x) = Raise e <-> c = Raise e \/ exists a, c = Ok a /\ k a = Raise e.
Proof.
  destruct c as [a|e']; cbn [bind].
  - split; [eauto | now intros [[=] | (a' & [= <-] & H)]].
  - split; [intros [= ->]; now left | now intros [[= ->] | (a' & [=] & _)]].
Qed.

(** A display entry is its position, a colon and the rest. *)
Lemma choice_entry_rest i iv :
  choice_entry i iv
  = (pos <- str_of_Z (Z.of_nat i + 1) ;;
     rest <- entry_rest iv ;;
     Ok (pos ++ ":"%char :: rest)).
Proof.
  unfold choice_entry, entry_rest.
  destruct (str_of_Z _); cbn [bind]; [|done].
  destruct (seconds_to_time (start iv)); cbn [bind]; [|done].
  destruct (seconds_to_time (end_ iv)); cbn [bind]; done.
Qed.

Lemma choice_entry_ok i iv c :
  choice_entry i iv = Ok c <->
  short (Z.of_nat i + 1)
  /\ exists rest, entry_rest iv = Ok rest
                  /\ c = decimal (Z.of_nat i + 1) ++ ":"%char :: rest.
Proof.
  rewrite choice_entry_rest. split.
  - intros H. apply bind_ok in H as (pos & Hpos & H).
    apply str_of_Z_ok in Hpos as [Hshort ->].
    apply bind_ok in H as (rest & Hrest & [= <-]). eauto.
  - intros (Hshort & rest & Hrest & ->).
    rewrite (str_of_Z_short _ Hshort). cbn [bind]. now rewrite Hrest.
Qed.

(** The position written at the head of a display entry is read back by
    the selection. *)
Lemma selected_index_entry k rest :
  short (Z.of_nat k + 1) ->
  selected_index (decimal (Z.of_nat k + 1) ++ ":"%char :: rest) = Ok (Z.of_nat k).
Proof.
  intros Hshort. unfold selected_index.
  rewrite split_on_piece by apply decimal_no_colon.
  change (getitem (?t :: ?ts) 0) with (Ok (A:=str) t). cbn [bind].
  rewrite (int_of_str_decimal _ Hshort). cbn [bind]. f_equal. lia.
Qed.

Lemma selected_index_choice_entry k iv c :
  choice_entry k iv = Ok c -> selected_index c = Ok (Z.of_nat k).
Proof.
  intros H. apply choice_entry_ok in H as (Hshort & rest & _ & ->).
  now apply selected_index_entry.
Qed.







(** ** Selections outside the list *)

Ltac split_binds H :=
  repeat match type of H with
         | bind _ _ = Raise _ => apply bind_raise in H as [H | (? & _ & H)]
         end.

Lemma int_of_float_raise x e :
  int_of_float x = Raise e -> e = ValueError \/ e = OverflowError.
Proof.
  unfold int_of_float. destruct (Prim2SF x); intros [= <-]; auto.
Qed.

Lemma format_02_raise z e : format_02 z = Raise e -> e = ValueError.
Proof.
  unfold format_02. intros H. split_binds H; [|discriminate H].
  now apply check_digits_raise in H.
Qed.

Lemma str_of_Z_raise z e : str_of_Z z = Raise e -> e = ValueError.
Proof.
  unfold str_of_Z. intros H. split_binds H; [|discriminate H].
  now apply check_digits_raise in H.
Qed.

(** What the writing of a time can raise: [ValueError] for an int too
    long and for a NaN, [OverflowError] for an infinity, [TypeError] for
    [None]. *)
Lemma seconds_to_time_raise n e :
  seconds_to_time n = Raise e ->
  e = ValueError \/ e = OverflowError \/ e = TypeError.
Proof.
  destruct n as [z|x|].
  - destruct (seconds_to_time_Int_cases z) as [[_ ->] | [_ ->]]; [discriminate|].
    intros [= <-]. auto.
  - unfold seconds_to_time. cbn [floordiv modulo bind int_of_number].
    intros H. split_binds H;
      try (apply int_of_float_raise in H as [-> | ->]; now auto);
      try (apply format_02_raise in H as ->; now auto).
    discriminate H.
  - intros [= <-]. auto.
Qed.

Lemma choice_entry_raise i iv e :
  choice_entry i iv = Raise e ->
  e = ValueError \/ e = OverflowError \/ e = TypeError.
Proof.
  unfold choice_entry. intros H. split_binds H.
  - apply str_of_Z_raise in H as ->. auto.
  - now apply seconds_to_time_raise in H.
  - now apply seconds_to_time_raise in H.
  - discriminate H.
Qed.

Lemma entries_raise ivs e :
  entries ivs = Raise e ->
  e = ValueError \/ e = OverflowError \/ e = TypeError.
Proof.
  intros H. apply collect_raise, list_elem_of_lookup in H as (k & Hk).
  rewrite list_lookup_imap in Hk.
  destruct (ivs !! k) as [iv|]; [|discriminate].
  injection Hk as Hk. now apply choice_entry_raise in Hk.
Qed.

Lemma choices_no_index_error h l : choices h l <> Raise IndexError.
Proof.
  intros H. apply entries_raise in H as [H | [H | H]]; discriminate H.
Qed.

Lemma edit_markup_raise sel st en lab existing_intervals markup_intervals h i :
  selected_index sel = Ok i ->
  edit_markup sel st en lab existing_intervals markup_intervals h
  = (Raise IndexError, h)
  <-> i < - Z.of_nat (length (existing_intervals ++ markup_intervals))
      \/ Z.of_nat (length (existing_intervals ++ markup_intervals)) <= i.
Proof.
  intros Hsel. unfold edit_markup. rewrite Hsel. cbn [bind].
  rewrite <- norm_index_raise.
  pose proof (getitem_norm (existing_intervals ++ markup_intervals) i) as Hg.
  destruct (norm_index _ i) as [k|e] eqn:Hn.
  - destruct Hg as (x & _ & ->). split; [|discriminate].
    intros [= H _]. apply bind_raise in H as [H | (cs & _ & H)]; [|discriminate H].
    now apply choices_no_index_error in H.
  - rewrite Hg. apply norm_index_raise_only in Hn as ->. done.
Qed.

Lemma delete_markup_raise sel existing_intervals markup_intervals h i :
  selected_index sel = Ok i ->
  delete_markup sel existing_intervals markup_intervals h = Raise IndexError
  <-> i < - Z.of_nat (length (existing_intervals ++ markup_intervals))
      \/ Z.of_nat (length (existing_intervals ++ markup_intervals)) <= i.
Proof.
  intros Hsel. unfold delete_markup. rewrite Hsel. cbn [bind].
  rewrite <- norm_index_raise.
  destruct (norm_index _ i) as [k|e] eqn:Hn; cbn [bind].
  - split; [|discriminate].
    intros H. apply bind_raise in H as [H | (cs & _ & H)]; [|discriminate H].
    now apply choices_no_index_error in H.
  - apply norm_index_raise_only in Hn as ->. done.
Qed.

(** C8, amended.  With [n] the length of the concatenation and [i] the
    index derived from the selection, [edit_markup] and [delete_markup]
    raise [IndexError], leaving every interval as it was and returning no
    list, exactly when [i < -n] or [n <= i].  An index between [-n] and
    [-1] is a valid Python index and is accepted. *)
Theorem edit_delete_index_error (selected_interval : str)
    (start_time end_time : number) (lab : str)
    (existing_intervals markup_intervals : list loc) (h : heap) (i : Z) :
  selected_index selected_interval = Ok i ->
  (edit_markup selected_interval start_time end_time lab
               existing_intervals markup_intervals h
   = (Raise IndexError, h)
   <-> i < - Z.of_nat (length (existing_intervals ++ markup_intervals))
       \/ Z.of_nat (length (existing_intervals ++ markup_intervals)) <= i)
  /\ (delete_markup selected_interval existing_intervals markup_intervals h
      = Raise IndexError
      <-> i < - Z.of_nat (length (existing_intervals ++ markup_intervals))
          \/ Z.of_nat (length (existing_intervals ++ markup_intervals)) <= i).
Proof.
  intros Hsel. split;
    [now apply edit_markup_raise | now apply delete_markup_raise].
Qed.

Lemma edit_delete_index_error_witness :
  selected_index $"3: 00:00:05 - 00:00:09 (swd)" = Ok 2
  /\ edit_markup $"3: 00:00:05 - 00:00:09 (swd)" (Int 7) (Int 8) $"ds"
       [0%nat] [1%nat] heap_swd_ds
     = (Raise IndexError, heap_swd_ds)
  /\ delete_markup $"3: 00:00:05 - 00:00:09 (swd)" [0%nat] [1%nat] heap_swd_ds
     = Raise IndexError.
Proof.
  assert (selected_index $"3: 00:00:05 - 00:00:09 (swd)" = Ok 2) as Hsel
    by reflexivity.
  split; [exact Hsel|].
  destruct (edit_delete_index_error $"3: 00:00:05 - 00:00:09 (swd)"
              (Int 7) (Int 8) $"ds" [0%nat] [1%nat] heap_swd_ds 2 Hsel)
    as [Hedit Hdel].
  split; [apply Hedit | apply Hdel]; right; simpl; lia.
Defined.

(** C8 as stated fails: the selection numbered 0 gives the index -1, which
    is no position of a one-element sequence, and both operations act on
    the last interval instead of raising. *)
Lemma position_zero_wraps_around :
  selected_index $"0: 00:00:05 - 00:00:09 (swd)" = Ok (-1)
  /\ ~ (0 <= -1 < Z.of_nat (length ([0%nat] ++ [])))
  /\ (edit_markup $"0: 00:00:05 - 00:00:09 (swd)" (Int 7) (Int 8) $"ds"
        [0%nat] [] heap_swd_ds).1
     = Ok ([0%nat], [$"1: 00:00:07 - 00:00:08 (ds)"])
  /\ delete_markup $"0: 00:00:05 - 00:00:09 (swd)" [0%nat] [] heap_swd_ds
     = Ok ([], [])
  /\ ~ (forall sel st en lab existing_intervals markup_intervals h i,
          selected_index sel = Ok i ->
          ~ (0 <= i < Z.of_nat (length (existing_intervals ++ markup_intervals))) ->
          (edit_markup sel st en lab existing_intervals markup_intervals h).1
          = Raise IndexError
          /\ delete_markup sel existing_intervals markup_intervals h
             = Raise IndexError).
Proof.
  split; [reflexivity|]. split; [simpl; lia|]. split; [reflexivity|].
  split; [reflexivity|].
  intros H.
  destruct (H $"0: 00:00:05 - 00:00:09 (swd)" (Int 7) (Int 8) $"ds" [0%nat] []
              heap_swd_ds (-1) eq_refl ltac:(simpl; lia)) as [_ Hdel].
  vm_compute in Hdel. discriminate Hdel.
Qed.

(** ** Editing *)

Lemma cells_edited h r st en lab :
  cells (set_description (set_end (set_start h r st) r en) r lab) r
  = Interval st en lab.
Proof.
  unfold set_description, set_end, set_start, store. cbn [cells].
  now rewrite !decide_True by done.
Qed.

Lemma cells_not_edited h r r' st en lab :
  r' <> r ->
  cells (set_description (set_end (set_start h r st) r en) r lab) r'
  = cells h r'.
Proof.
  intros Hne. unfold set_description, set_end, set_start, store. cbn [cells].
  now rewrite !decide_False by done.
Qed.

(** When the dict at the selected position sits at no other position, the
    edit changes that position and no other. *)
Lemma edit_markup_frame sel st en lab existing_intervals markup_intervals h p r :
  1 <= p <= Z.of_nat (length (existing_intervals ++ markup_intervals)) ->
  selected_index sel = Ok (p - 1) ->
  (existing_intervals ++ markup_intervals) !! Z.to_nat (p - 1) = Some r ->
  exists h',
    edit_markup sel st en lab existing_intervals markup_intervals h
    = (interval_choices <- choices h' (existing_intervals ++ markup_intervals) ;;
       Ok (existing_intervals ++ markup_intervals, interval_choices), h')
    /\ cells h' r = Interval st en lab
    /\ (forall q r', (existing_intervals ++ markup_intervals) !! q = Some r' ->
                     r' <> r -> cells h' r' = cells h r').
Proof.
  intros Hp Hsel Hr. unfold edit_markup. rewrite Hsel. cbn [bind].
  assert (getitem (existing_intervals ++ markup_intervals) (p - 1) = Ok r) as ->.
  { rewrite <- (getitem_nat _ _ _ Hr). f_equal. lia. }
  eexists. split; [reflexivity|]. split; [apply cells_edited|].
  intros q r' _ Hne. now apply cells_not_edited.
Qed.

(** C9.  The claim does not hold of the code at the input the interface
    gives it: both handlers pass the one stored list as [existing_intervals]
    and as [markup_intervals], so every dict occurs twice in the
    concatenation, and editing position 1 of the list made from one
    interval also changes position 2. *)
Theorem edit_markup_changes_alias :
  let sel := $"1: 00:00:05 - 00:00:09 (swd)" in
  let stored := [0%nat] in
  let result := edit_markup sel (Int 7) (Int 8) $"ds" stored stored heap_swd_ds in
  selected_index sel = Ok 0
  /\ values heap_swd_ds (stored ++ stored)
     = [Interval (Int 5) (Int 9) $"swd"; Interval (Int 5) (Int 9) $"swd"]
  /\ result.1 = Ok ([0%nat; 0%nat],
                    [$"1: 00:00:07 - 00:00:08 (ds)"; $"2: 00:00:07 - 00:00:08 (ds)"])
  /\ values result.2 (stored ++ stored)
     = [Interval (Int 7) (Int 8) $"ds"; Interval (Int 7) (Int 8) $"ds"].
Proof. repeat split; reflexivity. Qed.

(** ** Sample runs *)

Example seconds_to_time_sample : seconds_to_time (Int 3725) = Ok $"01:02:05".
Proof. vm_compute. reflexivity. Qed.

Example seconds_to_time_wide : seconds_to_time (Int 360000) = Ok $"100:00:00".
Proof. vm_compute. reflexivity. Qed.

Example seconds_to_time_negative : seconds_to_time (Int (-1)) = Ok $"-1:59:59".
Proof. vm_compute. reflexivity. Qed.

(** On floats the fields are truncated by [int]: the fraction of the
    seconds is lost. *)
Example seconds_to_time_float : seconds_to_time (Float 5.5) = Ok $"00:00:05".
Proof. vm_compute. reflexivity. Qed.

Example seconds_to_time_float_minutes :
  seconds_to_time (Float 7199.5) = Ok $"01:59:59".
Proof. vm_compute. reflexivity. Qed.

Example seconds_to_time_float_negative :
  seconds_to_time (Float (-5.5)) = Ok $"-1:59:54".
Proof. vm_compute. reflexivity. Qed.

Example seconds_to_time_float_negative_zero :
  seconds_to_time (Float neg_zero) = Ok $"00:00:00".
Proof. vm_compute. reflexivity. Qed.

Example seconds_to_time_float_large :
  seconds_to_time (Float 0x1p60) = Ok $"320255973501901:56:16".
Proof. vm_compute. reflexivity. Qed.

Example seconds_to_time_float_huge :
  seconds_to_time (Float 1e22) = Ok $"2777777777777777664:46:40".
Proof. vm_compute. reflexivity. Qed.

(** The hours of an infinity are a NaN, and [int] refuses a NaN. *)
Example seconds_to_time_infinity :
  seconds_to_time (Float infinity) = Raise ValueError.
Proof. vm_compute. reflexivity. Qed.

Example seconds_to_time_nan : seconds_to_time (Float nan) = Raise ValueError.
Proof. vm_compute. reflexivity. Qed.

Example seconds_to_time_none : seconds_to_time NoNumber = Raise TypeError.
Proof. reflexivity. Qed.

Example int_of_float_infinity : int_of_float infinity = Raise OverflowError.
Proof. vm_compute. reflexivity. Qed.

Example time_to_seconds_sample : time_to_seconds $"01:02:05" = Ok 3725.
Proof. reflexivity. Qed.

Example time_to_seconds_two_fields : time_to_seconds $"02:05" = Raise ValueError.
Proof. reflexivity. Qed.

Example time_to_seconds_not_a_number :
  time_to_seconds $"01:xx:05" = Raise ValueError.
Proof. reflexivity. Qed.

Example int_of_str_blanks_and_underscore : int_of_str $" 1_0 " = Ok 10.
Proof. reflexivity. Qed.

Example int_of_str_double_underscore : int_of_str $"1__0" = Raise ValueError.
Proof. reflexivity. Qed.

Example int_of_str_longest :
  int_of_str (replicate 4300 "9"%char) = Ok (limit - 1)
  /\ int_of_str (replicate 4301 "9"%char) = Raise ValueError.
Proof. split; vm_compute; reflexivity. Qed.

Example tokens_sample :
  tokens ($"  1  00:00:05   swd1 " ++ [LF]) = [$"1"; $"00:00:05"; $"swd1"].
Proof. reflexivity. Qed.

Example file_lines_sample :
  file_lines ($"a b" ++ [CR; LF] ++ $"c" ++ [CR] ++ $"d" ++ [LF] ++ $"e")
  = [$"a b" ++ [LF]; $"c" ++ [LF]; $"d" ++ [LF]; $"e"].
Proof. reflexivity. Qed.

Example py_range_sample :
  py_range 0 (-1) 2 = [] /\ py_range 0 3 2 = [0; 2] /\ py_range 0 4 2 = [0; 2].
Proof. repeat split; reflexivity. Qed.

Example read_annotations_sample :
  read_annotations
    [$"1  00:00:05  swd1" ++ [LF]; $"garbage" ++ [LF];
     $"1  00:0x:09  swd2" ++ [LF]; $"1  00:00:09  swd2" ++ [LF]]
  = Ok [Marker 5 $"swd1"; Marker 9 $"swd2"].
Proof. reflexivity. Qed.

Example make_intervals_empty_labels :
  make_intervals [Marker 5 []; Marker 9 []] = Raise IndexError.
Proof. reflexivity. Qed.

Example save_markup_to_file_sample :
  save_markup_to_file [1%nat] [0%nat] heap_swd_ds
  = Ok ($"1  00:00:05  swd1" ++ [LF] ++ $"1  00:00:09    swd2" ++ [LF]
        ++ $"2  00:00:12  ds1" ++ [LF] ++ $"2  00:00:20    ds2" ++ [LF]).
Proof. vm_compute. reflexivity. Qed.

Example save_markup_to_file_none :
  save_markup_to_file [] [0%nat]
    (Heap (fun _ => Interval NoNumber (Int 9) $"swd") 1%nat)
  = Raise TypeError.
Proof. vm_compute. reflexivity. Qed.

Example load_edf_with_annotations_sample :
  load_edf_with_annotations
    ($"1  00:00:05  swd1" ++ [LF] ++ $"1  00:00:09  swd2" ++ [LF])
  = Loaded [Interval (Int 5) (Int 9) $"swd"]
           [$"1: 00:00:05 - 00:00:09 (swd)"] None.
Proof. vm_compute. reflexivity. Qed.

(** * Further properties *)

(** ** Time codec *)

(** X1.  [time_to_seconds] checks no range: whatever three integers of
    at most [max_str_digits] digits are written between the colons,
    minutes and seconds above 59 and negative numbers included, it returns
    [h * 3600 + m * 60 + s]. *)
Theorem time_to_seconds_any_fields (h m s : Z) :
  short h -> short m -> short s ->
  time_to_seconds (decimal h ++ ":"%char :: decimal m ++ ":"%char :: decimal s)
  = Ok (h * 3600 + m * 60 + s).
Proof.
  intros Hh Hm Hs. unfold time_to_seconds.
  rewrite !split_on_piece by apply decimal_no_colon.
  rewrite split_on_whole by apply decimal_no_colon.
  now rewrite !int_of_str_decimal.
Qed.

Lemma time_to_seconds_any_fields_witness :
  time_to_seconds $"-1:75:600" = Ok (-1 * 3600 + 75 * 60 + 600).
Proof.
  apply (time_to_seconds_any_fields (-1) 75 600);
    apply short_small; simpl; lia.
Defined.

(** X2.  Two different ints are never written as the same text. *)
Theorem seconds_to_time_injective (a b : Z) (text : str) :
  seconds_to_time (Int a) = Ok text -> seconds_to_time (Int b) = Ok text ->
  a = b.
Proof.
  intros Ha Hb. apply round_trip_written in Ha, Hb.
  rewrite Ha in Hb. now injection Hb.
Qed.

Lemma seconds_to_time_injective_witness :
  seconds_to_time (Int 59) = Ok $"00:00:59"
  /\ seconds_to_time (Int (60 - 1)) = Ok $"00:00:59"
  /\ 59 = 60 - 1.
Proof.
  assert (seconds_to_time (Int 59) = Ok $"00:00:59") as Ha
    by (vm_compute; reflexivity).
  assert (seconds_to_time (Int (60 - 1)) = Ok $"00:00:59") as Hb
    by (vm_compute; reflexivity).
  split; [exact Ha|]. split; [exact Hb|].
  exact (seconds_to_time_injective 59 (60 - 1) _ Ha Hb).
Defined.

Lemma padded_02_two_digits z :
  0 <= z < 100 -> padded_02 z = [digit_char (z / 10); digit_char (z mod 10)].
Proof.
  intros Hz. rewrite <- (Z2Nat.id z) by lia.
  assert (Z.to_nat z < 100)%nat as Hn by lia.
  generalize dependent (Z.to_nat z). clear z Hz. intros n Hn.
  do 100 (destruct n as [|n]; [reflexivity|]). lia.
Qed.

(** X3.  Below one hundred hours the text has the fixed shape [HH:MM:SS]:
    eight characters, two decimal digits per field, minutes and seconds
    below 60, and the fields add up to the number of seconds. *)
Theorem seconds_to_time_shape (s : Z) :
  0 <= s < 360000 ->
  exists hh mm ss,
    seconds_to_time (Int s)
    = Ok [digit_char (hh / 10); digit_char (hh mod 10); ":"%char;
          digit_char (mm / 10); digit_char (mm mod 10); ":"%char;
          digit_char (ss / 10); digit_char (ss mod 10)]
    /\ 0 <= hh < 100 /\ 0 <= mm < 60 /\ 0 <= ss < 60
    /\ s = hh * 3600 + mm * 60 + ss.
Proof.
  intros Hs. exists (s / 3600), ((s mod 3600) / 60), (s mod 60).
  pose proof (Z.mod_pos_bound s 3600 ltac:(lia)) as H1.
  pose proof (Z.mod_pos_bound s 60 ltac:(lia)) as H2.
  assert (0 <= s / 3600 < 100) as Hh
    by (split; [apply Z.div_pos; lia | apply Z.div_lt_upper_bound; lia]).
  assert (0 <= (s mod 3600) / 60 < 60) as Hm
    by (split; [apply Z.div_pos; lia | apply Z.div_lt_upper_bound; lia]).
  split.
  - rewrite seconds_to_time_Int by (apply short_small; lia).
    unfold time_text. now rewrite !padded_02_two_digits by lia.
  - repeat split; try lia.
    pose proof (Z.div_mod s 3600 ltac:(lia)).
    pose proof (Z.div_mod (s mod 3600) 60 ltac:(lia)).
    assert (s mod 60 = (s mod 3600) mod 60) as Hmm
      by (symmetry; apply Z.mod_mod_divide; now exists 60).
    lia.
Qed.

Lemma seconds_to_time_shape_witness :
  0 <= 86399 < 360000
  /\ exists hh mm ss,
       seconds_to_time (Int 86399)
       = Ok [digit_char (hh / 10); digit_char (hh mod 10); ":"%char;
             digit_char (mm / 10); digit_char (mm mod 10); ":"%char;
             digit_char (ss / 10); digit_char (ss mod 10)]
       /\ 0 <= hh < 100 /\ 0 <= mm < 60 /\ 0 <= ss < 60
       /\ 86399 = hh * 3600 + mm * 60 + ss.
Proof.
  assert (0 <= 86399 < 360000) as H by lia.
  split; [exact H|]. exact (seconds_to_time_shape 86399 H).
Defined.

(** ** Pairing *)

Lemma getitem_raise {A} (l : list A) i e : getitem l i = Raise e -> e = IndexError.
Proof.
  pose proof (getitem_norm l i) as Hg.
  destruct (norm_index (length l) i) as [k|e'] eqn:Hn.
  - destruct Hg as (x & _ & ->). discriminate.
  - rewrite Hg. intros [= <-]. now apply norm_index_raise_only in Hn.
Qed.

Lemma pair_step_cases annotations acc i :
  pair_step annotations acc i = Raise IndexError
  \/ pair_step annotations acc i = Ok acc
  \/ exists iv, pair_step annotations acc i = Ok (acc ++ [iv]).
Proof.
  unfold pair_step, last_char.
  destruct (i + 1 <? Z.of_nat (length annotations)); [|auto].
  destruct (getitem annotations i) as [a|e] eqn:Ha; cbn [bind];
    [|apply getitem_raise in Ha as ->; auto].
  destruct (getitem annotations (i + 1)) as [b|e] eqn:Hb; cbn [bind];
    [|apply getitem_raise in Hb as ->; auto].
  destruct (str_eqb _ _); [|auto].
  destruct (getitem (label a) (-1)) as [c1|e] eqn:H1; cbn [bind];
    [|apply getitem_raise in H1 as ->; auto].
  destruct (ascii_eqb c1 "1"); [|auto].
  destruct (getitem (label b) (-1)) as [c2|e] eqn:H2; cbn [bind];
    [|apply getitem_raise in H2 as ->; auto].
  destruct (ascii_eqb c2 "2"); eauto.
Qed.

Lemma pair_loop_raise annotations indices : forall acc e,
  pair_loop annotations acc indices = Raise e -> e = IndexError.
Proof.
  induction indices as [|i rest IH]; intros acc e; cbn [pair_loop]; [discriminate|].
  destruct (pair_step_cases annotations acc i) as [-> | [-> | [iv ->]]]; cbn [bind].
  - now intros [= <-].
  - apply IH.
  - apply IH.
Qed.

Lemma pair_loop_length annotations indices : forall acc ivs,
  pair_loop annotations acc indices = Ok ivs ->
  (length ivs <= length acc + length indices)%nat.
Proof.
  induction indices as [|i rest IH]; intros acc ivs; cbn [pair_loop].
  - intros [= <-]. simpl. lia.
  - destruct (pair_step_cases annotations acc i) as [-> | [-> | [iv ->]]]; cbn [bind].
    + discriminate.
    + intros H. apply IH in H. simpl. lia.
    + intros H. apply IH in H. rewrite length_app in H. simpl in *. lia.
Qed.

(** X4.  The pairing loop can only fail with [IndexError], and only when
    some marker has an empty label (the loop then asks for the last
    character of an empty string). *)
Theorem make_intervals_failure (ms : list marker) (e : exn) :
  make_intervals ms = Raise e ->
  e = IndexError /\ exists m, m ∈ ms /\ label m = [].
Proof.
  intros Hfail. split; [now apply pair_loop_raise in Hfail|].
  destruct (decide (Forall (fun m => label m <> []) ms)) as [Hall|Hno].
  - rewrite make_intervals_spec in Hfail by done. discriminate.
  - apply not_Forall_Exists in Hno; [|intros m; apply _].
    apply Exists_exists in Hno as (m & Hm & Hlab).
    exists m. split; [done|]. simpl in Hlab.
    destruct (label m); [done|]. exfalso. now apply Hlab.
Qed.

Lemma make_intervals_failure_witness :
  make_intervals [Marker 5 []; Marker 9 []] = Raise IndexError
  /\ exists m, m ∈ [Marker 5 []; Marker 9 []] /\ label m = [].
Proof.
  assert (make_intervals [Marker 5 []; Marker 9 []] = Raise IndexError) as H
    by reflexivity.
  split; [exact H|]. exact (proj2 (make_intervals_failure _ _ H)).
Defined.

(** X6.  The pairing emits at most one interval for two markers. *)
Theorem make_intervals_length (ms : list marker) (ivs : list interval) :
  make_intervals ms = Ok ivs -> (2 * length ivs <= length ms)%nat.
Proof.
  unfold make_intervals. rewrite py_range_evens. intros H.
  apply pair_loop_length in H. unfold evens in H.
  rewrite length_map, length_seq in H. cbn [length] in H.
  pose proof (Nat.Div0.mul_div_le (length ms) 2). lia.
Qed.

Lemma make_intervals_length_witness :
  make_intervals [Marker 5 $"swd1"; Marker 9 $"swd2"; Marker 12 $"ds1"]
  = Ok [Interval (Int 5) (Int 9) $"swd"]
  /\ (2 * length [Interval (Int 5) (Int 9) $"swd"] <= 3)%nat.
Proof.
  assert (make_intervals [Marker 5 $"swd1"; Marker 9 $"swd2"; Marker 12 $"ds1"]
          = Ok [Interval (Int 5) (Int 9) $"swd"]) as H by reflexivity.
  split; [exact H|]. exact (make_intervals_length _ _ H).
Defined.

Lemma pair_of_second_open a b x : label b = x ++ ["1"%char] -> pair_of a b = [].
Proof.
  intros Hb. unfold pair_of. rewrite Hb, last_snoc.
  destruct (last (label a)); [|done].
  now rewrite andb_false_r.
Qed.

Lemma pair_up_shifted ps : forall m,
  pair_up (m :: concat (map txt_markers ps)) = [].
Proof.
  induction ps as [|p ps IH]; intros m; [done|].
  cbn [map concat]. unfold txt_markers at 1. cbn [app pair_up].
  rewrite (pair_of_second_open m _ (t_label p)) by done.
  apply IH.
Qed.

(** X5.  The pairing does not resynchronise.  A well-formed sequence of
    opening and closing markers pairs into its intervals, but with one
    more marker in front every pair is made of a closing marker followed
    by an opening one and no interval at all is emitted. *)
Theorem stray_marker_loses_all (m : marker) (ps : list plain) :
  label m <> [] ->
  make_intervals (concat (map txt_markers ps)) = Ok (map interval_of ps)
  /\ make_intervals (m :: concat (map txt_markers ps)) = Ok [].
Proof.
  intros Hm.
  assert (Forall (fun m0 => label m0 <> []) (concat (map txt_markers ps))) as Hall.
  { apply Forall_concat, Forall_forall. intros ms Hms.
    apply list_elem_of_fmap in Hms as (iv & -> & _).
    repeat constructor; simpl; intros H; now apply app_eq_nil in H as [_ ?]. }
  split.
  - rewrite make_intervals_spec by done. now rewrite pair_up_txt_markers.
  - rewrite make_intervals_spec by now constructor. now rewrite pair_up_shifted.
Qed.

Lemma stray_marker_loses_all_witness :
  make_intervals [Marker 5 $"swd1"; Marker 9 $"swd2"; Marker 12 $"ds1"; Marker 20 $"ds2"]
  = Ok [Interval (Int 5) (Int 9) $"swd"; Interval (Int 12) (Int 20) $"ds"]
  /\ make_intervals [Marker 1 $"is2"; Marker 5 $"swd1"; Marker 9 $"swd2";
                     Marker 12 $"ds1"; Marker 20 $"ds2"]
     = Ok [].
Proof.
  apply (stray_marker_loses_all (Marker 1 $"is2")
           [Plain 5 9 $"swd"; Plain 12 20 $"ds"]).
  discriminate.
Defined.

(** ** Loading *)

Lemma removelast_Forall {A} (P : A -> Prop) (l : list A) :
  Forall P l -> Forall P (removelast l).
Proof.
  destruct l as [|x l] using rev_ind; [done|].
  rewrite removelast_last. intros H. now apply Forall_app in H as [? _].
Qed.

Lemma rev_no_space s : no_space s -> no_space (rev s).
Proof.
  unfold no_space. rewrite !Forall_forall. intros H c Hc. apply H.
  now apply list_elem_of_In, in_rev, list_elem_of_In.
Qed.

Lemma split_ws_from_no_space s : forall cur,
  no_space cur -> Forall no_space (split_ws_from cur s).
Proof.
  assert (forall cur, no_space cur -> Forall no_space (flush cur)) as Hflush.
  { intros [|c cur] Hcur; [constructor|]. constructor; [|constructor].
    now apply rev_no_space. }
  induction s as [|c r IH]; intros cur Hcur; simpl; [now apply Hflush|].
  destruct (isspace c) eqn:Hc.
  - apply Forall_app_2; [now apply Hflush | apply IH; constructor].
  - apply IH. now constructor.
Qed.

Lemma line_markers_no_space line :
  Forall (fun m => no_space (label m)) (line_markers line).
Proof.
  unfold line_markers, tokens, split_ws.
  pose proof (split_ws_from_no_space (strip line) [] ltac:(constructor)) as Hns.
  destruct (split_ws_from [] (strip line)) as [|idx [|tm [|lab [|? ?]]]];
    try constructor.
  destruct (time_to_seconds tm); constructor; [|constructor].
  simpl. apply Forall_cons in Hns as [_ Hns]. apply Forall_cons in Hns as [_ Hns].
  now apply Forall_cons in Hns as [? _].
Qed.

Lemma pair_up_no_space ms :
  Forall (fun m => no_space (label m)) ms ->
  Forall (fun iv => no_space (description iv)) (pair_up ms).
Proof.
  induction ms as [| m | a b rest IH] using list_pair_ind; intros Hall;
    [constructor | constructor |].
  apply Forall_cons in Hall as [Ha Hall]. apply Forall_cons in Hall as [Hb Hall].
  cbn [pair_up]. apply Forall_app_2; [|now apply IH].
  unfold pair_of. destruct (last (label a)); [|constructor].
  destruct (last (label b)); [|constructor].
  destruct (_ && _); constructor; [|constructor].
  simpl. now apply removelast_Forall.
Qed.

Lemma load_annotations_no_space content ivs :
  load_annotations content = Ok ivs ->
  Forall (fun iv => no_space (description iv)) ivs.
Proof.
  unfold load_annotations. rewrite read_annotations_spec. cbn [bind].
  set (ms := concat (map line_markers (file_lines content))).
  assert (Forall (fun m => label m <> []) ms) as Hne
    by (apply (read_annotations_label (file_lines content)),
          read_annotations_spec).
  rewrite make_intervals_spec by done. intros [= <-].
  apply pair_up_no_space. apply Forall_concat, Forall_forall.
  intros l Hl. apply list_elem_of_fmap in Hl as (line & -> & _).
  apply line_markers_no_space.
Qed.

Lemma pair_up_int_times ms :
  Forall (fun iv => exists a b, start iv = Int a /\ end_ iv = Int b) (pair_up ms).
Proof.
  induction ms as [| m | a b rest IH] using list_pair_ind;
    [constructor | constructor |].
  cbn [pair_up]. apply Forall_app_2; [|exact IH].
  unfold pair_of. destruct (last (label a)); [|constructor].
  destruct (last (label b)); [|constructor].
  destruct (_ && _); constructor; [|constructor]. simpl. eauto.
Qed.

Lemma load_annotations_int_times content ivs :
  load_annotations content = Ok ivs ->
  Forall (fun iv => exists a b, start iv = Int a /\ end_ iv = Int b) ivs.
Proof.
  unfold load_annotations. rewrite read_annotations_spec. cbn [bind].
  set (ms := concat (map line_markers (file_lines content))).
  assert (Forall (fun m => label m <> []) ms) as Hne
    by (apply (read_annotations_label (file_lines content)),
          read_annotations_spec).
  rewrite make_intervals_spec by done. intros [= <-].
  apply pair_up_int_times.
Qed.

Lemma repr_intervals_ok ivs :
  repr_intervals ivs = Ok tt <-> Forall (fun iv => repr_interval iv = Ok tt) ivs.
Proof.
  unfold repr_intervals. split.
  - intros H. apply bind_ok in H as (xs & H & _). apply collect_ok in H.
    apply Forall_forall. intros iv Hiv.
    apply list_elem_of_lookup in Hiv as (k & Hk).
    apply (f_equal (fun l => l !! k)) in H.
    rewrite !list_lookup_fmap, Hk in H. simpl in H.
    destruct (xs !! k) as [[]|]; [|discriminate H]. now injection H.
  - intros Hall.
    assert (map repr_interval ivs = map Ok (map (fun _ => tt) ivs)) as ->.
    { rewrite map_map. now apply map_ext_Forall. }
    now rewrite collect_map_Ok.
Qed.

Lemma repr_interval_raise iv e : repr_interval iv = Raise e -> e = ValueError.
Proof.
  unfold repr_interval, repr_number. intros H. split_binds H.
  - destruct (start iv); try discriminate H. now apply check_digits_raise in H.
  - destruct (end_ iv); try discriminate H. now apply check_digits_raise in H.
Qed.

Lemma repr_intervals_raise ivs e : repr_intervals ivs = Raise e -> e = ValueError.
Proof.
  unfold repr_intervals. intros H. split_binds H; [|discriminate H].
  apply collect_raise, list_elem_of_fmap in H as (iv & H & _).
  symmetry in H. now apply repr_interval_raise in H.
Qed.

Lemma repr_interval_Int a b d :
  repr_interval (Interval (Int a) (Int b) d) = Ok tt <-> short a /\ short b.
Proof.
  unfold repr_interval. cbn [start end_ repr_number]. split.
  - destruct (check_digits_cases a) as [[Ha ->] | [_ ->]]; [|discriminate].
    cbn [bind].
    destruct (check_digits_cases b) as [[Hb ->] | [_ ->]]; [|discriminate].
    done.
  - intros [Ha Hb]. now rewrite !check_digits_short.
Qed.

(** Intervals with int times and descriptions without whitespace are
    savable exactly when their conversion to text does not raise. *)
Lemma savable_repr ivs :
  Forall (fun iv => exists a b, start iv = Int a /\ end_ iv = Int b) ivs ->
  Forall (fun iv => no_space (description iv)) ivs ->
  repr_intervals ivs = Ok tt <-> Forall savable ivs.
Proof.
  intros Hint Hns. rewrite repr_intervals_ok.
  rewrite !Forall_forall in *. split.
  - intros Hrepr iv Hiv. destruct (Hint iv Hiv) as (a & b & Ha & Hb).
    specialize (Hrepr iv Hiv). destruct iv as [s e d]. simpl in *. subst.
    apply repr_interval_Int in Hrepr as [Hsa Hsb].
    exists a, b. repeat split; try done. now apply (Hns _ Hiv).
  - intros Hsav iv Hiv. destruct (Hsav iv Hiv) as (a & b & Ha & Hb & Hsa & Hsb & _).
    destruct iv as [s e d]. simpl in *. subst. now apply repr_interval_Int.
Qed.

Lemma entry_rest_savable iv : savable iv -> exists rest, entry_rest iv = Ok rest.
Proof.
  intros (a & b & Ha & Hb & Hsa & Hsb & _). unfold entry_rest. rewrite Ha, Hb.
  rewrite (seconds_to_time_Int _ (short_hours _ Hsa)). cbn [bind].
  rewrite (seconds_to_time_Int _ (short_hours _ Hsb)). cbn [bind]. eauto.
Qed.

Lemma entries_lookup ivs cs k iv :
  entries ivs = Ok cs -> ivs !! k = Some iv ->
  exists c, cs !! k = Some c /\ choice_entry k iv = Ok c.
Proof.
  intros H Hk.
  destruct (collect_lookup _ _ k (choice_entry k iv) H) as (c & Hc & Hcs).
  - now rewrite list_lookup_imap, Hk.
  - eauto.
Qed.

Lemma entries_length ivs cs : entries ivs = Ok cs -> length cs = length ivs.
Proof. intros H. apply collect_length in H. now rewrite length_imap in H. Qed.

(** The display list of savable intervals is made exactly when the last
    position can be written. *)
Lemma entries_savable ivs :
  Forall savable ivs ->
  (exists cs, entries ivs = Ok cs) <-> Z.of_nat (length ivs) < limit.
Proof.
  intros Hsav. split.
  - intros (cs & Hcs). destruct ivs as [|iv0 ivs'] using rev_ind;
      [apply limit_pos|].
    clear IHivs'.
    destruct (entries_lookup _ _ (length ivs') iv0 Hcs) as (c & _ & Hc);
      [now rewrite lookup_app_r, Nat.sub_diag by lia|].
    apply choice_entry_ok in Hc as [Hshort _].
    rewrite length_app. simpl. unfold short in Hshort. lia.
  - intros Hlen. apply collect_all_ok, Forall_forall. intros c Hc.
    apply list_elem_of_lookup in Hc as (k & Hk).
    rewrite list_lookup_imap in Hk.
    destruct (ivs !! k) as [iv|] eqn:Hiv; [|discriminate].
    injection Hk as <-.
    rewrite Forall_forall in Hsav.
    destruct (entry_rest_savable iv) as (rest & Hrest);
      [apply Hsav; eapply list_elem_of_lookup_2, Hiv|].
    eexists. apply choice_entry_ok. split; [|eauto].
    apply (short_position k (length ivs)); [|done].
    now apply lookup_lt_Some in Hiv.
Qed.

Lemma entries_savable_raise ivs e :
  Forall savable ivs -> entries ivs = Raise e -> e = ValueError.
Proof.
  intros Hsav H. apply collect_raise, list_elem_of_lookup in H as (k & Hk).
  rewrite list_lookup_imap in Hk.
  destruct (ivs !! k) as [iv|] eqn:Hiv; [|discriminate].
  injection Hk as Hk.
  rewrite Forall_forall in Hsav.
  destruct (entry_rest_savable iv) as (rest & Hrest);
    [apply Hsav; eapply list_elem_of_lookup_2, Hiv|].
  rewrite choice_entry_rest, Hrest in Hk. split_binds Hk; try discriminate Hk.
  now apply str_of_Z_raise in Hk.
Qed.

(** What the load returns, by cases on the intervals of the file. *)
Lemma load_edf_with_annotations_cases content :
  exists ivs,
    load_annotations content = Ok ivs
    /\ Forall (fun iv => exists a b, start iv = Int a /\ end_ iv = Int b) ivs
    /\ Forall (fun iv => no_space (description iv)) ivs
    /\ ((Forall savable ivs /\ Z.of_nat (length ivs) < limit)
        /\ (exists cs,
              entries ivs = Ok cs
              /\ load_edf_with_annotations content = Loaded ivs cs None)
        \/ ~ (Forall savable ivs /\ Z.of_nat (length ivs) < limit)
           /\ load_edf_with_annotations content = Loaded [] [] (Some ValueError)).
Proof.
  destruct (load_annotations_total content) as (ms & ivs & _ & Hload & _).
  exists ivs. split; [exact Hload|].
  pose proof (load_annotations_int_times _ _ Hload) as Hint.
  pose proof (load_annotations_no_space _ _ Hload) as Hns.
  split; [exact Hint|]. split; [exact Hns|].
  unfold load_edf_with_annotations. rewrite Hload. cbn [bind].
  destruct (repr_intervals ivs) as [[]|e] eqn:Hrepr; cbn [bind].
  - apply (savable_repr _ Hint Hns) in Hrepr as Hsav.
    destruct (entries ivs) as [cs|e] eqn:Hcs; cbn [bind].
    + left. split; [|eauto]. split; [exact Hsav|].
      apply (entries_savable _ Hsav). eauto.
    + right. apply (entries_savable_raise _ _ Hsav) in Hcs as He. subst e.
      split; [|done]. intros [_ Hlen].
      apply (entries_savable _ Hsav) in Hlen as (cs & Hok). congruence.
  - right. apply repr_intervals_raise in Hrepr as He. subst e.
    split; [|done]. intros [Hsav _].
    apply (savable_repr _ Hint Hns) in Hsav. congruence.
Qed.

(** X7.  Whatever the text of the annotation file, reading and pairing
    give a list of intervals.  The load reports no error exactly when all
    of them are savable (times of at most [max_str_digits] digits) and
    fewer than [limit]; it then returns them with one display entry each.
    In every other case it reports a [ValueError], raised by a conversion
    of an int to text, and returns no interval and no entry. *)
Theorem load_edf_with_annotations_result (content : str) :
  exists ivs,
    load_annotations content = Ok ivs
    /\ (error (load_edf_with_annotations content) = None
        <-> Forall savable ivs /\ Z.of_nat (length ivs) < limit)
    /\ (error (load_edf_with_annotations content) = None ->
        intervals (load_edf_with_annotations content) = ivs
        /\ entries ivs = Ok (interval_choices (load_edf_with_annotations content))
        /\ length (interval_choices (load_edf_with_annotations content))
           = length ivs)
    /\ (error (load_edf_with_annotations content) <> None ->
        load_edf_with_annotations content = Loaded [] [] (Some ValueError)).
Proof.
  destruct (load_edf_with_annotations_cases content)
    as (ivs & Hload & _ & _ & [[Hgood (cs & Hcs & ->)] | [Hbad ->]]);
    exists ivs; (split; [exact Hload|]); cbn [error intervals interval_choices].
  - split; [done|]. split; [|done]. intros _. split; [done|]. split; [done|].
    now apply entries_length.
  - split; [split; [discriminate | intros H; now apply Hbad in H]|].
    split; [discriminate | done].
Qed.

(** A time of [max_str_digits] nines for the hours is read, and the
    interval it gives cannot be printed: the load ends in the handler of
    line 79. *)
Example load_edf_with_annotations_long_time :
  load_edf_with_annotations
    ($"1 " ++ replicate 4300 "9"%char ++ $":00:00 swd1" ++ [LF]
     ++ $"1 00:00:09 swd2" ++ [LF])
  = Loaded [] [] (Some ValueError).
Proof.
  destruct (load_edf_with_annotations_cases
              ($"1 " ++ replicate 4300 "9"%char ++ $":00:00 swd1" ++ [LF]
               ++ $"1 00:00:09 swd2" ++ [LF]))
    as (ivs & Hload & _ & _ & [[[Hsav _] _] | [_ ->]]); [|reflexivity].
  exfalso.
  assert (load_annotations
            ($"1 " ++ replicate 4300 "9"%char ++ $":00:00 swd1" ++ [LF]
             ++ $"1 00:00:09 swd2" ++ [LF])
          = Ok [Interval (Int ((limit - 1) * 3600)) (Int 9) $"swd"]) as Hrun
    by (vm_compute; reflexivity).
  rewrite Hrun in Hload. injection Hload as <-.
  apply Forall_cons in Hsav as [(a & b & [= <-] & _ & Ha & _) _].
  unfold short in Ha. pose proof limit_large. lia.
Qed.

(** X8.  The converse of the round trip: when [save_markup_to_file]
    writes a text that loads back as the saved intervals, every saved
    interval is savable: its start and end are ints of at most
    [max_str_digits] digits and its description holds no whitespace. *)
Theorem round_trip_only_savable (h : heap)
    (existing_intervals markup_intervals : list loc) (text : str) :
  save_markup_to_file markup_intervals existing_intervals h = Ok text ->
  load_annotations text
  = Ok (values h (existing_intervals ++ markup_intervals)) ->
  Forall (fun r => savable (cells h r)) (existing_intervals ++ markup_intervals).
Proof.
  intros Hsave Hload. unfold save_markup_to_file in Hsave.
  apply bind_ok in Hsave as ([] & Hrepr & _).
  apply (savable_repr _ (load_annotations_int_times _ _ Hload)
           (load_annotations_no_space _ _ Hload)) in Hrepr.
  unfold values in Hrepr. now rewrite Forall_map in Hrepr.
Qed.

Lemma round_trip_only_savable_witness :
  Forall (fun r => savable (cells heap_swd_ds r)) ([0%nat] ++ [1%nat]).
Proof.
  apply (round_trip_only_savable heap_swd_ds [0%nat] [1%nat]
           ($"1  00:00:05  swd1" ++ [LF] ++ $"1  00:00:09    swd2" ++ [LF]
            ++ $"2  00:00:12  ds1" ++ [LF] ++ $"2  00:00:20    ds2" ++ [LF]));
    vm_compute; reflexivity.
Defined.

Lemma file_lines_from_CR cur r :
  file_lines_from cur (CR :: r)
  = match r with
    | c' :: r' =>
        if ascii_eqb c' LF then rev (LF :: cur) :: file_lines_from [] r'
        else rev (LF :: cur) :: file_lines_from [] r
    | [] => [rev (LF :: cur)]
    end.
Proof. reflexivity. Qed.

Lemma file_lines_from_body body : forall cur rest,
  Forall line_char body ->
  file_lines_from cur (body ++ rest) = file_lines_from (rev body ++ cur) rest.
Proof.
  induction body as [|c body IH]; intros cur rest Hbody; [done|].
  apply Forall_cons in Hbody as [Hc Hbody]. cbn [app].
  rewrite file_lines_from_other by done. rewrite IH by done.
  simpl. now rewrite <- app_assoc.
Qed.

Lemma file_lines_ended_CRLF bodies :
  Forall (Forall line_char) bodies ->
  file_lines (ended [CR; LF] bodies) = terminated bodies.
Proof.
  unfold file_lines, ended. induction bodies as [|b bodies IH]; intros Hall; [done|].
  apply Forall_cons in Hall as [Hb Hall]. cbn [map concat].
  rewrite <- app_assoc, file_lines_from_body by done. cbn [app].
  rewrite file_lines_from_CR. cbn [ascii_eqb]. simpl.
  rewrite app_nil_r, rev_involutive. now rewrite IH.
Qed.

Lemma file_lines_ended_CR bodies :
  Forall (Forall line_char) bodies ->
  file_lines (ended [CR] bodies) = terminated bodies.
Proof.
  unfold file_lines, ended. induction bodies as [|b bodies IH]; intros Hall; [done|].
  apply Forall_cons in Hall as [Hb Hall]. cbn [map concat].
  rewrite <- app_assoc, file_lines_from_body by done. cbn [app].
  rewrite file_lines_from_CR. rewrite app_nil_r. specialize (IH Hall).
  destruct (concat (map (fun b0 => b0 ++ [CR]) bodies)) as [|c' r'] eqn:Hrest.
  - destruct bodies as [|b' bodies]; [|destruct b'; discriminate Hrest].
    simpl. now rewrite rev_involutive.
  - assert (ascii_eqb c' LF = false) as ->.
    { apply ascii_eqb_neq. destruct bodies as [|b' bodies]; [discriminate|].
      apply Forall_cons in Hall as [Hb' _]. cbn [map concat] in Hrest.
      destruct b' as [|c0 b'].
      - injection Hrest as <- _. discriminate.
      - injection Hrest as <- _. apply Forall_cons in Hb' as [[_ ?] _]. done. }
    rewrite IH. simpl. now rewrite rev_involutive.
Qed.

Lemma file_lines_ended_LF bodies :
  Forall (Forall line_char) bodies ->
  file_lines (ended [LF] bodies) = terminated bodies.
Proof. apply file_lines_terminated. Qed.

(** X9.  The kind of line terminator does not matter to the load: the same
    lines ended by ["\r\n"], by ["\r"] or by ["\n"] load as the same
    intervals. *)
Theorem load_annotations_any_newline (bodies : list str) :
  Forall (Forall line_char) bodies ->
  load_annotations (ended [CR; LF] bodies) = load_annotations (ended [LF] bodies)
  /\ load_annotations (ended [CR] bodies) = load_annotations (ended [LF] bodies).
Proof.
  intros Hall. unfold load_annotations.
  now rewrite file_lines_ended_CRLF, file_lines_ended_CR, file_lines_ended_LF.
Qed.

Lemma load_annotations_any_newline_witness :
  load_annotations ($"1 00:00:05 swd1" ++ [CR; LF] ++ $"1 00:00:09 swd2" ++ [CR; LF])
  = Ok [Interval (Int 5) (Int 9) $"swd"]
  /\ load_annotations ($"1 00:00:05 swd1" ++ [CR] ++ $"1 00:00:09 swd2" ++ [CR])
     = Ok [Interval (Int 5) (Int 9) $"swd"].
Proof.
  destruct (load_annotations_any_newline [$"1 00:00:05 swd1"; $"1 00:00:09 swd2"])
    as [H1 H2].
  - repeat constructor; discriminate.
  - split; [etrans; [exact H1|reflexivity] | etrans; [exact H2|reflexivity]].
Defined.

(** X10.  What was loaded from a file survives a save: when the load
    reports no error, the intervals it returns, saved and loaded again,
    come back unchanged, whatever the file they came from. *)
Theorem reload_of_loaded (content : str) (h : heap) (stored : list loc) :
  error (load_edf_with_annotations content) = None ->
  values h stored = intervals (load_edf_with_annotations content) ->
  exists text,
    save_markup_to_file [] stored h = Ok text
    /\ load_annotations text
       = Ok (intervals (load_edf_with_annotations content)).
Proof.
  intros Herr Hvals.
  destruct (load_edf_with_annotations_cases content)
    as (ivs & _ & _ & _ & [[[Hsav Hlen] (cs & _ & Hres)] | [_ Hres]]);
    rewrite Hres in *; [|discriminate Herr].
  cbn [intervals] in *.
  destruct (saved_reloads h stored []) as (text & Hsave & Hload).
  - rewrite app_nil_r. unfold values in Hvals. rewrite <- Hvals in Hsav.
    now rewrite Forall_map in Hsav.
  - rewrite app_nil_r. apply (f_equal length) in Hvals. unfold values in Hvals.
    rewrite length_map in Hvals. now rewrite Hvals.
  - exists text. split; [exact Hsave|].
    now rewrite Hload, app_nil_r, Hvals.
Qed.

Lemma reload_of_loaded_witness :
  exists text,
    save_markup_to_file [] [0%nat]
      (Heap (fun _ => Interval (Int 5) (Int 9) $"swd") 1%nat) = Ok text
    /\ load_annotations text = Ok [Interval (Int 5) (Int 9) $"swd"].
Proof.
  apply (reload_of_loaded
           ($" 7   0:0:5 swd1" ++ [CR; LF] ++ $"junk" ++ [LF] ++ $"8 00:00:09 swd2"));
    vm_compute; reflexivity.
Defined.
(** ** Interval store *)

(** X11.  On a list of interval objects created earlier, [add_markup]
    returns the list followed by one new object that is none of them; the
    new object holds the given start, end and label and the contents of
    the earlier ones are unchanged. *)
Theorem add_markup_appends (start_time end_time : number) (lab : str)
    (markup_intervals : list loc) (h : heap) :
  Forall (fun r => (r < next h)%nat) markup_intervals ->
  exists r h',
    add_markup start_time end_time lab markup_intervals h
    = (markup_intervals ++ [r], h')
    /\ (r ∉ markup_intervals)
    /\ values h' (markup_intervals ++ [r])
       = values h markup_intervals ++ [Interval start_time end_time lab]
    /\ Forall (fun r' => (r' < next h')%nat) (markup_intervals ++ [r]).
Proof.
  intros Hwf. unfold add_markup, alloc. eexists _, _. split; [reflexivity|].
  rewrite Forall_forall in Hwf. split.
  - intros Hin. apply Hwf in Hin. lia.
  - split.
    + unfold values. rewrite map_app. cbn [map cells]. f_equal.
      * apply map_ext_in. intros r' Hin. apply list_elem_of_In, Hwf in Hin.
        rewrite decide_False by lia. done.
      * now rewrite decide_True.
    + cbn [next]. apply Forall_app_2.
      * apply Forall_forall. intros r' Hin. apply Hwf in Hin. lia.
      * constructor; [lia|constructor].
Qed.

Lemma add_markup_appends_witness :
  exists r h',
    add_markup (Int 30) (Float 40.5) $"is" [0%nat; 1%nat] heap_swd_ds
    = ([0%nat; 1%nat] ++ [r], h')
    /\ values h' ([0%nat; 1%nat] ++ [r])
       = [Interval (Int 5) (Int 9) $"swd"; Interval (Int 12) (Int 20) $"ds";
          Interval (Int 30) (Float 40.5) $"is"].
Proof.
  destruct (add_markup_appends (Int 30) (Float 40.5) $"is" [0%nat; 1%nat]
              heap_swd_ds)
    as (r & h' & Hadd & _ & Hvals & _).
  - repeat constructor.
  - exists r, h'. split; [exact Hadd|]. exact Hvals.
Defined.

Lemma map_edit_NoDup {A} (f : loc -> A) (v : A) (l : list loc) : forall k r,
  NoDup l -> l !! k = Some r ->
  map (fun r' => if decide (r' = r) then v else f r') l = <[k := v]> (map f l).
Proof.
  induction l as [|x l IH]; intros k r Hnd Hk; [done|].
  apply NoDup_cons in Hnd as [Hx Hnd]. destruct k as [|k]; simpl in *.
  - injection Hk as ->. rewrite decide_True by done. f_equal.
    apply map_ext_in. intros r' Hin. apply list_elem_of_In in Hin.
    rewrite decide_False; [done|]. intros ->. done.
  - rewrite decide_False.
    + f_equal. now apply IH.
    + intros ->. apply Hx. eapply list_elem_of_lookup_2, Hk.
Qed.

Lemma edit_markup_map sel st en lab existing_intervals markup_intervals h p :
  1 <= p <= Z.of_nat (length (existing_intervals ++ markup_intervals)) ->
  selected_index sel = Ok (p - 1) ->
  exists r h',
    (existing_intervals ++ markup_intervals) !! Z.to_nat (p - 1) = Some r
    /\ edit_markup sel st en lab existing_intervals markup_intervals h
       = (interval_choices <- choices h' (existing_intervals ++ markup_intervals) ;;
          Ok (existing_intervals ++ markup_intervals, interval_choices), h')
    /\ values h' (existing_intervals ++ markup_intervals)
       = map (fun r' => if decide (r' = r) then Interval st en lab
                        else cells h r')
             (existing_intervals ++ markup_intervals).
Proof.
  intros Hp Hsel. set (all := existing_intervals ++ markup_intervals) in *.
  destruct (lookup_lt_is_Some_2 all (Z.to_nat (p - 1)) ltac:(lia)) as [r Hr].
  destruct (edit_markup_frame sel st en lab
              existing_intervals markup_intervals h p r Hp Hsel Hr)
    as (h' & Hedit & Hnew & Hold).
  exists r, h'. split; [done|]. split; [done|].
  unfold values. apply map_ext_in. intros r' Hin.
  destruct (decide (r' = r)) as [->|Hne]; [done|].
  apply list_elem_of_In, list_elem_of_lookup in Hin as [q Hq]. now apply (Hold q).
Qed.

(** X12.  What an edit changes: with [r] the object at the selected
    position, every position of the returned list that holds [r] shows the
    new start, end and label and every other position shows what it showed
    before.  When no object occurs twice in the concatenation this is the
    update of the one selected position.  The edit is done whether or not
    the display list can then be made. *)
Theorem edit_markup_values (selected_interval : str)
    (start_time end_time : number)
    (lab : str) (existing_intervals markup_intervals : list loc) (h : heap)
    (p : Z) :
  1 <= p <= Z.of_nat (length (existing_intervals ++ markup_intervals)) ->
  selected_index selected_interval = Ok (p - 1) ->
  exists r h',
    (existing_intervals ++ markup_intervals) !! Z.to_nat (p - 1) = Some r
    /\ edit_markup selected_interval start_time end_time lab
         existing_intervals markup_intervals h
       = (interval_choices <- choices h' (existing_intervals ++ markup_intervals) ;;
          Ok (existing_intervals ++ markup_intervals, interval_choices), h')
    /\ values h' (existing_intervals ++ markup_intervals)
       = map (fun r' => if decide (r' = r)
                        then Interval start_time end_time lab
                        else cells h r')
             (existing_intervals ++ markup_intervals)
    /\ (NoDup (existing_intervals ++ markup_intervals) ->
        values h' (existing_intervals ++ markup_intervals)
        = <[Z.to_nat (p - 1) := Interval start_time end_time lab]>
            (values h (existing_intervals ++ markup_intervals))).
Proof.
  intros Hp Hsel.
  destruct (edit_markup_map selected_interval start_time end_time lab
              existing_intervals markup_intervals h p Hp Hsel)
    as (r & h' & Hr & Hedit & Hvals).
  exists r, h'. split; [done|]. split; [done|]. split; [done|].
  intros Hnd. rewrite Hvals. now apply map_edit_NoDup.
Qed.

Lemma edit_markup_values_witness :
  exists h',
    edit_markup $"2: 00:00:12 - 00:00:20 (ds)" (Int 7) (Int 8) $"is"
      [0%nat] [1%nat] heap_swd_ds
    = (Ok ([0%nat] ++ [1%nat],
           [$"1: 00:00:05 - 00:00:09 (swd)"; $"2: 00:00:07 - 00:00:08 (is)"]),
       h')
    /\ values h' ([0%nat] ++ [1%nat])
       = [Interval (Int 5) (Int 9) $"swd"; Interval (Int 7) (Int 8) $"is"].
Proof.
  destruct (edit_markup_values $"2: 00:00:12 - 00:00:20 (ds)" (Int 7) (Int 8)
              $"is" [0%nat] [1%nat] heap_swd_ds 2)
    as (r & h' & Hr & Hedit & Hmap & Hvals).
  - simpl. lia.
  - vm_compute. reflexivity.
  - exists h'. injection Hr as <-.
    assert (choices h' ([0%nat] ++ [1%nat])
            = Ok [$"1: 00:00:05 - 00:00:09 (swd)"; $"2: 00:00:07 - 00:00:08 (is)"])
      as Hshown.
    { etrans; [exact (f_equal entries Hmap) | vm_compute; reflexivity]. }
    split; [|apply Hvals].
    { etrans; [exact Hedit|]. apply (f_equal (fun x => (x, h'))).
      exact (f_equal
               (fun c => bind c (fun cs => Ok ([0%nat] ++ [1%nat], cs)))
               Hshown). }
    apply NoDup_cons. split; [|apply NoDup_singleton].
    intros Hin. apply list_elem_of_singleton in Hin. discriminate Hin.
Defined.

(** X13.  Every entry of a display list selects its own position: the
    number in front of the first colon, read as [edit_markup] and
    [delete_markup] read it, is the index of the entry.  This holds for the
    list returned by the load as well. *)
Theorem choices_select_own_position (h : heap) (l : list loc)
    (ivs : list interval) (shown : list str) (k : nat) (entry : str) :
  choices h l = Ok shown \/ entries ivs = Ok shown ->
  shown !! k = Some entry ->
  selected_index entry = Ok (Z.of_nat k).
Proof.
  assert (forall ivs', entries ivs' = Ok shown -> shown !! k = Some entry ->
            selected_index entry = Ok (Z.of_nat k)) as Hentries.
  { intros ivs' Hshown Hk.
    pose proof (entries_length _ _ Hshown) as Hlen.
    destruct (lookup_lt_is_Some_2 ivs' k) as [iv Hiv];
      [rewrite <- Hlen; now apply lookup_lt_Some in Hk|].
    destruct (entries_lookup _ _ _ _ Hshown Hiv) as (c & Hc & Hentry).
    rewrite Hk in Hc. injection Hc as <-.
    now apply (selected_index_choice_entry k iv). }
  intros [H|H]; [apply (Hentries (values h l)) | apply (Hentries ivs)]; exact H.
Qed.

Lemma choices_select_own_position_witness :
  selected_index $"2: 00:00:12 - 00:00:20 (ds)" = Ok 1.
Proof.
  apply (choices_select_own_position heap_swd_ds [0%nat; 1%nat] []
           [$"1: 00:00:05 - 00:00:09 (swd)"; $"2: 00:00:12 - 00:00:20 (ds)"]
           1%nat).
  - left. vm_compute. reflexivity.
  - reflexivity.
Defined.

Lemma choices_ext h h' l :
  (forall r, r ∈ l -> cells h' r = cells h r) -> choices h' l = choices h l.
Proof.
  intros Heq. unfold choices, values. f_equal. apply map_ext_in.
  intros r Hr. apply Heq. now apply list_elem_of_In.
Qed.

(** X14.  Adding an interval and then deleting the last position gives the
    list and the display list there were before the addition (or the
    exception the making of that display list raises). *)
Theorem delete_added (start_time end_time : number) (lab : str)
    (markup_intervals : list loc) (h : heap) (selected_interval : str) :
  Forall (fun r => (r < next h)%nat) markup_intervals ->
  selected_index selected_interval = Ok (Z.of_nat (length markup_intervals)) ->
  exists r h',
    add_markup start_time end_time lab markup_intervals h
    = (markup_intervals ++ [r], h')
    /\ delete_markup selected_interval (markup_intervals ++ [r]) [] h'
       = (interval_choices <- choices h markup_intervals ;;
          Ok (markup_intervals, interval_choices)).
Proof.
  intros Hwf Hsel. unfold add_markup, alloc. eexists _, _. split; [reflexivity|].
  unfold delete_markup. rewrite Hsel. cbn [bind]. rewrite app_nil_r.
  rewrite norm_index_in_range by (rewrite length_app; simpl; lia).
  cbn [bind]. rewrite Nat2Z.id.
  assert (delete (length markup_intervals) (markup_intervals ++ [next h])
          = markup_intervals) as ->.
  { rewrite delete_take_drop, take_app_length.
    rewrite drop_ge by (rewrite length_app; simpl; lia). apply app_nil_r. }
  f_equal. apply choices_ext. intros r Hr. cbn [cells].
  rewrite Forall_forall in Hwf. apply Hwf in Hr. rewrite decide_False by lia. done.
Qed.

Lemma delete_added_witness :
  exists r h',
    add_markup (Int 30) (Int 40) $"is" [0%nat; 1%nat] heap_swd_ds
    = ([0%nat; 1%nat] ++ [r], h')
    /\ delete_markup $"3: 00:00:30 - 00:00:40 (is)" ([0%nat; 1%nat] ++ [r]) [] h'
       = Ok ([0%nat; 1%nat],
             [$"1: 00:00:05 - 00:00:09 (swd)"; $"2: 00:00:12 - 00:00:20 (ds)"]).
Proof.
  apply (delete_added (Int 30) (Int 40) $"is" [0%nat; 1%nat] heap_swd_ds
           $"3: 00:00:30 - 00:00:40 (is)").
  - repeat constructor.
  - vm_compute. reflexivity.
Defined.

(** ** Handlers *)

Lemma add_click_cases s e lab (annotations : list loc) h :
  (exists shown h',
     add_click s e lab annotations h
     = ((annotations ++ [next h]) ++ (annotations ++ [next h]), Ok shown, h'))
  \/ (exists ex h',
        add_click s e lab annotations h
        = (annotations ++ [next h], Raise ex, h')).
Proof.
  unfold add_click, add_markup, alloc, refresh.
  destruct (choices _ _) as [shown|ex]; cbn [bind]; [left | right]; eauto.
Qed.

Lemma add_clicks_bounds inputs : forall annotations h,
  (length annotations + length inputs <= length (add_clicks inputs annotations h).1
   /\ length (add_clicks inputs annotations h).1 + 2
      <= 2 ^ length inputs * (length annotations + 2))%nat.
Proof.
  induction inputs as [|[[s e] lab] inputs IH]; intros annotations h.
  - simpl. lia.
  - cbn [add_clicks length]. rewrite Nat.pow_succ_r'.
    pose proof (Nat.pow_nonzero 2 (length inputs) ltac:(lia)) as Hpow.
    destruct (add_click_cases s e lab annotations h)
      as [(shown & h' & ->) | (ex & h' & ->)]; lazy beta iota.
    + destruct (IH ((annotations ++ [next h]) ++ (annotations ++ [next h])) h')
        as [Hlow Hup].
      rewrite !length_app in Hlow, Hup. cbn [length] in Hlow, Hup. nia.
    + destruct (IH (annotations ++ [next h]) h') as [Hlow Hup].
      rewrite !length_app in Hlow, Hup. cbn [length] in Hlow, Hup. nia.
Qed.

Lemma add_clicks_displayed inputs : forall annotations h,
  all_displayed inputs annotations h ->
  (length (add_clicks inputs annotations h).1 + 2
   = 2 ^ length inputs * (length annotations + 2))%nat.
Proof.
  induction inputs as [|[[s e] lab] inputs IH]; intros annotations h Hall.
  - simpl. lia.
  - cbn [add_clicks all_displayed length] in *. rewrite Nat.pow_succ_r'.
    destruct (add_click_cases s e lab annotations h)
      as [(shown & h' & Hclick) | (ex & h' & Hclick)];
      rewrite Hclick in *; lazy beta iota in *;
      destruct Hall as [(cs & Hcs) Hall]; [|discriminate Hcs].
    rewrite (IH _ _ Hall). rewrite !length_app. cbn [length]. lia.
Qed.

(** X15.  Every click on Add whose display list is made stores the list
    twice over: the function chained after [add_markup] concatenates the
    stored list with itself.  After [k] such clicks on a stored list of
    [n] intervals the stored list has [2 ^ k * (n + 2) - 2] entries.  A
    click whose display list cannot be made stores one entry more; so
    after any [k] clicks the stored list has between [n + k] and
    [2 ^ k * (n + 2) - 2] entries. *)
Theorem add_clicks_grow (inputs : list (number * number * str))
    (annotations : list loc) (h : heap) :
  (all_displayed inputs annotations h ->
   length (add_clicks inputs annotations h).1
   = 2 ^ length inputs * (length annotations + 2) - 2)%nat
  /\ (length annotations + length inputs
      <= length (add_clicks inputs annotations h).1
      <= 2 ^ length inputs * (length annotations + 2) - 2)%nat.
Proof.
  pose proof (add_clicks_bounds inputs annotations h) as [Hlow Hup].
  split; [|lia].
  intros Hall. pose proof (add_clicks_displayed inputs annotations h Hall). lia.
Qed.

Lemma add_clicks_grow_witness :
  all_displayed [(Int 30, Int 40, $"is"); (Int 50, Int 60, $"ds")]
    [0%nat; 1%nat] heap_swd_ds
  /\ length (add_clicks [(Int 30, Int 40, $"is"); (Int 50, Int 60, $"ds")]
               [0%nat; 1%nat] heap_swd_ds).1
     = 14%nat
  /\ length (add_clicks [(Int 30, NoNumber, $"is"); (Int 50, Int 60, $"ds")]
               [0%nat; 1%nat] heap_swd_ds).1
     = 4%nat.
Proof.
  assert (all_displayed [(Int 30, Int 40, $"is"); (Int 50, Int 60, $"ds")]
            [0%nat; 1%nat] heap_swd_ds) as Hall.
  { vm_compute. split; [eexists; reflexivity|].
    split; [eexists; reflexivity | exact I]. }
  split; [exact Hall|]. split.
  - exact (proj1 (add_clicks_grow _ _ _) Hall).
  - reflexivity.
Defined.

Lemma lookup_double (l : list loc) j r :
  l !! j = Some r ->
  (l ++ l) !! j = Some r /\ (l ++ l) !! (length l + j)%nat = Some r.
Proof.
  intros Hj. split.
  - now apply lookup_app_l_Some.
  - rewrite lookup_app_r by lia. now replace (length l + j - length l)%nat with j by lia.
Qed.

(** X16.  A click on Delete with a valid selection removes no interval
    from what is stored: the handler deletes one position of the stored
    list concatenated with itself, so every stored interval is still in
    the list stored afterwards, which has [2 * n - 1] entries (it is
    stored when its display list is made). *)
Theorem delete_click_keeps_all (selected_interval : str)
    (annotations : list loc) (h : heap) (p : Z) :
  1 <= p <= Z.of_nat (length (annotations ++ annotations)) ->
  selected_index selected_interval = Ok (p - 1) ->
  exists all',
    delete_click selected_interval annotations h
    = (interval_choices <- choices h all' ;; Ok (all', interval_choices))
    /\ S (length all') = (2 * length annotations)%nat
    /\ (forall r, r ∈ annotations -> r ∈ all').
Proof.
  intros Hp Hsel. unfold delete_click, delete_markup. rewrite Hsel. cbn [bind].
  rewrite norm_index_in_range by lia. cbn [bind].
  set (k := Z.to_nat (p - 1)). eexists. split; [reflexivity|].
  assert (k < length (annotations ++ annotations))%nat as Hk by lia.
  split.
  { rewrite length_delete by now apply lookup_lt_is_Some_2.
    rewrite length_app in *. lia. }
  intros r Hr. apply list_elem_of_lookup in Hr as [j Hj].
  pose proof (lookup_lt_Some _ _ _ Hj) as Hjlt.
  destruct (lookup_double annotations j r Hj) as [H1 H2].
  destruct (decide (j < k)%nat) as [Hlt|Hge].
  - apply list_elem_of_lookup. exists j. now rewrite list_lookup_delete_lt.
  - apply list_elem_of_lookup. exists (length annotations + j - 1)%nat.
    rewrite list_lookup_delete_ge by lia.
    now replace (S (length annotations + j - 1)) with (length annotations + j)%nat by lia.
Qed.

Lemma delete_click_keeps_all_witness :
  exists all' choices',
    delete_click $"1: 00:00:05 - 00:00:09 (swd)" [0%nat; 1%nat] heap_swd_ds
    = Ok (all', choices')
    /\ all' = [1%nat; 0%nat; 1%nat]
    /\ (forall r, r ∈ [0%nat; 1%nat] -> r ∈ all').
Proof.
  destruct (delete_click_keeps_all $"1: 00:00:05 - 00:00:09 (swd)"
              [0%nat; 1%nat] heap_swd_ds 1)
    as (all' & Hdel & _ & Hkeep).
  - simpl. lia.
  - vm_compute. reflexivity.
  - assert (delete_click $"1: 00:00:05 - 00:00:09 (swd)" [0%nat; 1%nat]
              heap_swd_ds
            = Ok ([1%nat; 0%nat; 1%nat],
                  [$"1: 00:00:12 - 00:00:20 (ds)";
                   $"2: 00:00:05 - 00:00:09 (swd)";
                   $"3: 00:00:12 - 00:00:20 (ds)"])) as Hrun
      by (vm_compute; reflexivity).
    exists all', [$"1: 00:00:12 - 00:00:20 (ds)";
                  $"2: 00:00:05 - 00:00:09 (swd)";
                  $"3: 00:00:12 - 00:00:20 (ds)"].
    assert (all' = [1%nat; 0%nat; 1%nat]) as Hall'.
    { rewrite Hrun in Hdel. symmetry in Hdel.
      apply bind_ok in Hdel as (cs & _ & [= <- _]). reflexivity. }
    split; [now rewrite Hall'|]. split; [exact Hall' | exact Hkeep].
Defined.

(** X17.  A click on Edit with a selection among the [n] stored intervals
    (no object stored twice) gives the list twice over, stored when its
    display list is made, and the edited interval holds its new start,
    end and label in both copies. *)
Theorem edit_click_doubles (selected_interval : str)
    (start_time end_time : number) (lab : str) (annotations : list loc)
    (h : heap) (p : Z) :
  NoDup annotations ->
  1 <= p <= Z.of_nat (length annotations) ->
  selected_index selected_interval = Ok (p - 1) ->
  exists h',
    edit_click selected_interval start_time end_time lab annotations h
    = (interval_choices <- choices h' (annotations ++ annotations) ;;
       Ok (annotations ++ annotations, interval_choices), h')
    /\ values h' (annotations ++ annotations)
       = <[Z.to_nat (p - 1) := Interval start_time end_time lab]>
           (values h annotations)
         ++ <[Z.to_nat (p - 1) := Interval start_time end_time lab]>
              (values h annotations).
Proof.
  intros Hnd Hp Hsel. unfold edit_click.
  destruct (edit_markup_map selected_interval start_time end_time lab
              annotations annotations h p) as (r & h' & Hr & Hedit & Hvals);
    [rewrite length_app; lia | done |].
  exists h'. split; [done|].
  rewrite Hvals, map_app.
  rewrite lookup_app_l in Hr by lia.
  now rewrite (map_edit_NoDup _ _ _ _ _ Hnd Hr).
Qed.

Lemma edit_click_doubles_witness :
  exists h',
    edit_click $"2: 00:00:12 - 00:00:20 (ds)" (Int 7) (Int 8) $"is"
      [0%nat; 1%nat] heap_swd_ds
    = (interval_choices <- choices h' ([0%nat; 1%nat] ++ [0%nat; 1%nat]) ;;
       Ok ([0%nat; 1%nat] ++ [0%nat; 1%nat], interval_choices), h')
    /\ values h' ([0%nat; 1%nat] ++ [0%nat; 1%nat])
       = [Interval (Int 5) (Int 9) $"swd"; Interval (Int 7) (Int 8) $"is";
          Interval (Int 5) (Int 9) $"swd"; Interval (Int 7) (Int 8) $"is"].
Proof.
  destruct (edit_click_doubles $"2: 00:00:12 - 00:00:20 (ds)" (Int 7) (Int 8)
              $"is" [0%nat; 1%nat] heap_swd_ds 2)
    as (h' & Hedit & Hvals).
  - apply NoDup_cons. split; [|apply NoDup_singleton].
    intros Hin. apply list_elem_of_singleton in Hin. discriminate Hin.
  - simpl. lia.
  - vm_compute. reflexivity.
  - exists h'. split; [exact Hedit|]. exact Hvals.
Defined.

(** X18.  A click on Save writes every stored interval twice: when the
    stored intervals are savable and fewer than half of [limit], the text
    it writes loads back as the stored intervals followed by the stored
    intervals again. *)
Theorem save_click_reload (annotations : list loc) (h : heap) :
  Forall (fun r => savable (cells h r)) annotations ->
  2 * Z.of_nat (length annotations) < limit ->
  exists text,
    save_click annotations h = Ok text
    /\ load_annotations text
       = Ok (values h annotations ++ values h annotations).
Proof.
  intros Hall Hlen. unfold save_click.
  destruct (saved_reloads h annotations annotations) as (text & Hsave & Hload).
  - now apply Forall_app_2.
  - rewrite length_app. lia.
  - exists text. split; [exact Hsave|].
    rewrite Hload. unfold values. now rewrite map_app.
Qed.

Lemma save_click_reload_witness :
  exists text,
    save_click [0%nat; 1%nat] heap_swd_ds = Ok text
    /\ load_annotations text
       = Ok [Interval (Int 5) (Int 9) $"swd"; Interval (Int 12) (Int 20) $"ds";
             Interval (Int 5) (Int 9) $"swd"; Interval (Int 12) (Int 20) $"ds"].
Proof.
  apply (save_click_reload [0%nat; 1%nat] heap_swd_ds).
  - repeat constructor; apply savable_swd_ds.
  - pose proof limit_large. simpl. lia.
Defined.
(** ** Renderer *)

Lemma phase_colors_lookup (k : str) :
  phase_colors !! k
  = if decide (k = $"swd") then Some $"rgba(255, 0, 0, 0.7)"
    else if decide (k = $"is") then Some $"rgba(0, 255, 0, 0.7)"
    else if decide (k = $"ds") then Some $"rgba(0, 0, 255, 0.7)"
    else None.
Proof.
  unfold phase_colors.
  destruct (decide (k = $"swd")) as [->|?]; [now rewrite lookup_insert_eq|].
  rewrite lookup_insert_ne by done.
  destruct (decide (k = $"is")) as [->|?]; [now rewrite lookup_insert_eq|].
  rewrite lookup_insert_ne by done.
  destruct (decide (k = $"ds")) as [->|?]; [now rewrite lookup_insert_eq|].
  rewrite lookup_insert_ne by done. apply lookup_empty.
Qed.

Lemma lower_char_idempotent c : lower_char (lower_char c) = lower_char c.
Proof. each_char c. Qed.

Lemma lower_idempotent s : lower (lower s) = lower s.
Proof.
  unfold lower. rewrite map_map. apply map_ext. intros c.
  apply lower_char_idempotent.
Qed.

(** X19.  The colour of an interval depends on its description only up to
    the case of its letters: it is red, green or blue exactly when the
    description in lower case is [swd], [is] or [ds], and the transparent
    default for every other description. *)
Theorem interval_color_cases (iv : interval) :
  (interval_color iv = $"rgba(255, 0, 0, 0.7)" <-> lower (description iv) = $"swd")
  /\ (interval_color iv = $"rgba(0, 255, 0, 0.7)" <-> lower (description iv) = $"is")
  /\ (interval_color iv = $"rgba(0, 0, 255, 0.7)" <-> lower (description iv) = $"ds")
  /\ (interval_color iv = default_color <->
      lower (description iv) <> $"swd" /\ lower (description iv) <> $"is"
      /\ lower (description iv) <> $"ds")
  /\ interval_color (Interval (start iv) (end_ iv) (lower (description iv)))
     = interval_color iv.
Proof.
  unfold interval_color. cbn [description]. rewrite lower_idempotent.
  rewrite phase_colors_lookup.
  destruct (decide (lower (description iv) = $"swd")) as [->|H1].
  { repeat split; try done; try discriminate. intros [? _]. done. }
  destruct (decide (lower (description iv) = $"is")) as [->|H2].
  { repeat split; try done; try discriminate. intros (_ & ? & _). done. }
  destruct (decide (lower (description iv) = $"ds")) as [->|H3].
  { repeat split; try done; try discriminate. intros (_ & _ & ?). done. }
  repeat split; try done; try discriminate.
Qed.
